(** * compile_css.py: a shallow embedding of the CSS compiler

    The program reads a stylesheet, lets tinycss2 parse it, stores the rules
    in ordered dictionaries (top level and one per media condition), collects
    the other at-rules, optionally sorts the selectors and writes the
    stylesheet back section by section.

    tinycss2 is an external collaborator: its parser and serializer are not
    part of the program.  A stylesheet is therefore taken as the tree of
    nodes the parser returns, each node carrying the text the serializer
    gives for its parts.  Everything the program itself does with these
    nodes (trimming, splitting, merging, sorting, classifying, printing) is
    embedded below, function by function, under the names of the source.

    Strings are sequences of characters with code points below 256; the
    predicates on characters follow Python's [str] methods on that range. *)

From Stdlib Require Import Bool Arith ZArith Lia List Ascii String.
From Stdlib Require Import Sorting.Sorted Sorting.Permutation.
Import ListNotations.

Local Open Scope list_scope.
Local Open Scope string_scope.

Set Implicit Arguments.

(* ================================================================== *)
(** * Python string primitives *)
(* ================================================================== *)

Module PyStr.

(** One-character string. *)
Definition chr (c : ascii) : string := String c EmptyString.

Definition dquote : ascii := "034"%char.
Definition squote : ascii := "039"%char.
Definition backslash : ascii := "092"%char.
Definition newline : ascii := "010"%char.

(** The line feed as a string. *)
Definition nl : string := chr newline.

(** [str.isspace] on one character: TAB..CR, FS..US, space, NEL, NBSP.
    The same set is what [\s] matches in [re] on a [str] pattern. *)
Definition is_space (c : ascii) : bool :=
  let n := nat_of_ascii c in
  (((9 <=? n) && (n <=? 13)) || ((28 <=? n) && (n <=? 32))
   || (n =? 133) || (n =? 160))%nat.

(** [\d] of [re] on code points below 256. *)
Definition is_digit (c : ascii) : bool :=
  let n := nat_of_ascii c in ((48 <=? n) && (n <=? 57))%nat.

Definition is_empty (s : string) : bool :=
  match s with EmptyString => true | String _ _ => false end.

Fixpoint lstrip (s : string) : string :=
  match s with
  | EmptyString => EmptyString
  | String c s' => if is_space c then lstrip s' else s
  end.

Fixpoint rstrip (s : string) : string :=
  match s with
  | EmptyString => EmptyString
  | String c s' =>
      let r := rstrip s' in
      if is_space c && is_empty r then EmptyString else String c r
  end.

(** [s.strip()] *)
Definition strip (s : string) : string := lstrip (rstrip s).

(** [s.startswith(p)] *)
Definition startswith (s p : string) : bool := String.prefix p s.

(** [p in s] *)
Fixpoint contains (s p : string) : bool :=
  String.prefix p s ||
  match s with
  | EmptyString => false
  | String _ s' => contains s' p
  end.

(** [s.endswith(chr c)] *)
Fixpoint ends_with_char (s : string) (c : ascii) : bool :=
  match s with
  | EmptyString => false
  | String a EmptyString => Ascii.eqb a c
  | String _ s' => ends_with_char s' c
  end.

(** [s.replace(old, new)] for a non-empty [old]: the occurrences are taken
    from left to right and do not overlap.  [skip] counts the characters
    of an occurrence that are still to be passed over. *)
Fixpoint replace_from (old new : string) (skip : nat) (s : string) : string :=
  match s with
  | EmptyString => EmptyString
  | String c s' =>
      match skip with
      | S k => replace_from old new k s'
      | O =>
          if String.prefix old s
          then new ++ replace_from old new (String.length old - 1) s'
          else String c (replace_from old new 0 s')
      end
  end.

Definition replace (s old new : string) : string := replace_from old new 0 s.

(** [s.lower()] on code points below 256: A-Z and the Latin-1 capitals. *)
Definition lower_char (c : ascii) : ascii :=
  let n := nat_of_ascii c in
  if (((65 <=? n) && (n <=? 90))
      || ((192 <=? n) && (n <=? 222) && negb (n =? 215)))%nat
  then ascii_of_nat (n + 32) else c.

Fixpoint lower (s : string) : string :=
  match s with
  | EmptyString => EmptyString
  | String c s' => String (lower_char c) (lower s')
  end.

(** [s.split()]: the maximal runs of characters that are not white space.
    [cur] is the run being read. *)
Fixpoint split_ws_from (cur : string) (s : string) : list string :=
  match s with
  | EmptyString => if is_empty cur then [] else [cur]
  | String c s' =>
      if is_space c
      then (if is_empty cur then split_ws_from EmptyString s'
            else cur :: split_ws_from EmptyString s')
      else split_ws_from (cur ++ chr c) s'
  end.

Definition split_ws (s : string) : list string := split_ws_from EmptyString s.

(** [sep.join(l)] *)
Definition join (sep : string) (l : list string) : string := String.concat sep l.

(** [s.split('\n')] *)
Fixpoint split_lines_from (cur : string) (s : string) : list string :=
  match s with
  | EmptyString => [cur]
  | String c s' =>
      if Ascii.eqb c newline then cur :: split_lines_from EmptyString s'
      else split_lines_from (cur ++ chr c) s'
  end.

Definition split_lines (s : string) : list string := split_lines_from EmptyString s.

(** [s[n:]] *)
Fixpoint drop (n : nat) (s : string) : string :=
  match n, s with
  | O, _ => s
  | S _, EmptyString => EmptyString
  | S k, String _ s' => drop k s'
  end.

(** The longest prefix whose characters all satisfy [p]. *)
Fixpoint take_while (p : ascii -> bool) (s : string) : string :=
  match s with
  | EmptyString => EmptyString
  | String c s' => if p c then String c (take_while p s') else EmptyString
  end.

(** [int(s)] for a string of decimal digits, from the left. *)
Fixpoint int_from (acc : Z) (s : string) : Z :=
  match s with
  | EmptyString => acc
  | String c s' => int_from (10 * acc + Z.of_nat (nat_of_ascii c - 48)) s'
  end.

Definition int_of_digits (s : string) : Z := int_from 0 s.

(** [''.join(l)] *)
Definition concat_all (l : list string) : string := String.concat EmptyString l.

End PyStr.
Import PyStr.

(* ================================================================== *)
(** * The selector splitter *)
(* ================================================================== *)

Module Splitter.

(** The local variables of [split_selectors]. *)
Record locals := mkLocals {
  result : list string;
  current : string;
  depth : Z;
  in_string : bool;
  quote_char : option ascii
}.

Definition init : locals := mkLocals [] EmptyString 0%Z false None.

Definition is_quote (c : ascii) : bool := Ascii.eqb c dquote || Ascii.eqb c squote.

(** [i == 0 or selector[i-1] != '\\'], with [prev] the character before. *)
Definition unescaped (prev : option ascii) : bool :=
  match prev with
  | None => true
  | Some p => negb (Ascii.eqb p backslash)
  end.

Definition is_opener (c : ascii) : bool := contains "([{" (chr c).
Definition is_closer (c : ascii) : bool := contains ")]}" (chr c).
Definition is_comma (c : ascii) : bool := Ascii.eqb c ","%char.

Definition same_quote (q : option ascii) (c : ascii) : bool :=
  match q with Some a => Ascii.eqb a c | None => false end.

(** The string bookkeeping at the head of the loop body. *)
Definition track_string (prev : option ascii) (char : ascii) (l : locals) : locals :=
  if is_quote char && unescaped prev then
    if negb (in_string l) then
      mkLocals (result l) (current l) (depth l) true (Some char)
    else if same_quote (quote_char l) char then
      mkLocals (result l) (current l) (depth l) false None
    else l
  else l.

Definition push (char : ascii) (l : locals) : locals :=
  mkLocals (result l) (current l ++ chr char) (depth l) (in_string l) (quote_char l).

Definition set_depth (d : Z) (l : locals) : locals :=
  mkLocals (result l) (current l) d (in_string l) (quote_char l).

(** [if current: sel = ''.join(current).strip(); if sel: result.append(sel);
    current = []] *)
Definition flush (l : locals) : locals :=
  if is_empty (current l) then l
  else
    let sel := strip (current l) in
    mkLocals (if is_empty sel then result l else (result l ++ [sel])%list)
             EmptyString (depth l) (in_string l) (quote_char l).

(** One turn of the loop over the characters. *)
Definition step (prev : option ascii) (char : ascii) (l : locals) : locals :=
  let l := track_string prev char l in
  if in_string l then push char l
  else if is_opener char then push char (set_depth (depth l + 1) l)
  else if is_closer char then push char (set_depth (depth l - 1) l)
  else if is_comma char && (depth l =? 0)%Z then flush l
  else push char l.

Fixpoint loop (prev : option ascii) (selector : string) (l : locals) : locals :=
  match selector with
  | EmptyString => l
  | String char rest => loop (Some char) rest (step prev char l)
  end.

Definition split_selectors (selector : string) : list string :=
  result (flush (loop None selector init)).

End Splitter.
Import Splitter.

(* ================================================================== *)
(** * Ordered dictionaries *)
(* ================================================================== *)

(** [OrderedDict] with [str] keys: the items in insertion order.  Assigning
    to a key that is present changes its value where it stands; assigning to
    a new key appends the item. *)
Module OD.

Section Dict.
Variable V : Type.

Definition t := list (string * V).

Definition empty : t := [].

Fixpoint get (k : string) (d : t) : option V :=
  match d with
  | [] => None
  | (k', v) :: d' => if String.eqb k' k then Some v else get k d'
  end.

(** [k in d] *)
Definition mem (k : string) (d : t) : bool :=
  match get k d with Some _ => true | None => false end.

(** [d[k] = v] *)
Fixpoint set (k : string) (v : V) (d : t) : t :=
  match d with
  | [] => [(k, v)]
  | (k', v') :: d' =>
      if String.eqb k' k then (k', v) :: d' else (k', v') :: set k v d'
  end.

(** [d.update(items)] *)
Definition update (d : t) (items : list (string * V)) : t :=
  fold_left (fun d kv => set (fst kv) (snd kv) d) items d.

(** [OrderedDict(items)] *)
Definition of_items (items : list (string * V)) : t := update empty items.

Definition keys (d : t) : list string := map fst d.

(** [d.setdefault(k, v)]: the dictionary afterwards and the value at [k]. *)
Definition setdefault (k : string) (v : V) (d : t) : t * V :=
  match get k d with
  | Some v' => (d, v')
  | None => (set k v d, v)
  end.

End Dict.

End OD.

(** [sorted(l, key=key)] and [l.sort(key=key)]: a stable sort, here by
    insertion from the right, so that equal keys keep their order. *)
Section StableSort.
Variables (A K : Type) (leb : K -> K -> bool) (key : A -> K).

Fixpoint insert_by (x : A) (l : list A) : list A :=
  match l with
  | [] => [x]
  | y :: l' => if leb (key x) (key y) then x :: l else y :: insert_by x l'
  end.

Fixpoint sorted_by (l : list A) : list A :=
  match l with
  | [] => []
  | x :: l' => insert_by x (sorted_by l')
  end.
End StableSort.

(* ================================================================== *)
(** * The data model *)
(* ================================================================== *)

(** class CSSRule *)
Module CSSRule.

Record t := mk {
  selector : string;
  properties : OD.t string;
  source_order : Z
}.

(** [CSSRule(selector)] *)
Definition new (selector : string) : t := mk (strip selector) (OD.empty _) 0.

Definition add_property (prop value : string) (r : t) : t :=
  mk (selector r) (OD.set (strip prop) (strip value) (properties r)) (source_order r).

Definition merge_with (other_rule : t) (r : t) : t :=
  mk (selector r) (OD.update (properties r) (properties other_rule)) (source_order r).

(** [f"{indent}{prop}: {value};"] *)
Definition declaration_line (indent : string) (pv : string * string) : string :=
  indent ++ fst pv ++ ": " ++ snd pv ++ ";".

Definition to_css (indent : string) (r : t) : string :=
  match properties r with
  | [] => ""
  | _ =>
      join nl
        ((selector r ++ " {")
           :: app (map (declaration_line indent) (properties r)) ["}"])
  end.

Definition default_indent : string := "    ".

End CSSRule.

(** What [tinycss2.parse_declaration_list] yields for one item of a block:
    a declaration with its lowercased name, the serialized text of its value
    and its [important] flag, or an error.  (Comments and white space are
    skipped by the parser.) *)
Inductive declaration :=
| Declaration (lower_name : string) (value : string) (important : bool)
| DeclarationError.

Set Warnings "-register-all".

(** A node of [tinycss2.parse_stylesheet].  [prelude] is the text
    [serialize] gives for the prelude tokens, [text] the text it gives for
    the whole at-rule.  The content of an at-rule is kept as the nodes that
    parsing its (serialized) block yields, which is all [process_at_rule]
    does with that block; an at-rule without a block, or with an empty one,
    has no such nodes, and the loop over them is empty either way. *)
Inductive node :=
| QualifiedRule (prelude : string) (content : list declaration)
| AtRule (lower_at_keyword : string) (prelude : string)
         (content : list node) (text : string)
| ParseError (source_line : Z) (message : string).

(** An entry of [self.at_rules]: a dict with the keys 'keyword', 'content'
    and, for keyframes only, 'name'. *)
Record at_rule_entry := mkEntry {
  keyword : string;
  name : option string;
  content : string
}.

(** [self.stats] *)
Record statistics := mkStats {
  rules_parsed : Z;
  selectors_split : Z;
  properties_merged : Z;
  st_at_rules : Z;
  st_media_queries : Z;
  parse_errors : Z
}.

(** The fields of a [RobustCSSCompiler] that compilation reads and writes
    (the file paths are left to the I/O around it). *)
Record compiler := mkCompiler {
  alphabetical_order : bool;
  safe_mode : bool;
  rules : OD.t CSSRule.t;
  at_rules : list at_rule_entry;
  media_queries : OD.t (OD.t CSSRule.t);
  stats : statistics
}.

Definition zero_stats : statistics := mkStats 0 0 0 0 0 0.

(** [RobustCSSCompiler(alphabetical_order=a, safe_mode=s)] *)
Definition new_compiler (a s : bool) : compiler :=
  mkCompiler a s (OD.empty _) [] (OD.empty _) zero_stats.

Definition with_rules (r : OD.t CSSRule.t) (self : compiler) : compiler :=
  mkCompiler (alphabetical_order self) (safe_mode self) r (at_rules self)
             (media_queries self) (stats self).

Definition with_at_rules (a : list at_rule_entry) (self : compiler) : compiler :=
  mkCompiler (alphabetical_order self) (safe_mode self) (rules self) a
             (media_queries self) (stats self).

Definition with_media_queries (m : OD.t (OD.t CSSRule.t)) (self : compiler) : compiler :=
  mkCompiler (alphabetical_order self) (safe_mode self) (rules self) (at_rules self)
             m (stats self).

Definition with_stats (s : statistics) (self : compiler) : compiler :=
  mkCompiler (alphabetical_order self) (safe_mode self) (rules self) (at_rules self)
             (media_queries self) s.

Inductive counter :=
| RulesParsed | SelectorsSplit | PropertiesMerged | AtRules | MediaQueries | ParseErrors.

(** [self.stats[c] += 1] *)
Definition bump (c : counter) (self : compiler) : compiler :=
  let s := stats self in
  with_stats
    match c with
    | RulesParsed => mkStats (rules_parsed s + 1) (selectors_split s) (properties_merged s)
                             (st_at_rules s) (st_media_queries s) (parse_errors s)
    | SelectorsSplit => mkStats (rules_parsed s) (selectors_split s + 1) (properties_merged s)
                             (st_at_rules s) (st_media_queries s) (parse_errors s)
    | PropertiesMerged => mkStats (rules_parsed s) (selectors_split s) (properties_merged s + 1)
                             (st_at_rules s) (st_media_queries s) (parse_errors s)
    | AtRules => mkStats (rules_parsed s) (selectors_split s) (properties_merged s)
                             (st_at_rules s + 1) (st_media_queries s) (parse_errors s)
    | MediaQueries => mkStats (rules_parsed s) (selectors_split s) (properties_merged s)
                             (st_at_rules s) (st_media_queries s + 1) (parse_errors s)
    | ParseErrors => mkStats (rules_parsed s) (selectors_split s) (properties_merged s)
                             (st_at_rules s) (st_media_queries s) (parse_errors s + 1)
    end self.

(* ================================================================== *)
(** * Processing the stylesheet *)
(* ================================================================== *)

(** [serialize_tokens]: the serializer's text without the empty comments it
    puts between tokens. *)
Definition serialize_tokens (serialized : string) : string :=
  replace serialized "/**/" "".

(** [serialize_node]: the serializer's text as it is. *)
Definition serialize_node (serialized : string) : string := serialized.

(** The value [parse_declaration_block] stores for a declaration. *)
Definition declaration_value (value : string) (important : bool) : string :=
  let v := strip (serialize_tokens value) in
  if important then v ++ " !important" else v.

(** [parse_declaration_block]: the properties of the block, and the
    compiler with its error counter updated. *)
Fixpoint parse_declarations (declarations : list declaration)
         (properties : OD.t string) (self : compiler) : OD.t string * compiler :=
  match declarations with
  | [] => (properties, self)
  | Declaration prop value important :: rest =>
      parse_declarations rest
        (OD.set prop (declaration_value value important) properties) self
  | DeclarationError :: rest =>
      parse_declarations rest properties (bump ParseErrors self)
  end.

Definition parse_declaration_block (tokens : list declaration) (self : compiler)
  : OD.t string * compiler :=
  parse_declarations tokens (OD.empty _) self.

(** The inner loop of [process_qualified_rule]:
    [for prop, value in properties.items(): target_dict[sel].add_property(...)]. *)
Fixpoint add_properties (properties : OD.t string) (sel : string)
         (target_dict : OD.t CSSRule.t) (self : compiler)
  : OD.t CSSRule.t * compiler :=
  match properties with
  | [] => (target_dict, self)
  | (prop, value) :: rest =>
      let target_dict :=
        match OD.get sel target_dict with
        | Some r => OD.set sel (CSSRule.add_property prop value r) target_dict
        | None => target_dict
        end in
      add_properties rest sel target_dict (bump PropertiesMerged self)
  end.

(** The loop [for sel in selectors] of [process_qualified_rule]. *)
Fixpoint store_selectors (selectors : list string) (properties : OD.t string)
         (target_dict : OD.t CSSRule.t) (self : compiler)
  : OD.t CSSRule.t * compiler :=
  match selectors with
  | [] => (target_dict, self)
  | sel :: rest =>
      let sel := strip sel in
      if is_empty sel then store_selectors rest properties target_dict self
      else
        let self := bump SelectorsSplit self in
        let target_dict :=
          if OD.mem sel target_dict then target_dict
          else OD.set sel (CSSRule.new sel) target_dict in
        let '(target_dict, self) := add_properties properties sel target_dict self in
        store_selectors rest properties target_dict self
  end.

(** [self.media_queries.setdefault(media_condition, OrderedDict()) if
    media_condition else self.rules]: the key of the media scope written to,
    or [None] for the top-level rules.  An empty condition is false in
    Python, as [None] is. *)
Definition target_scope (media_condition : option string) : option string :=
  match media_condition with
  | Some c => if is_empty c then None else Some c
  | None => None
  end.

Definition process_qualified_rule (self : compiler)
           (prelude : string) (content : list declaration)
           (media_condition : option string) : compiler :=
  let self := bump RulesParsed self in
  let selector := strip (serialize_tokens prelude) in
  if is_empty selector then self
  else
    let '(properties, self) := parse_declaration_block content self in
    match properties with
    | [] => self
    | _ =>
        let selectors := split_selectors selector in
        match target_scope media_condition with
        | Some condition =>
            let '(media, target_dict) :=
              OD.setdefault condition (OD.empty _) (media_queries self) in
            let '(target_dict, self) :=
              store_selectors selectors properties target_dict self in
            with_media_queries (OD.set condition target_dict media) self
        | None =>
            let '(target_dict, self) :=
              store_selectors selectors properties (rules self) self in
            with_rules target_dict self
        end
    end.

(** [next((ar for ar in self.at_rules if ar['keyword'] == 'keyframes' and
    ar['name'] == keyframe_name), None)], as the position of that entry. *)
Definition is_keyframe_named (keyframe_name : string) (ar : at_rule_entry) : bool :=
  String.eqb (keyword ar) "keyframes"
  && match name ar with Some n => String.eqb n keyframe_name | None => false end.

(** [existing_keyframe['content'] = keyframe_content] on the first entry
    found by the search above; [None] when there is none. *)
Fixpoint replace_keyframe (keyframe_name keyframe_content : string)
         (l : list at_rule_entry) : option (list at_rule_entry) :=
  match l with
  | [] => None
  | ar :: l' =>
      if is_keyframe_named keyframe_name ar
      then Some (mkEntry (keyword ar) (name ar) keyframe_content :: l')
      else option_map (cons ar) (replace_keyframe keyframe_name keyframe_content l')
  end.

Definition process_at_rule (self : compiler)
           (keyword prelude : string) (content : list node) (text : string)
  : compiler :=
  if String.eqb keyword "media" then
    let self := bump MediaQueries self in
    let media_condition := strip (serialize_tokens prelude) in
    fold_left
      (fun self rule =>
         match rule with
         | QualifiedRule p c => process_qualified_rule self p c (Some media_condition)
         | _ => self
         end)
      content self
  else if String.eqb keyword "keyframes" then
    let self := bump AtRules self in
    let keyframe_name := strip (serialize_tokens prelude) in
    let keyframe_content := serialize_node text in
    match replace_keyframe keyframe_name keyframe_content (at_rules self) with
    | Some replaced => with_at_rules replaced self
    | None =>
        with_at_rules
          (at_rules self ++ [mkEntry keyword (Some keyframe_name) keyframe_content])%list
          self
    end
  else
    let self := bump AtRules self in
    with_at_rules (at_rules self ++ [mkEntry keyword None (serialize_node text)])%list self.

Definition process_node (self : compiler) (n : node) : compiler :=
  match n with
  | QualifiedRule prelude content => process_qualified_rule self prelude content None
  | AtRule keyword prelude content text => process_at_rule self keyword prelude content text
  | ParseError _ _ => bump ParseErrors self
  end.

Definition process_stylesheet (self : compiler) (stylesheet : list node) : compiler :=
  fold_left process_node stylesheet self.

(* ================================================================== *)
(** * Sorting the selectors *)
(* ================================================================== *)

Definition dangerous_patterns : list string :=
  [":link"; ":visited"; ":hover"; ":focus"; ":active";
   ":first-child"; ":last-child"; ":nth-"].

Definition is_dangerous (selector : string) : bool :=
  existsb (fun pattern => contains selector pattern) dangerous_patterns.

(** [for k, v in d.items(): if p(k): new[k] = v], on a fresh [new]. *)
Definition select (V : Type) (p : string -> bool) (d : OD.t V) : OD.t V :=
  OD.of_items (filter (fun kv => p (fst kv)) d).

(** [key=lambda x: x[0].lower()] *)
Definition lower_key (V : Type) (item : string * V) : string := lower (fst item).

(** The safe-mode treatment of one scope: the dangerous rules first, in
    their order, then the others sorted. *)
Definition sort_safely (rules : OD.t CSSRule.t) : OD.t CSSRule.t :=
  let dangerous_rules := select is_dangerous rules in
  let safe_rules := select (fun k => negb (is_dangerous k)) rules in
  let sorted_safe := OD.of_items (sorted_by String.leb (@lower_key _) safe_rules) in
  OD.update (OD.update (OD.empty _) dangerous_rules) sorted_safe.

(** The other mode: everything sorted. *)
Definition sort_plainly (rules : OD.t CSSRule.t) : OD.t CSSRule.t :=
  OD.of_items (sorted_by String.leb (@lower_key _) rules).

(** [sort_rules].  The loop over the media conditions assigns a new value to
    each key in turn, which is a map over the items. *)
Definition sort_rules (self : compiler) : compiler :=
  let sort_scope := if safe_mode self then sort_safely else sort_plainly in
  with_media_queries
    (map (fun cr => (fst cr, sort_scope (snd cr))) (media_queries self))
    (with_rules (sort_scope (rules self)) self).

(* ================================================================== *)
(** * Writing the compiled stylesheet *)
(* ================================================================== *)

Module Output.

(** The capital letters E acute and E grave of the section titles. *)
Definition E_acute : string := chr (ascii_of_nat 201).
Definition E_grave : string := chr (ascii_of_nat 200).

Definition header : list string :=
  ["/* ================================================== */" ++ nl;
   "/* CSS COMPIL" ++ E_acute ++ " AVEC PARSEUR ROBUSTE */" ++ nl;
   "/* ================================================== */" ++ nl ++ nl].

(** ** The preserved at-rules *)

(** [re.match(r'@keyframes\s+(\S+)', content)], group 1. *)
Definition match_keyframes_name (content : string) : option string :=
  if startswith content "@keyframes" then
    let rest := drop 10 content in
    match rest with
    | EmptyString => None
    | String c _ =>
        if is_space c then
          let found := take_while (fun a => negb (is_space a)) (lstrip rest) in
          if is_empty found then None else Some found
        else None
    end
  else None.

(** The name by which a keyframes entry is deduplicated; empty when none
    is found. *)
Definition keyframe_key (at_rule : at_rule_entry) : string :=
  let name := match name at_rule with Some n => n | None => "" end in
  if is_empty name then
    match match_keyframes_name (content at_rule) with
    | Some found => found
    | None => name
    end
  else name.

(** [l[idx] = x]; [idx] was the length of the list when it was recorded
    and the list only grows, so it is always in range. *)
Fixpoint assign (A : Type) (idx : nat) (x : A) (l : list A) : list A :=
  match l, idx with
  | [], _ => []
  | _ :: l', O => x :: l'
  | y :: l', S i => y :: assign i x l'
  end.

Fixpoint deduplicate (at_rules : list at_rule_entry)
         (seen_keyframes : OD.t nat) (deduplicated_at_rules : list at_rule_entry)
  : list at_rule_entry :=
  match at_rules with
  | [] => deduplicated_at_rules
  | at_rule :: rest =>
      if String.eqb (keyword at_rule) "keyframes" then
        let name := keyframe_key at_rule in
        if negb (is_empty name) then
          match OD.get name seen_keyframes with
          | Some idx =>
              deduplicate rest seen_keyframes (assign idx at_rule deduplicated_at_rules)
          | None =>
              deduplicate rest
                (OD.set name (List.length deduplicated_at_rules) seen_keyframes)
                (deduplicated_at_rules ++ [at_rule])%list
          end
        else deduplicate rest seen_keyframes (deduplicated_at_rules ++ [at_rule])%list
      else deduplicate rest seen_keyframes (deduplicated_at_rules ++ [at_rule])%list
  end.

Definition deduplicated_at_rules (self : compiler) : list at_rule_entry :=
  deduplicate (at_rules self) (OD.empty _) [].

Definition write_at_rule (at_rule : at_rule_entry) : list string :=
  let content := replace (content at_rule) "/**/" "" in
  if ends_with_char content newline then [content] else [content; nl].

Definition at_rules_section (self : compiler) : list string :=
  match at_rules self with
  | [] => []
  | _ =>
      ("/* ===== AT-RULES PR" ++ E_acute ++ "SERV" ++ E_acute ++ "ES ===== */" ++ nl)
        :: app (flat_map write_at_rule (deduplicated_at_rules self)) [nl]
  end.

(** ** The top-level rules *)

Definition root_rules (self : compiler) : OD.t CSSRule.t :=
  select (fun k => startswith k ":root") (rules self).

Definition write_rule (rule : CSSRule.t) : string :=
  CSSRule.to_css CSSRule.default_indent rule ++ nl ++ nl.

Definition root_section (self : compiler) : list string :=
  match root_rules self with
  | [] => []
  | root => ("/* ===== VARIABLES CSS ===== */" ++ nl) :: map (fun kv => write_rule (snd kv)) root
  end.

Definition base_selectors : list string := ["*"; "html"; "body"].
Definition ordered_base : list string := ["*"; "html"; "body"].

Definition in_list (k : string) (l : list string) : bool :=
  existsb (String.eqb k) l.

Definition base_rules (self : compiler) : OD.t CSSRule.t :=
  select (fun k => in_list k base_selectors || startswith k "::") (rules self).

Definition base_section (self : compiler) : list string :=
  match base_rules self with
  | [] => []
  | base =>
      ("/* ===== RESET ET BASE ===== */" ++ nl)
        :: app
             (flat_map
                (fun selector =>
                   match OD.get selector base with
                   | Some rule => [write_rule rule]
                   | None => []
                   end)
                ordered_base)
             (flat_map
                (fun kv =>
                   if in_list (fst kv) ordered_base then [] else [write_rule (snd kv)])
                base)
  end.

Definition main_rules (self : compiler) : OD.t CSSRule.t :=
  select (fun k => negb (OD.mem k (root_rules self)) && negb (OD.mem k (base_rules self)))
         (rules self).

Inductive group := Headings | Elements | Classes | Ids | Pseudos.

Definition group_eqb (a b : group) : bool :=
  match a, b with
  | Headings, Headings | Elements, Elements | Classes, Classes
  | Ids, Ids | Pseudos, Pseudos => true
  | _, _ => false
  end.

Definition group_of (selector : string) : group :=
  if startswith selector "h1" || startswith selector "h2"
     || startswith selector "h3" || startswith selector "h4"
     || startswith selector "h5" || startswith selector "h6" then Headings
  else if startswith selector "." then Classes
  else if startswith selector "#" then Ids
  else if contains selector ":" then Pseudos
  else Elements.

Definition rules_group (g : group) (main : OD.t CSSRule.t) : OD.t CSSRule.t :=
  select (fun k => group_eqb (group_of k) g) main.

Definition write_main_rule (rule : CSSRule.t) : string :=
  replace (CSSRule.to_css CSSRule.default_indent rule) "/**/" "" ++ nl ++ nl.

Definition main_section (self : compiler) : list string :=
  match main_rules self with
  | [] => []
  | main =>
      ("/* ===== R" ++ E_grave ++ "GLES PRINCIPALES ===== */" ++ nl)
        :: flat_map
             (fun g => map (fun kv => write_main_rule (snd kv)) (rules_group g main))
             [Headings; Elements; Classes; Ids; Pseudos]
  end.

End Output.

Module Media.

(** The normalisation of a media condition before merging. *)
Definition normalize (condition : string) : string :=
  let normalized := join " " (split_ws condition) in
  let normalized := replace (replace normalized " :" ":") ": " ":" in
  let normalized := replace (replace normalized " (" "(") "( " "(" in
  replace (replace normalized " )" ")") ") " ")".

(** [for selector, rule in rules.items()]: merge the rules of one
    condition into the scope of its normalised form. *)
Definition merge_rules (rules scope : OD.t CSSRule.t) : OD.t CSSRule.t :=
  fold_left
    (fun scope sr =>
       match OD.get (fst sr) scope with
       | Some existing => OD.set (fst sr) (CSSRule.merge_with (snd sr) existing) scope
       | None => OD.set (fst sr) (snd sr) scope
       end)
    rules scope.

Definition merged_queries (self : compiler) : OD.t (OD.t CSSRule.t) :=
  fold_left
    (fun merged cr =>
       let normalized := normalize (fst cr) in
       let '(merged, scope) := OD.setdefault normalized (OD.empty _) merged in
       OD.set normalized (merge_rules (snd cr) scope) merged)
    (media_queries self) (OD.empty _).

(** [re.search(kw + r':\s*(\d+)', s)] tried at the start of [s]: the
    digits of group [(\d+)]. *)
Definition match_width_here (kw : string) (s : string) : option string :=
  if startswith s (kw ++ ":") then
    let digits := take_while is_digit (lstrip (drop (String.length kw + 1) s)) in
    if is_empty digits then None else Some digits
  else None.

(** [re.search(r'max-width:\s*(\d+)', condition)] *)
Fixpoint search_max_width (condition : string) : option string :=
  match match_width_here "max-width" condition with
  | Some digits => Some digits
  | None =>
      match condition with
      | EmptyString => None
      | String _ rest => search_max_width rest
      end
  end.

(** [re.search(r'(max-width|min-width):\s*(\d+)', condition)]: whether
    group 1 is 'max-width', and the digits of group 2. *)
Fixpoint search_width (condition : string) : option (bool * string) :=
  match match_width_here "max-width" condition with
  | Some digits => Some (true, digits)
  | None =>
      match match_width_here "min-width" condition with
      | Some digits => Some (false, digits)
      | None =>
          match condition with
          | EmptyString => None
          | String _ rest => search_width rest
          end
      end
  end.

(** The dictionaries the merged queries are distributed over. *)
Inductive bucket := Desktop | Tablet | Mobile | Print | Preference | Other.

Definition bucket_eqb (a b : bucket) : bool :=
  match a, b with
  | Desktop, Desktop | Tablet, Tablet | Mobile, Mobile
  | Print, Print | Preference, Preference | Other, Other => true
  | _, _ => false
  end.

Definition classify (condition : string) : bucket :=
  if contains condition "print" then Print
  else if contains condition "prefers-" then Preference
  else if contains condition "max-width" then
    match search_max_width condition with
    | Some digits =>
        let width := int_of_digits digits in
        if (width <=? 768)%Z then Mobile
        else if (width <=? 1024)%Z then Tablet
        else Other
    | None => Other
    end
  else if contains condition "min-width" && negb (contains condition "max-width")
  then Desktop
  else Other.

Definition queries_of (b : bucket) (merged : OD.t (OD.t CSSRule.t))
  : OD.t (OD.t CSSRule.t) :=
  select (fun condition => bucket_eqb (classify condition) b) merged.

(** The key by which the conditions of a section are sorted. *)
Definition sort_key (condition : string) : Z :=
  match search_width condition with
  | Some (is_max, digits) =>
      let width := int_of_digits digits in
      if is_max then (- width)%Z else width
  | None => 0%Z
  end.

(** [sorted_queries] after [sorted_queries.sort(key=lambda x: x[0])]. *)
Definition sorted_queries (queries : OD.t (OD.t CSSRule.t))
  : list (Z * string * OD.t CSSRule.t) :=
  sorted_by Z.leb (fun x => fst (fst x))
    (map (fun cr => (sort_key (fst cr), fst cr, snd cr)) queries).

(** The lines written for one rule inside a media block. *)
Definition write_media_rule (rule : CSSRule.t) : list string :=
  match CSSRule.properties rule with
  | [] => []
  | _ =>
      app
        (flat_map
           (fun line =>
              if is_empty (strip line) then []
              else ["    " ++ replace line "/**/" "" ++ nl])
           (split_lines (CSSRule.to_css "        " rule)))
        [nl]
  end.

(** One [@media] block; the source writes it out three times, for the
    sorted sections, the preferences and print. *)
Definition write_media_query (condition : string) (rules : OD.t CSSRule.t)
  : list string :=
  ("@media " ++ condition ++ " {" ++ nl)
    :: app (flat_map (fun sr => write_media_rule (snd sr)) rules) ["}" ++ nl ++ nl].

Definition section_title (name : string) : string :=
  nl ++ "/* " ++ name ++ " */" ++ nl.

(** A section of the media part: its title and its conditions in the
    order they are written. *)
Definition section := (string * list (string * OD.t CSSRule.t))%type.

Definition sorted_section (name : string) (queries : OD.t (OD.t CSSRule.t))
  : list section :=
  match queries with
  | [] => []
  | _ => [(name, map (fun x => (snd (fst x), snd x)) (sorted_queries queries))]
  end.

Definition plain_section (name : string) (queries : OD.t (OD.t CSSRule.t))
  : list section :=
  match queries with
  | [] => []
  | _ => [(name, queries)]
  end.

Definition preference_title : string :=
  "--- PR" ++ Output.E_acute ++ "F" ++ Output.E_acute ++ "RENCES UTILISATEUR ---".

(** The sections in the order they are written: desktop, mobile, others,
    then the user preferences and print. *)
Definition sections (self : compiler) : list section :=
  let merged := merged_queries self in
  (sorted_section "--- DESKTOP ---" (queries_of Desktop merged)
   ++ sorted_section "--- MOBILE ---" (queries_of Mobile merged)
   ++ sorted_section "--- AUTRES ---" (queries_of Other merged)
   ++ plain_section preference_title (queries_of Preference merged)
   ++ plain_section "--- PRINT ---" (queries_of Print merged))%list.

Definition write_section (s : section) : list string :=
  section_title (fst s)
    :: flat_map (fun cr => write_media_query (fst cr) (snd cr)) (snd s).

Definition media_section (self : compiler) : list string :=
  match media_queries self with
  | [] => []
  | _ =>
      ("/* ===== MEDIA QUERIES ===== */" ++ nl) :: flat_map write_section (sections self)
  end.

End Media.

(** [re.sub(r'\n{3,}', '\n\n', result)]; [run] is the number of line feeds
    read and not yet written. *)
Definition line_feeds (run : nat) : string :=
  match run with
  | 0 => ""
  | 1 => nl
  | _ => nl ++ nl
  end.

Fixpoint collapse_from (run : nat) (s : string) : string :=
  match s with
  | EmptyString => line_feeds run
  | String c s' =>
      if Ascii.eqb c newline then collapse_from (S run) s'
      else line_feeds run ++ String c (collapse_from 0 s')
  end.

Definition collapse_blank_lines (s : string) : string := collapse_from 0 s.

(** The list [output] before it is joined. *)
Definition output (self : compiler) : list string :=
  (Output.header
   ++ Output.at_rules_section self
   ++ Output.root_section self
   ++ Output.base_section self
   ++ Output.main_section self
   ++ Media.media_section self)%list.

Definition generate_output (self : compiler) : string :=
  let result := collapse_blank_lines (concat_all (output self)) in
  if ends_with_char result newline then result else result ++ nl.

(** [compile] between reading and writing the files: the nodes of the
    parsed stylesheet to the text written. *)
Definition compiled (self : compiler) (stylesheet : list node) : compiler :=
  let self := process_stylesheet self stylesheet in
  if alphabetical_order self then sort_rules self else self.

Definition compile (self : compiler) (stylesheet : list node) : string :=
  generate_output (compiled self stylesheet).

(* ================================================================== *)
(** * The loop of the splitter, character by character *)
(* ================================================================== *)

(** The loop of [split_selectors] read one character at a time.  [scan]
    holds what the locals of the loop keep between two characters (the
    depth, [in_string] and [string_char]); [read] is what one turn of the
    loop does to them, with the loop's own tests ([is_quote], [unescaped]);
    [marks] tells for every character whether the loop flushes there.  This
    is the program seen from its loop, not a reference. *)
Module Scanner.

Record scan := mkScan {
  depth : Z;
  in_string : bool;
  quote : option ascii
}.

Definition start : scan := mkScan 0 false None.

(** [in_string] and [string_char] after the head of the loop body at [c]: a
    quote that no backslash precedes opens a string, or closes the one it
    opened. *)
Definition toggle (prev : option ascii) (c : ascii) (k : scan) : scan :=
  if is_quote c && unescaped prev then
    if in_string k then
      (if same_quote (quote k) c then mkScan (depth k) false None else k)
    else mkScan (depth k) true (Some c)
  else k.

(** The depth after reading [c]; brackets inside a string do not count. *)
Definition nest (c : ascii) (k : scan) : scan :=
  if in_string k then k
  else if is_opener c then mkScan (depth k + 1) (in_string k) (quote k)
  else if is_closer c then mkScan (depth k - 1) (in_string k) (quote k)
  else k.

Definition read (prev : option ascii) (c : ascii) (k : scan) : scan :=
  nest c (toggle prev c k).

Definition split_point (c : ascii) (k : scan) : bool :=
  is_comma c && (depth k =? 0)%Z && negb (in_string k).

(** Every character with the mark of a split point. *)
Fixpoint marks (prev : option ascii) (k : scan) (s : string) : list (ascii * bool) :=
  match s with
  | EmptyString => []
  | String c s' => (c, split_point c k) :: marks (Some c) (read prev c k) s'
  end.

(** The text between the split points; [cur] is the piece being read. *)
Fixpoint pieces (cur : string) (marked : list (ascii * bool)) : list string :=
  match marked with
  | [] => [cur]
  | (_, true) :: rest => cur :: pieces EmptyString rest
  | (c, false) :: rest => pieces (cur ++ chr c) rest
  end.

(** The pieces that remain: trimmed and not empty. *)
Definition kept (ps : list string) : list string :=
  filter (fun p => negb (is_empty p)) (map strip ps).

Definition split (s : string) : list string :=
  kept (pieces EmptyString (marks None start s)).

(** The scanner state held in the locals of the loop of the source. *)
Definition scan_of (l : Splitter.locals) : scan :=
  mkScan (Splitter.depth l) (Splitter.in_string l) (Splitter.quote_char l).

End Scanner.

(* ================================================================== *)
(** * Reference definitions *)
(* ================================================================== *)

(** The selector splitter as the specification words it.  The text is read
    character by character with a nesting depth and a string literal.  A
    quotation mark, double or single, that is not escaped opens a literal,
    and the next such mark of the same kind closes it; a character is
    escaped when the backslash before it is not escaped itself.  Outside a
    literal an opening bracket of any kind adds one to the depth and a
    closing bracket of any kind takes one off.  A comma read at depth 0
    outside a literal is a split point; the text between split points is
    trimmed and the empty pieces are dropped. *)
Module SplitSpec.

Record scan := mkScan {
  depth : Z;
  (* the mark that opened the literal being read *)
  literal : option ascii;
  (* the character to read is escaped *)
  escaped : bool
}.

Definition start : scan := mkScan 0 None false.

Definition quotation_mark (c : ascii) : bool :=
  Ascii.eqb c dquote || Ascii.eqb c squote.

Definition opening (c : ascii) : bool :=
  Ascii.eqb c "("%char || Ascii.eqb c "["%char || Ascii.eqb c "{"%char.

Definition closing (c : ascii) : bool :=
  Ascii.eqb c ")"%char || Ascii.eqb c "]"%char || Ascii.eqb c "}"%char.

Definition comma (c : ascii) : bool := Ascii.eqb c ","%char.

(** The literal being read after [c]. *)
Definition literal_after (c : ascii) (k : scan) : option ascii :=
  if quotation_mark c && negb (escaped k) then
    match literal k with
    | None => Some c
    | Some q => if Ascii.eqb q c then None else Some q
    end
  else literal k.

(** The depth after [c]; brackets inside a literal do not count. *)
Definition depth_after (c : ascii) (lit : option ascii) (d : Z) : Z :=
  match lit with
  | Some _ => d
  | None => if opening c then d + 1 else if closing c then d - 1 else d
  end.

Definition read (c : ascii) (k : scan) : scan :=
  let lit := literal_after c k in
  mkScan (depth_after c lit (depth k)) lit
         (Ascii.eqb c backslash && negb (escaped k)).

Definition split_point (c : ascii) (k : scan) : bool :=
  comma c && (depth k =? 0)%Z
  && match literal k with None => true | Some _ => false end.

(** Every character with the mark of a split point. *)
Fixpoint marks (k : scan) (s : string) : list (ascii * bool) :=
  match s with
  | EmptyString => []
  | String c s' => (c, split_point c k) :: marks (read c k) s'
  end.

(** The text between the split points; [cur] is the piece being read. *)
Fixpoint pieces (cur : string) (marked : list (ascii * bool)) : list string :=
  match marked with
  | [] => [cur]
  | (_, true) :: rest => cur :: pieces EmptyString rest
  | (c, false) :: rest => pieces (cur ++ chr c) rest
  end.

(** The pieces that remain: trimmed and not empty. *)
Definition kept (ps : list string) : list string :=
  filter (fun p => negb (is_empty p)) (map strip ps).

Definition split (s : string) : list string :=
  kept (pieces EmptyString (marks start s)).

(** No quotation mark of [s] stands right after an escaped backslash.
    [after_backslash]: a backslash stands before the character to read;
    [escaped]: the character to read is escaped. *)
Fixpoint plain_marks_from (after_backslash escaped : bool) (s : string) : bool :=
  match s with
  | EmptyString => true
  | String c s' =>
      negb (quotation_mark c && after_backslash && negb escaped)
      && plain_marks_from (Ascii.eqb c backslash)
                          (Ascii.eqb c backslash && negb escaped) s'
  end.

Definition no_mark_after_escaped_backslash (s : string) : bool :=
  plain_marks_from false false s.

(** An attribute selector whose literal holds an escaped quotation mark
    and a comma after it, then a second selector. *)
Definition escaped_mark : string :=
  "a[t=" ++ chr dquote ++ "x" ++ chr backslash ++ chr dquote ++ ",y"
         ++ chr dquote ++ "], b".

(** An identifier that ends with an escaped backslash (two backslashes),
    and right after it a literal that holds a comma. *)
Definition literal_after_backslash : string :=
  "a" ++ chr backslash ++ chr backslash ++ chr dquote ++ ", b" ++ chr dquote.

End SplitSpec.

(** The final text as the specification words it. *)
Module TextSpec.

(** Three line feeds in a row somewhere in [s]. *)
Definition has_blank_run (s : string) : bool := contains s (nl ++ nl ++ nl).

(** The last character of [s], and the one before it. *)
Fixpoint last_two (s : string) : option ascii * option ascii :=
  match s with
  | EmptyString => (None, None)
  | String c EmptyString => (None, Some c)
  | String c (String d EmptyString) => (Some c, Some d)
  | String _ s' => last_two s'
  end.

(** [s] ends with a line feed that no other line feed precedes. *)
Definition ends_with_one_newline (s : string) : bool :=
  match last_two s with
  | (Some c, Some d) => negb (Ascii.eqb c newline) && Ascii.eqb d newline
  | (None, Some d) => Ascii.eqb d newline
  | _ => false
  end.

End TextSpec.

(** The media part as the specification looks at it. *)
Module MediaSpec.

(** The titles of the sections written, each with its conditions in the
    order they are written. *)
Definition section_conditions (self : compiler) : list (string * list string) :=
  map (fun s => (fst s, map fst (snd s))) (Media.sections self).

(** The conditions of one sorted section in the order they are written. *)
Definition written_order (queries : OD.t (OD.t CSSRule.t)) : list string :=
  map (fun x => snd (fst x)) (Media.sorted_queries queries).

(** [x] stands somewhere before [y] in [l]. *)
Definition before (A : Type) (x y : A) (l : list A) : Prop :=
  exists l1 l2 l3, l = (l1 ++ x :: l2 ++ y :: l3)%list.

(** The width the sort key is made of: whether it is a max-width, and
    its value; [None] when no width is found. *)
Definition extracted_width (condition : string) : option (bool * Z) :=
  match Media.search_width condition with
  | Some (is_max, digits) => Some (is_max, int_of_digits digits)
  | None => None
  end.

(** The max-width the classification reads. *)
Definition extracted_max_width (condition : string) : option Z :=
  option_map int_of_digits (Media.search_max_width condition).

(** A [@media] block with the given condition around one rule. *)
Definition media_block (condition : string) : node :=
  AtRule "media" (" " ++ condition ++ " ")
         [QualifiedRule "a " [Declaration "color" " red" false]]
         ("@media " ++ condition ++ " {a {color: red}}").

(** The scenario of the specification: five media blocks. *)
Definition five_conditions : list string :=
  ["(min-width: 1200px)"; "(max-width: 480px)"; "print";
   "(prefers-color-scheme: dark)"; "(max-width: 900px)"].

Definition five_media_blocks : list node := map media_block five_conditions.

(** The order the specification expects for that scenario. *)
Definition expected_order : list (string * list string) :=
  [("--- DESKTOP ---", ["(min-width:1200px)"]);
   ("--- MOBILE ---", ["(max-width:480px)"; "(max-width:900px)"]);
   (Media.preference_title, ["(prefers-color-scheme:dark)"]);
   ("--- PRINT ---", ["print"])].

(** The order the program writes. *)
Definition written_sections : list (string * list string) :=
  [("--- DESKTOP ---", ["(min-width:1200px)"]);
   ("--- MOBILE ---", ["(max-width:480px)"]);
   (Media.preference_title, ["(prefers-color-scheme:dark)"]);
   ("--- PRINT ---", ["print"])].

(** The sections whose conditions are sorted, each with the group of
    merged queries it writes. *)
Definition sorted_groups : list (string * Media.bucket) :=
  [("--- DESKTOP ---", Media.Desktop);
   ("--- MOBILE ---", Media.Mobile);
   ("--- AUTRES ---", Media.Other)].

(** The two sections that follow them. *)
Definition plain_groups : list (string * Media.bucket) :=
  [(Media.preference_title, Media.Preference);
   ("--- PRINT ---", Media.Print)].

(** The conditions written under a title, in the order they are written. *)
Definition conditions_written (self : compiler) (title : string) : list string :=
  flat_map (fun s => if String.eqb (fst s) title then snd s else [])
           (section_conditions self).

(** The conditions of a group in the order the merged queries have. *)
Definition group_conditions (self : compiler) (b : Media.bucket) : list string :=
  OD.keys (Media.queries_of b (Media.merged_queries self)).

(** Two media blocks of the group of the others. *)
Definition two_others : list node :=
  [media_block "screen"; media_block "(max-width: 1200px)"].

End MediaSpec.

(** The store without the counters: what [process_qualified_rule] writes
    to the dictionary it targets. *)
Module Store.

(** The properties [parse_declaration_block] returns. *)
Definition block_properties_from (declarations : list declaration)
           (properties : OD.t string) : OD.t string :=
  fold_left
    (fun properties d =>
       match d with
       | Declaration prop value important =>
           OD.set prop (declaration_value value important) properties
       | DeclarationError => properties
       end)
    declarations properties.

Definition block_properties (declarations : list declaration) : OD.t string :=
  block_properties_from declarations (OD.empty _).

(** All properties of a block set on one rule. *)
Definition set_properties (properties : OD.t string) (r : CSSRule.t) : CSSRule.t :=
  fold_left (fun r pv => CSSRule.add_property (fst pv) (snd pv) r) properties r.

(** The rule of one (trimmed, non-empty) selector created or fetched, and
    the properties set on it. *)
Definition store_one (properties : OD.t string) (sel : string)
           (target_dict : OD.t CSSRule.t) : OD.t CSSRule.t :=
  let r := match OD.get sel target_dict with
           | Some r => r
           | None => CSSRule.new sel
           end in
  OD.set sel (set_properties properties r) target_dict.

Definition store_rules (selectors : list string) (properties : OD.t string)
           (target_dict : OD.t CSSRule.t) : OD.t CSSRule.t :=
  fold_left
    (fun target_dict sel =>
       let sel := strip sel in
       if is_empty sel then target_dict else store_one properties sel target_dict)
    selectors target_dict.

(** The store after [process_qualified_rule]. *)
Definition stored_after (self : compiler) (prelude : string)
           (content : list declaration) (media_condition : option string)
  : OD.t CSSRule.t * OD.t (OD.t CSSRule.t) :=
  let selector := strip (serialize_tokens prelude) in
  let props := block_properties content in
  if is_empty selector then (rules self, media_queries self)
  else
    match props with
    | [] => (rules self, media_queries self)
    | _ =>
        let selectors := split_selectors selector in
        match target_scope media_condition with
        | Some c =>
            let t := match OD.get c (media_queries self) with
                     | Some t => t
                     | None => OD.empty _
                     end in
            (rules self,
             OD.set c (store_rules selectors props t) (media_queries self))
        | None => (store_rules selectors props (rules self), media_queries self)
        end
    end.

(** Two compilers that differ in their counters at most. *)
Definition same_but_stats (a b : compiler) : Prop :=
  alphabetical_order a = alphabetical_order b
  /\ safe_mode a = safe_mode b
  /\ rules a = rules b
  /\ at_rules a = at_rules b
  /\ media_queries a = media_queries b.

(** The keys of every dictionary of rules are distinct. *)
Definition well_formed (self : compiler) : Prop :=
  NoDup (OD.keys (rules self))
  /\ Forall (fun cr => NoDup (OD.keys (snd cr))) (media_queries self).

End Store.

(** The order of the selectors as the specification words it. *)
Module SortSpec.

(** Case-insensitive order of two selectors. *)
Definition lower_le (a b : string) : Prop := String.leb (lower a) (lower b) = true.

(** [k] contains one of the pseudo-classes that must not be moved. *)
Definition dangerous (k : string) : Prop :=
  exists pattern,
    In pattern [":link"; ":visited"; ":hover"; ":focus"; ":active";
                ":first-child"; ":last-child"; ":nth-"]
    /\ contains k pattern = true.

(** What the sort may do to one scope: the same rules afterwards, the
    dangerous selectors in the order they had, the others in
    case-insensitive order among themselves. *)
Definition ordered (before after : OD.t CSSRule.t) : Prop :=
  Permutation after before
  /\ filter is_dangerous (OD.keys after) = filter is_dangerous (OD.keys before)
  /\ StronglySorted lower_le
       (filter (fun k => negb (is_dangerous k)) (OD.keys after)).

End SortSpec.

(** The last item of [l] with key [k]. *)
Fixpoint last_of (V : Type) (k : string) (l : list (string * V)) : option V :=
  match l with
  | [] => None
  | (k', v) :: l' =>
      match last_of k l' with
      | Some v' => Some v'
      | None => if String.eqb k' k then Some v else None
      end
  end.

(** The at-rule collector as the specification looks at it. *)
Module KeyframesSpec.

(** The name under which a keyframes at-rule is recorded. *)
Definition keyframe_name (prelude : string) : string :=
  strip (serialize_tokens prelude).

(** The keyframes at-rules at the top level of a stylesheet, in order:
    their names and their texts. *)
Definition keyframes (stylesheet : list node) : list (string * string) :=
  flat_map
    (fun n =>
       match n with
       | AtRule kw p _ t =>
           if String.eqb kw "keyframes" then [(keyframe_name p, t)] else []
       | _ => []
       end)
    stylesheet.

(** The content of the last keyframes at-rule with the given name. *)
Definition last_content (name : string) (stylesheet : list node) : option string :=
  last_of name (keyframes stylesheet).

(** No keyframes at-rule without a name has a text from which the
    fallback pattern of [generate_output] recovers the name of a keyframes
    at-rule of the stylesheet. *)
Definition fallback_is_fresh (stylesheet : list node) : bool :=
  forallb
    (fun nt =>
       if is_empty (fst nt) then
         match Output.match_keyframes_name (snd nt) with
         | Some k => negb (existsb (String.eqb k) (map fst (keyframes stylesheet)))
         | None => true
         end
       else true)
    (keyframes stylesheet).

(** [self.at_rules] after one more node, from [self.at_rules] before. *)
Definition recorded (entries : list at_rule_entry) (n : node) : list at_rule_entry :=
  match n with
  | AtRule kw p _ t =>
      if String.eqb kw "media" then entries
      else if String.eqb kw "keyframes" then
        match replace_keyframe (keyframe_name p) t entries with
        | Some replaced => replaced
        | None => (entries ++ [mkEntry kw (Some (keyframe_name p)) t])%list
        end
      else (entries ++ [mkEntry kw None t])%list
  | _ => entries
  end.

(** The keys by which [generate_output] deduplicates a list of entries. *)
Definition dedup_keys (entries : list at_rule_entry) : list string :=
  flat_map
    (fun e =>
       if String.eqb (keyword e) "keyframes" && negb (is_empty (Output.keyframe_key e))
       then [Output.keyframe_key e] else [])
    entries.

(** The names of the keyframes entries. *)
Definition entry_names (entries : list at_rule_entry) : list (option string) :=
  flat_map
    (fun e => if String.eqb (keyword e) "keyframes" then [name e] else [])
    entries.

(** The entries hold one entry named [n], at position [pos], with content
    [c], and no other entry of that name. *)
Definition single_entry (n : string) (pos : nat) (c : string)
           (entries : list at_rule_entry) : Prop :=
  exists front back e,
    entries = (front ++ e :: back)%list
    /\ List.length front = pos
    /\ Forall (fun e => is_keyframe_named n e = false) front
    /\ Forall (fun e => is_keyframe_named n e = false) back
    /\ keyword e = "keyframes" /\ name e = Some n /\ content e = c.

(** Every keyframes entry carries the name and the text of a keyframes
    at-rule among [known]. *)
Definition from_known (known : list (string * string))
           (entries : list at_rule_entry) : Prop :=
  Forall
    (fun e => keyword e = "keyframes" ->
              exists n, name e = Some n /\ In (n, content e) known)
    entries.

(** Two keyframes at-rules [a] inside a media block. *)
Definition nested_keyframes : list node :=
  [AtRule "media" " print "
     [AtRule "keyframes" " a " [] "@keyframes a { from { top: 0 } }";
      AtRule "keyframes" " a " [] "@keyframes a { from { top: 1 } }"]
     "@media print { @keyframes a { from { top: 0 } } @keyframes a { from { top: 1 } } }"].

(** Two keyframes at-rules [a] at the top level, an import in between. *)
Definition repeated_keyframes : list node :=
  [AtRule "import" " 'x.css'" [] "@import 'x.css';";
   AtRule "keyframes" " a " [] "@keyframes a { from { top: 0 } }";
   AtRule "font-face" " " [] "@font-face { font-family: f }";
   AtRule "keyframes" " a " [] "@keyframes a { from { top: 1 } }"].

End KeyframesSpec.

(** The rule store as the specification looks at it. *)
Module StoreSpec.

Inductive scope :=
| TopLevel
| MediaScope (condition : string).




(** The condition of a media block: the text of its prelude without the
    white space around it. *)
Definition media_condition (prelude : string) : string := strip prelude.









(** What a later block does to the value found before. *)
Definition overridden (name : string) (later : list (string * string))
           (earlier : option string) : option string :=
  match last_of name later with
  | Some v => Some (strip v)
  | None => earlier
  end.

(** The value the stored Rule of [(sel, sc)] gives to a property. *)
Definition property_of (name : string) (r : option CSSRule.t) : option string :=
  match r with
  | Some r => OD.get name (CSSRule.properties r)
  | None => None
  end.













End StoreSpec.

(** The scanner of the splitter run over a whole text. *)
Module ScanSpec.

(** The scanner state after the text [s]. *)
Fixpoint state_after (prev : option ascii) (k : Scanner.scan) (s : string)
  : Scanner.scan :=
  match s with
  | EmptyString => k
  | String c s' => state_after (Some c) (Scanner.read prev c k) s'
  end.

(** The last character read. *)
Fixpoint last_char (prev : option ascii) (s : string) : option ascii :=
  match s with
  | EmptyString => prev
  | String c s' => last_char (Some c) s'
  end.

(** The characters of [s], none of them a split point. *)
Fixpoint unmarked (s : string) : list (ascii * bool) :=
  match s with
  | EmptyString => []
  | String c s' => (c, false) :: unmarked s'
  end.

(** Outside a string no quote character is remembered. *)
Definition settled (k : Scanner.scan) : Prop :=
  Scanner.in_string k = false -> Scanner.quote k = None.

(** All characters of [s] are white space. *)
Fixpoint blank (s : string) : bool :=
  match s with
  | EmptyString => true
  | String c s' => is_space c && blank s'
  end.

End ScanSpec.

(** What the store holds at any time. *)
Module StoreShape.

(** A property as stored: name and value carry no white space at their
    ends. *)
Definition sound_property (pv : string * string) : Prop :=
  strip (fst pv) = fst pv /\ strip (snd pv) = snd pv.

(** A rule as stored under its selector: the selector is the key, it is not
    empty and carries no white space at its ends; the rule has at least one
    property, and no property twice. *)
Definition sound_rule (kr : string * CSSRule.t) : Prop :=
  CSSRule.selector (snd kr) = fst kr
  /\ is_empty (fst kr) = false
  /\ strip (fst kr) = fst kr
  /\ CSSRule.properties (snd kr) <> []
  /\ NoDup (OD.keys (CSSRule.properties (snd kr)))
  /\ Forall sound_property (CSSRule.properties (snd kr)).

Definition sound_scope (d : OD.t CSSRule.t) : Prop :=
  NoDup (OD.keys d) /\ Forall sound_rule d.

(** A media scope as stored under its condition. *)
Definition sound_media (cr : string * OD.t CSSRule.t) : Prop :=
  is_empty (fst cr) = false /\ strip (fst cr) = fst cr /\ sound_scope (snd cr).

Definition sound_store (self : compiler) : Prop :=
  sound_scope (rules self)
  /\ NoDup (OD.keys (media_queries self))
  /\ Forall sound_media (media_queries self).

End StoreShape.

(** Two rules to merge. *)
Module MergeSpec.

Definition base_rule : CSSRule.t :=
  CSSRule.mk "a" [("color", "red"); ("margin", "0")] 0.

Definition other_rule : CSSRule.t :=
  CSSRule.mk "a" [("padding", "1px"); ("color", "blue")] 0.

End MergeSpec.

(** The order of the selectors when the sort is not in safe mode. *)
Module PlainSortSpec.

(** The same rules afterwards, all selectors in case-insensitive order,
    selectors that differ in case only in the order they had. *)
Definition ordered (before after : OD.t CSSRule.t) : Prop :=
  Permutation after before
  /\ StronglySorted SortSpec.lower_le (OD.keys after)
  /\ forall k,
      filter (fun sel => String.eqb (lower sel) k) (OD.keys after)
      = filter (fun sel => String.eqb (lower sel) k) (OD.keys before).

End PlainSortSpec.

(** The top-level rules in the order they are written. *)
Module LayoutSpec.

(** The base rules: first those of the fixed list, in its order, then the
    others. *)
Definition base_written (base : OD.t CSSRule.t) : list (string * CSSRule.t) :=
  (flat_map
     (fun selector =>
        match OD.get selector base with
        | Some rule => [(selector, rule)]
        | None => []
        end)
     Output.ordered_base
   ++ filter (fun kv => negb (Output.in_list (fst kv) Output.ordered_base)) base)%list.

Definition main_groups : list Output.group :=
  [Output.Headings; Output.Elements; Output.Classes; Output.Ids; Output.Pseudos].

(** The main rules, group after group. *)
Definition main_written (main : OD.t CSSRule.t) : list (string * CSSRule.t) :=
  flat_map (fun g => Output.rules_group g main) main_groups.

Definition top_level_written (self : compiler) : list (string * CSSRule.t) :=
  (Output.root_rules self
   ++ base_written (Output.base_rules self)
   ++ main_written (Output.main_rules self))%list.

(** The text of a section: nothing without rules, else its title and the
    text of each rule. *)
Definition section_text (title : string) (write : CSSRule.t -> string)
           (group written : list (string * CSSRule.t)) : list string :=
  match group with
  | [] => []
  | _ => (title ++ nl) :: map (fun kv => write (snd kv)) written
  end.

End LayoutSpec.

(** The merged media queries as the output looks at them. *)
Module MergedSpec.

(** The distinct items of a list in the order they first occur, after
    those of [seen]. *)
Fixpoint first_occurrences_from (seen l : list string) : list string :=
  match l with
  | [] => seen
  | x :: l' =>
      first_occurrences_from
        (if Output.in_list x seen then seen else seen ++ [x])%list l'
  end.

Definition first_occurrences (l : list string) : list string :=
  first_occurrences_from [] l.

(** The rules merged under a normalised condition. *)
Definition merged_scope (merged : OD.t (OD.t CSSRule.t)) (n : string) : OD.t CSSRule.t :=
  match OD.get n merged with
  | Some d => d
  | None => OD.empty _
  end.

(** One turn of the merging loop. *)
Definition merge_step (merged : OD.t (OD.t CSSRule.t)) (cr : string * OD.t CSSRule.t)
  : OD.t (OD.t CSSRule.t) :=
  let normalized := Media.normalize (fst cr) in
  OD.set normalized (Media.merge_rules (snd cr) (merged_scope merged normalized)) merged.

(** The value a property has after the merge, under a normalised condition
    and a selector. *)
Definition merged_property (self : compiler) (n sel k : string) : option string :=
  StoreSpec.property_of k (OD.get sel (merged_scope (Media.merged_queries self) n)).

(** The value of the last media scope of the store, in its order, that
    normalises to [n] and gives the property a value. *)
Definition last_stored_from (n sel k : string) (queries : OD.t (OD.t CSSRule.t))
           (found : option string) : option string :=
  fold_left
    (fun found cr =>
       if String.eqb (Media.normalize (fst cr)) n then
         match StoreSpec.property_of k (OD.get sel (snd cr)) with
         | Some v => Some v
         | None => found
         end
       else found)
    queries found.

Definition last_stored (self : compiler) (n sel k : string) : option string :=
  last_stored_from n sel k (media_queries self) None.

(** All media queries written, section after section. *)
Definition written_queries (self : compiler) : list (string * OD.t CSSRule.t) :=
  flat_map snd (Media.sections self).

Definition is_tablet (condition : string) : bool :=
  Media.bucket_eqb (Media.classify condition) Media.Tablet.

End MergedSpec.

(** The text without its line feeds. *)
Module CleanSpec.

Fixpoint without_newlines (s : string) : string :=
  match s with
  | EmptyString => EmptyString
  | String c s' =>
      if Ascii.eqb c newline then without_newlines s'
      else String c (without_newlines s')
  end.

(** A text with blank lines to clean, and one without. *)
Definition spaced_text : string := "a {" ++ nl ++ "}" ++ nl ++ nl ++ "b {" ++ nl ++ "}" ++ nl.

End CleanSpec.

(** The at-rules kept as the collector and the output see them. *)
Module CollectorSpec.

Definition is_keyframes (e : at_rule_entry) : bool :=
  String.eqb (keyword e) "keyframes".

(** The entries made for the at-rules at the top level of a stylesheet
    that are neither [@media] nor [@keyframes], in source order. *)
Definition other_at_rules (stylesheet : list node) : list at_rule_entry :=
  flat_map
    (fun n =>
       match n with
       | AtRule kw p _ t =>
           if String.eqb kw "media" then []
           else if String.eqb kw "keyframes" then []
           else [mkEntry kw None t]
       | _ => []
       end)
    stylesheet.

(** Every index remembered in [seen_keyframes] is the place of a keyframes
    entry. *)
Definition seen_keyframes_ok (seen : OD.t nat) (acc : list at_rule_entry) : Prop :=
  forall k idx,
    OD.get k seen = Some idx ->
    exists e, nth_error acc idx = Some e /\ is_keyframes e = true.

(** An import written twice, around a keyframes at-rule. *)
Definition repeated_import : list node :=
  [AtRule "import" " 'x.css'" [] "@import 'x.css';";
   AtRule "keyframes" " a " [] "@keyframes a { from { top: 0 } }";
   AtRule "import" " 'x.css'" [] "@import 'x.css';"].

End CollectorSpec.

(** The counters as they can be read off the stylesheet. *)
Module StatsSpec.

Definition add_stats (a b : statistics) : statistics :=
  mkStats (rules_parsed a + rules_parsed b)
          (selectors_split a + selectors_split b)
          (properties_merged a + properties_merged b)
          (st_at_rules a + st_at_rules b)
          (st_media_queries a + st_media_queries b)
          (parse_errors a + parse_errors b).

(** The errors among the items of a declaration block. *)
Definition count_errors (content : list declaration) : Z :=
  Z.of_nat
    (List.length
       (filter (fun d => match d with DeclarationError => true | _ => false end)
               content)).

(** What one qualified rule adds to the counters: it is counted as parsed;
    with a selector, its errors are counted; with properties too, each of
    its selectors is counted, and each property once for each selector. *)
Definition rule_counts (prelude : string) (content : list declaration) : statistics :=
  let selector := strip (serialize_tokens prelude) in
  if is_empty selector then mkStats 1 0 0 0 0 0
  else
    let errors := count_errors content in
    match Store.block_properties content with
    | [] => mkStats 1 0 0 0 0 errors
    | properties =>
        let n := Z.of_nat (List.length (Scanner.kept (split_selectors selector))) in
        mkStats 1 n (n * Z.of_nat (List.length properties)) 0 0 errors
    end.

(** What the qualified rules among the children of a media block add. *)
Definition children_counts (children : list node) : statistics :=
  fold_right
    (fun child acc =>
       match child with
       | QualifiedRule p c => add_stats (rule_counts p c) acc
       | _ => acc
       end)
    zero_stats children.

Definition node_counts (n : node) : statistics :=
  match n with
  | QualifiedRule p c => rule_counts p c
  | AtRule kw _ children _ =>
      if String.eqb kw "media"
      then add_stats (mkStats 0 0 0 0 1 0) (children_counts children)
      else mkStats 0 0 0 1 0 0
  | ParseError _ _ => mkStats 0 0 0 0 0 1
  end.

Definition stylesheet_counts (stylesheet : list node) : statistics :=
  fold_right (fun n acc => add_stats (node_counts n) acc) zero_stats stylesheet.

End StatsSpec.

(** The flags and the store. *)
Module FlagSpec.

(** Two compilers hold the same store, whatever their flags and counters. *)
Definition same_store (a b : compiler) : Prop :=
  rules a = rules b
  /\ at_rules a = at_rules b
  /\ media_queries a = media_queries b.

(** No selector of any scope contains one of the dangerous patterns. *)
Definition harmless (self : compiler) : Prop :=
  Forall (fun k => is_dangerous k = false) (OD.keys (rules self))
  /\ Forall (fun cr => Forall (fun k => is_dangerous k = false) (OD.keys (snd cr)))
            (media_queries self).

(** A stylesheet with two plain rules, one of them in a media block. *)
Definition plain_sheet : list node :=
  [QualifiedRule "b" [Declaration "color" "red" false];
   AtRule "media" "print" [QualifiedRule "a" [Declaration "color" "blue" false]] "";
   QualifiedRule "A" [Declaration "margin" "0" false]].

End FlagSpec.

(** The children of a media block that are processed. *)
Module NestedSpec.

Definition is_qualified_rule (n : node) : bool :=
  match n with
  | QualifiedRule _ _ => true
  | _ => false
  end.

(** The qualified rules among the children, in their order. *)
Definition qualified_rules (children : list node) : list node :=
  filter is_qualified_rule children.

End NestedSpec.

(* ================================================================== *)
(** * Properties of the selector splitter *)
(* ================================================================== *)

Section SplitterProofs.

Lemma kept_cons p ps : Scanner.kept (p :: ps) = (Scanner.kept [p] ++ Scanner.kept ps)%list.
Proof. unfold Scanner.kept; simpl. now destruct (is_empty (strip p)). Qed.

Lemma strip_empty : strip "" = "".
Proof. reflexivity. Qed.

Lemma flush_result (l : Splitter.locals) :
  Splitter.result (flush l) = (Splitter.result l ++ Scanner.kept [Splitter.current l])%list.
Proof.
  unfold flush, Scanner.kept. destruct (Splitter.current l) as [|c s] eqn:E; simpl.
  - now rewrite app_nil_r.
  - destruct (is_empty (strip (String c s))); simpl;
      [now rewrite app_nil_r | reflexivity].
Qed.

Lemma flush_current (l : Splitter.locals) : Splitter.current (flush l) = "".
Proof.
  unfold flush. destruct (Splitter.current l) eqn:E; simpl; auto.
Qed.

Lemma flush_scan (l : Splitter.locals) : Scanner.scan_of (flush l) = Scanner.scan_of l.
Proof.
  unfold flush. destruct (is_empty (Splitter.current l)); reflexivity.
Qed.

(** One turn of the loop against one marked character. *)
Lemma step_marked prev c l :
  let k := Scanner.scan_of l in
  Scanner.scan_of (step prev c l) = Scanner.read prev c k /\
  if Scanner.split_point c k
  then step prev c l = flush l
  else Splitter.result (step prev c l) = Splitter.result l /\
       Splitter.current (step prev c l) = Splitter.current l ++ chr c.
Proof.
  destruct l as [res cur d ins q].
  unfold step, track_string, Scanner.read, Scanner.toggle, Scanner.nest,
    Scanner.split_point, Scanner.scan_of, push, set_depth; simpl.
  destruct (is_quote c) eqn:Q; simpl.
  - assert (is_opener c = false /\ is_closer c = false /\ is_comma c = false)
      as (O & C & M).
    { unfold is_quote in Q. apply orb_true_iff in Q.
      destruct Q as [Q|Q]; apply Ascii.eqb_eq in Q; subst c; repeat split. }
    rewrite O, C, M; simpl.
    destruct (unescaped prev); simpl.
    + destruct ins; simpl.
      * destruct (same_quote q c); simpl; auto.
      * auto.
    + destruct ins; simpl; auto.
  - destruct ins; simpl.
    + rewrite andb_false_r. auto.
    + rewrite andb_true_r.
      destruct (is_opener c) eqn:O; simpl.
      * assert (is_comma c = false) as ->.
        { unfold is_opener in O. simpl in O.
          destruct (Ascii.eqb_spec c ","%char); [subst c; discriminate O|].
          unfold is_comma. now apply Ascii.eqb_neq. }
        simpl; auto.
      * destruct (is_closer c) eqn:C; simpl.
        -- assert (is_comma c = false) as ->.
           { unfold is_closer in C. simpl in C.
             destruct (Ascii.eqb_spec c ","%char); [subst c; discriminate C|].
             unfold is_comma. now apply Ascii.eqb_neq. }
           simpl; auto.
        -- destruct (is_comma c && (d =? 0)%Z) eqn:S; simpl; auto.
           unfold flush; simpl. destruct cur; simpl; auto.
Qed.

Lemma loop_pieces s : forall prev l,
  Splitter.result (flush (loop prev s l))
  = (Splitter.result l
     ++ Scanner.kept (Scanner.pieces (Splitter.current l)
                (Scanner.marks prev (Scanner.scan_of l) s)))%list.
Proof.
  induction s as [|c s IH]; intros prev l; simpl.
  - apply flush_result.
  - rewrite IH.
    destruct (step_marked prev c l) as [Hs Hm]. rewrite Hs.
    destruct (Scanner.split_point c (Scanner.scan_of l)).
    + rewrite Hm, flush_result, flush_current, <- app_assoc.
      simpl. now rewrite (kept_cons (Splitter.current l) (Scanner.pieces _ _)).
    + destruct Hm as [-> ->]. reflexivity.
Qed.

End SplitterProofs.


(* ================================================================== *)
(** * Trimming *)
(* ================================================================== *)

Section Trimming.

Lemma rstrip_rstrip s : rstrip (rstrip s) = rstrip s.
Proof.
  induction s as [|c s IH]; [reflexivity|].
  cbn [rstrip]. destruct (is_space c && is_empty (rstrip s)) eqn:E; [reflexivity|].
  cbn [rstrip]. now rewrite IH, E.
Qed.

Lemma lstrip_lstrip s : lstrip (lstrip s) = lstrip s.
Proof.
  induction s as [|c s IH]; [reflexivity|].
  cbn [lstrip]. destruct (is_space c) eqn:E; [exact IH|].
  cbn [lstrip]. now rewrite E.
Qed.

Lemma rstrip_lstrip s : rstrip s = s -> rstrip (lstrip s) = lstrip s.
Proof.
  induction s as [|c s IH]; [reflexivity|].
  intros H. cbn [lstrip]. destruct (is_space c) eqn:E; [|exact H].
  apply IH. cbn [rstrip] in H. rewrite E in H. cbn [andb] in H.
  destruct (is_empty (rstrip s)); [discriminate H | now injection H].
Qed.

Lemma strip_strip s : strip (strip s) = strip s.
Proof.
  unfold strip. rewrite rstrip_lstrip by apply rstrip_rstrip.
  apply lstrip_lstrip.
Qed.

Lemma is_empty_true s : is_empty s = true -> s = "".
Proof. now destruct s. Qed.

Lemma kept_trimmed ps :
  Forall (fun sel => is_empty sel = false /\ strip sel = sel) (Scanner.kept ps).
Proof.
  unfold Scanner.kept. apply Forall_forall. intros sel H.
  apply filter_In in H. destruct H as [H E].
  apply in_map_iff in H. destruct H as (p & <- & _).
  split; [now apply negb_true_iff | apply strip_strip].
Qed.

Lemma split_selectors_kept s :
  split_selectors s
  = Scanner.kept (Scanner.pieces "" (Scanner.marks None Scanner.start s)).
Proof. unfold split_selectors. now rewrite loop_pieces. Qed.

End Trimming.


(* ================================================================== *)
(** * The splitter against the reference *)
(* ================================================================== *)

Section SplitterReference.

Lemma opener_opening c : is_opener c = SplitSpec.opening c.
Proof. destruct c as [[] [] [] [] [] [] [] []]; vm_compute; reflexivity. Qed.

Lemma closer_closing c : is_closer c = SplitSpec.closing c.
Proof. destruct c as [[] [] [] [] [] [] [] []]; vm_compute; reflexivity. Qed.

(** One character read by the loop and by the reference, when the loop's
    test on the character before says what the reference knows. *)
Lemma read_agrees prev c d lit e :
  (SplitSpec.quotation_mark c = true -> unescaped prev = negb e) ->
  let k' := SplitSpec.read c (SplitSpec.mkScan d lit e) in
  Scanner.read prev c
    (Scanner.mkScan d (match lit with Some _ => true | None => false end) lit)
  = Scanner.mkScan (SplitSpec.depth k')
      (match SplitSpec.literal k' with Some _ => true | None => false end)
      (SplitSpec.literal k').
Proof.
  intros U.
  unfold Scanner.read, Scanner.toggle, Scanner.nest, SplitSpec.read,
    SplitSpec.literal_after, SplitSpec.depth_after.
  rewrite !opener_opening, !closer_closing.
  change (is_quote c) with (SplitSpec.quotation_mark c).
  cbn [Scanner.in_string Scanner.quote Scanner.depth SplitSpec.depth
       SplitSpec.literal SplitSpec.escaped].
  destruct (SplitSpec.quotation_mark c) eqn:Q; [rewrite (U eq_refl)|];
    destruct e, lit as [q|]; cbn [negb andb same_quote];
    try destruct (Ascii.eqb q c);
    cbn [Scanner.in_string Scanner.quote Scanner.depth];
    destruct (SplitSpec.opening c), (SplitSpec.closing c); reflexivity.
Qed.

Lemma marks_agree s : forall prev d lit e,
  (e = true -> unescaped prev = false) ->
  SplitSpec.plain_marks_from (negb (unescaped prev)) e s = true ->
  Scanner.marks prev
    (Scanner.mkScan d (match lit with Some _ => true | None => false end) lit) s
  = SplitSpec.marks (SplitSpec.mkScan d lit e) s.
Proof.
  induction s as [|c s IH]; intros prev d lit e I P; [reflexivity|].
  cbn [Scanner.marks SplitSpec.marks SplitSpec.plain_marks_from] in *.
  apply andb_true_iff in P. destruct P as [Pc P].
  assert (U : SplitSpec.quotation_mark c = true -> unescaped prev = negb e).
  { intros Q. rewrite Q in Pc. destruct e.
    - now rewrite I.
    - destruct (unescaped prev); [reflexivity | discriminate Pc]. }
  f_equal.
  - f_equal. unfold Scanner.split_point, SplitSpec.split_point.
    cbn [Scanner.depth Scanner.in_string SplitSpec.depth SplitSpec.literal].
    change (is_comma c) with (SplitSpec.comma c). now destruct lit.
  - rewrite (@read_agrees prev c d lit e U).
    pose proof (IH (Some c)) as IH'. cbn [unescaped] in IH'.
    rewrite negb_involutive in IH'.
    set (k' := SplitSpec.read c (SplitSpec.mkScan d lit e)).
    specialize (IH' (SplitSpec.depth k') (SplitSpec.literal k')
                    (SplitSpec.escaped k')).
    replace (SplitSpec.mkScan (SplitSpec.depth k') (SplitSpec.literal k')
                              (SplitSpec.escaped k')) with k' in IH'
      by now destruct k'.
    apply IH'.
    + unfold k', SplitSpec.read. cbn [SplitSpec.escaped].
      intros E. apply andb_true_iff in E. destruct E as [E _]. now rewrite E.
    + exact P.
Qed.

Lemma split_selectors_reference s :
  SplitSpec.no_mark_after_escaped_backslash s = true ->
  split_selectors s = SplitSpec.split s.
Proof.
  intros P. rewrite split_selectors_kept. unfold SplitSpec.split.
  change Scanner.start with (Scanner.mkScan 0 false None).
  rewrite (@marks_agree s None 0%Z None false); [reflexivity|discriminate|exact P].
Qed.


End SplitterReference.

(** C3, as the code has it.  On every input in which no quotation mark
    stands right after an escaped backslash, [split_selectors] cuts exactly
    at the commas read at nesting depth 0 outside string literals, trims
    every piece and drops the empty ones: it returns what the reference
    splitter does, whose literals are opened and closed by the quotation
    marks that are not escaped.  And it maps [a, b(x,y), c] to [a],
    [b(x,y)], [c], and the selector with the title attribute to itself and
    [b]. *)
Theorem split_selectors_at_top_level_commas :
  (forall s,
      SplitSpec.no_mark_after_escaped_backslash s = true ->
      split_selectors s = SplitSpec.split s)
  /\ split_selectors "a, b(x,y), c" = ["a"; "b(x,y)"; "c"]
  /\ split_selectors ("a[title=" ++ chr dquote ++ "x,y" ++ chr dquote ++ "], b")
     = ["a[title=" ++ chr dquote ++ "x,y" ++ chr dquote ++ "]"; "b"].
Proof.
  split; [|split; reflexivity].
  intros s P. now apply split_selectors_reference.
Qed.

(** A literal that holds an escaped quotation mark: the comma after the
    mark is inside the literal and is no split point. *)
Lemma split_selectors_at_top_level_commas_witness :
  SplitSpec.no_mark_after_escaped_backslash SplitSpec.escaped_mark = true
  /\ split_selectors SplitSpec.escaped_mark = SplitSpec.split SplitSpec.escaped_mark
  /\ SplitSpec.split SplitSpec.escaped_mark
     = ["a[t=" ++ chr dquote ++ "x" ++ chr backslash ++ chr dquote ++ ",y"
               ++ chr dquote ++ "]"; "b"].
Proof.
  split; [reflexivity|]. split; [|reflexivity].
  exact (proj1 split_selectors_at_top_level_commas SplitSpec.escaped_mark eq_refl).
Defined.

(** C3 fails as stated: after an identifier that ends with an escaped
    backslash, the quotation mark that opens a literal is taken for an
    escaped one (the loop only looks whether a backslash stands before it),
    so the comma inside the literal is read outside a string and the
    selector is cut there. *)
Lemma comma_inside_literal_is_a_split_point :
  SplitSpec.split SplitSpec.literal_after_backslash
  = [SplitSpec.literal_after_backslash]
  /\ split_selectors SplitSpec.literal_after_backslash
     = ["a" ++ chr backslash ++ chr backslash ++ chr dquote; "b" ++ chr dquote]
  /\ SplitSpec.no_mark_after_escaped_backslash SplitSpec.literal_after_backslash
     = false.
Proof. vm_compute. repeat split. Qed.

(* ================================================================== *)
(** * Blank lines of the final text *)
(* ================================================================== *)

Section BlankLines.

Let nnn : string := nl ++ nl ++ nl.

Lemma contains_cons c s p :
  contains (String c s) p = String.prefix p (String c s) || contains s p.
Proof. reflexivity. Qed.

Lemma prefix_cons a b p s :
  String.prefix (String a p) (String b s)
  = if Ascii.eqb a b then String.prefix p s else false.
Proof.
  cbn [String.prefix].
  destruct (ascii_dec a b), (Ascii.eqb_spec a b); congruence.
Qed.

Lemma prefix_nl c p s :
  c <> newline -> String.prefix (String newline p) (String c s) = false.
Proof.
  intros H. rewrite prefix_cons.
  destruct (Ascii.eqb_spec newline c); congruence.
Qed.

Lemma prefix_nl_nl p s :
  String.prefix (String newline p) (String newline s) = String.prefix p s.
Proof. rewrite prefix_cons. now rewrite Ascii.eqb_refl. Qed.

Lemma collapse_no_blank_run s : forall run,
  TextSpec.has_blank_run (collapse_from run s) = false.
Proof.
  unfold TextSpec.has_blank_run. change (nl ++ nl ++ nl) with nnn.
  induction s as [|c s IH]; intros run.
  - destruct run as [|[|run]]; reflexivity.
  - cbn [collapse_from].
    destruct (Ascii.eqb_spec c newline) as [->|Hc]; [apply IH|].
    specialize (IH 0).
    assert (Q : contains (String c (collapse_from 0 s)) nnn = false).
    { rewrite contains_cons. unfold nnn at 1. unfold nl, chr. cbn [append].
      now rewrite prefix_nl. }
    destruct run as [|[|run]]; cbn [line_feeds].
    + exact Q.
    + unfold nl, chr. cbn [append]. rewrite contains_cons.
      unfold nnn at 1. unfold nl, chr. cbn [append].
      now rewrite prefix_nl_nl, prefix_nl.
    + unfold nl, chr. cbn [append]. rewrite contains_cons.
      unfold nnn at 1. unfold nl, chr. cbn [append].
      rewrite prefix_nl_nl, prefix_nl_nl, prefix_nl by assumption.
      rewrite contains_cons.
      unfold nnn at 1. unfold nl, chr. cbn [append].
      now rewrite prefix_nl_nl, prefix_nl.
Qed.

Lemma ends_with_char_app_chr r c : ends_with_char (r ++ chr c) c = true.
Proof.
  induction r as [|a r IH]; cbn [append chr ends_with_char].
  - apply Ascii.eqb_refl.
  - destruct r; [cbn [append chr]; apply Ascii.eqb_refl | exact IH].
Qed.

Lemma ends_with_char_cons a b r c :
  ends_with_char (String a (String b r)) c = ends_with_char (String b r) c.
Proof. reflexivity. Qed.

Lemma append_nl_no_blank_run r :
  TextSpec.has_blank_run r = false ->
  ends_with_char r newline = false ->
  TextSpec.has_blank_run (r ++ nl) = false.
Proof.
  unfold TextSpec.has_blank_run. change (nl ++ nl ++ nl) with nnn.
  induction r as [|c r IH]; intros Hb He; [reflexivity|].
  cbn [append]. rewrite contains_cons in Hb |- *.
  apply orb_false_iff in Hb. destruct Hb as [Hp Hc].
  apply orb_false_iff. split.
  - unfold nnn, nl, chr in Hp |- *. cbn [append] in Hp |- *.
    rewrite prefix_cons in Hp |- *.
    destruct (Ascii.eqb newline c) eqn:E1; [|reflexivity].
    apply Ascii.eqb_eq in E1. subst c.
    destruct r as [|d r]; [vm_compute in He; discriminate He|].
    cbn [append]. rewrite prefix_cons in Hp |- *.
    destruct (Ascii.eqb newline d) eqn:E2; [|reflexivity].
    apply Ascii.eqb_eq in E2. subst d.
    destruct r as [|e r]; [vm_compute in He; discriminate He|].
    cbn [append]. rewrite prefix_cons in Hp |- *.
    destruct (Ascii.eqb newline e); [destruct r; discriminate Hp|reflexivity].
  - apply IH; [exact Hc|].
    destruct r as [|d r]; [reflexivity|].
    now rewrite ends_with_char_cons in He.
Qed.

End BlankLines.

(** C5, as the code has it.  The text returned by [generate_output] holds
    no run of three or more line feeds and its last character is a line
    feed; a second line feed may stand before that one. *)
Theorem output_has_no_blank_run_and_ends_with_newline :
  forall self,
    TextSpec.has_blank_run (generate_output self) = false
    /\ ends_with_char (generate_output self) newline = true.
Proof.
  intros self. unfold generate_output.
  set (result := collapse_blank_lines (concat_all (output self))).
  assert (Hb : TextSpec.has_blank_run result = false)
    by apply collapse_no_blank_run.
  destruct (ends_with_char result newline) eqn:He.
  - now split.
  - split; [now apply append_nl_no_blank_run | apply ends_with_char_app_chr].
Qed.

(** C5 fails as stated: the text compiled from the empty stylesheet is the
    header, whose last two characters are both line feeds. *)
Lemma empty_stylesheet_ends_with_two_newlines :
  TextSpec.last_two (compile (new_compiler false true) [])
  = (Some newline, Some newline)
  /\ TextSpec.ends_with_one_newline (compile (new_compiler false true) []) = false.
Proof. split; vm_compute; reflexivity. Qed.

(* ================================================================== *)
(** * Ordered dictionaries: lookups, keys and order *)
(* ================================================================== *)

Section DictFacts.
Variable V : Type.
Implicit Types (d : OD.t V) (k : string) (v : V).

Lemma get_set k k' v d :
  OD.get k (OD.set k' v d) = if String.eqb k' k then Some v else OD.get k d.
Proof.
  induction d as [|[k0 v0] d IH]; simpl.
  - destruct (String.eqb_spec k' k); reflexivity.
  - destruct (String.eqb_spec k0 k'); simpl.
    + subst k0. destruct (String.eqb_spec k' k); reflexivity.
    + destruct (String.eqb_spec k0 k); [|exact IH].
      subst k0. destruct (String.eqb_spec k' k); [congruence|reflexivity].
Qed.

Lemma get_set_same k v d : OD.get k (OD.set k v d) = Some v.
Proof. now rewrite get_set, String.eqb_refl. Qed.

Lemma get_set_other k k' v d : k' <> k -> OD.get k (OD.set k' v d) = OD.get k d.
Proof. intros H. rewrite get_set. now apply String.eqb_neq in H as ->. Qed.

Lemma get_none_iff k d : OD.get k d = None <-> ~ In k (OD.keys d).
Proof.
  induction d as [|[k0 v0] d IH]; simpl; [tauto|].
  destruct (String.eqb_spec k0 k); split; intros H; try discriminate.
  - elim H; now left.
  - intros [E|E]; [congruence|]. now apply IH in E.
  - apply IH. tauto.
Qed.

Lemma get_some_in k v d : OD.get k d = Some v -> In (k, v) d.
Proof.
  induction d as [|[k0 v0] d IH]; simpl; [discriminate|].
  destruct (String.eqb_spec k0 k); intros H.
  - left. congruence.
  - right. auto.
Qed.

Lemma get_in_keys k v d : OD.get k d = Some v -> In k (OD.keys d).
Proof. intros H. apply get_some_in in H. now apply (in_map fst) in H. Qed.

Lemma in_get k v d : NoDup (OD.keys d) -> In (k, v) d -> OD.get k d = Some v.
Proof.
  induction d as [|[k0 v0] d IH]; simpl; [tauto|].
  intros N [E|E]; inversion N; subst.
  - inversion E; subst. now rewrite String.eqb_refl.
  - destruct (String.eqb_spec k0 k); [|auto].
    subst k0. elim H1. now apply (in_map fst) in E.
Qed.

Lemma mem_true_iff k d : OD.mem k d = true <-> In k (OD.keys d).
Proof.
  unfold OD.mem. destruct (OD.get k d) eqn:E.
  - split; [intros _; eapply get_in_keys; eauto | reflexivity].
  - apply get_none_iff in E. split; [discriminate | tauto].
Qed.

Lemma set_absent k v d : ~ In k (OD.keys d) -> OD.set k v d = (d ++ [(k, v)])%list.
Proof.
  induction d as [|[k0 v0] d IH]; simpl; [reflexivity|].
  intros H. destruct (String.eqb_spec k0 k); [elim H; now left|].
  f_equal. apply IH. tauto.
Qed.

Lemma keys_set_present k v d : In k (OD.keys d) -> OD.keys (OD.set k v d) = OD.keys d.
Proof.
  induction d as [|[k0 v0] d IH]; simpl; [tauto|].
  intros H. destruct (String.eqb_spec k0 k); simpl; [reflexivity|].
  f_equal. apply IH. destruct H; congruence.
Qed.

Lemma keys_set k v d :
  OD.keys (OD.set k v d) = if OD.mem k d then OD.keys d else (OD.keys d ++ [k])%list.
Proof.
  destruct (OD.mem k d) eqn:E.
  - apply keys_set_present. now apply mem_true_iff.
  - rewrite set_absent.
    + unfold OD.keys. now rewrite map_app.
    + intros H. apply mem_true_iff in H. congruence.
Qed.

Lemma in_keys_set k k' v d :
  In k (OD.keys (OD.set k' v d)) <-> k = k' \/ In k (OD.keys d).
Proof.
  rewrite keys_set. destruct (OD.mem k' d) eqn:E.
  - apply mem_true_iff in E. split; [tauto|]. intros [->|H]; assumption.
  - rewrite in_app_iff. simpl. intuition.
Qed.

Lemma nodup_set k v d : NoDup (OD.keys d) -> NoDup (OD.keys (OD.set k v d)).
Proof.
  intros N. rewrite keys_set. destruct (OD.mem k d) eqn:E; [exact N|].
  apply NoDup_app; [exact N | repeat constructor; simpl; tauto |].
  intros x Hx [<-|[]]. apply mem_true_iff in Hx. congruence.
Qed.

Lemma nodup_update items : forall d,
  NoDup (OD.keys d) -> NoDup (OD.keys (OD.update d items)).
Proof.
  unfold OD.update.
  induction items as [|[k v] items IH]; intros d N; simpl; [exact N|].
  apply IH. now apply nodup_set.
Qed.

Lemma in_keys_update items : forall d k,
  In k (OD.keys (OD.update d items)) <-> In k (OD.keys d) \/ In k (OD.keys items).
Proof.
  unfold OD.update.
  induction items as [|[k0 v0] items IH]; intros d k; simpl; [tauto|].
  rewrite IH, in_keys_set. intuition.
Qed.

Lemma update_disjoint items : forall d,
  NoDup (OD.keys items) ->
  (forall k, In k (OD.keys items) -> ~ In k (OD.keys d)) ->
  OD.update d items = (d ++ items)%list.
Proof.
  unfold OD.update.
  induction items as [|[k v] items IH]; intros d N D; simpl.
  - now rewrite app_nil_r.
  - inversion N; subst. rewrite set_absent by (apply D; now left).
    rewrite IH; [now rewrite <- app_assoc | assumption |].
    intros x Hx. unfold OD.keys. rewrite map_app, in_app_iff. simpl.
    intros [H|[H|[]]].
    + apply (D x); [right; exact Hx | exact H].
    + simpl in H. subst x. now apply H1.
Qed.

Lemma of_items_nodup (items : list (string * V)) : NoDup (OD.keys items) -> OD.of_items items = items.
Proof.
  intros N. unfold OD.of_items. rewrite update_disjoint; auto.
Qed.

Lemma keys_filter (p : string -> bool) d :
  OD.keys (filter (fun kv => p (fst kv)) d) = filter p (OD.keys d).
Proof.
  induction d as [|[k v] d IH]; simpl; [reflexivity|].
  destruct (p k); simpl; now rewrite IH.
Qed.

Lemma nodup_filter (A : Type) (p : A -> bool) (l : list A) :
  NoDup l -> NoDup (filter p l).
Proof.
  induction 1 as [|x l H N IH]; simpl; [constructor|].
  destruct (p x); [constructor|]; auto.
  rewrite filter_In. tauto.
Qed.

Lemma select_nodup (p : string -> bool) d :
  NoDup (OD.keys d) -> select p d = filter (fun kv => p (fst kv)) d.
Proof.
  intros N. unfold select. apply of_items_nodup.
  rewrite keys_filter. now apply nodup_filter.
Qed.

Lemma in_keys_select (p : string -> bool) d k :
  In k (OD.keys (select p d)) -> In k (OD.keys d) /\ p k = true.
Proof.
  unfold select, OD.of_items. rewrite in_keys_update, keys_filter, filter_In.
  simpl. tauto.
Qed.

Lemma nodup_select (p : string -> bool) d : NoDup (OD.keys (select p d)).
Proof. unfold select, OD.of_items. apply nodup_update. constructor. Qed.

End DictFacts.

(* ================================================================== *)
(** * The stable sort *)
(* ================================================================== *)

Section SortFacts.
Variables (A K : Type) (leb : K -> K -> bool) (key : A -> K).
Hypothesis leb_total : forall x y, leb x y = true \/ leb y x = true.
Hypothesis leb_trans : forall x y z, leb x y = true -> leb y z = true -> leb x z = true.

Let le (a b : A) : Prop := leb (key a) (key b) = true.

Lemma insert_by_perm x l : Permutation (insert_by leb key x l) (x :: l).
Proof.
  induction l as [|y l IH]; simpl; [reflexivity|].
  destruct (leb (key x) (key y)); [reflexivity|].
  rewrite IH. apply perm_swap.
Qed.

Lemma sorted_by_perm l : Permutation (sorted_by leb key l) l.
Proof.
  induction l as [|x l IH]; simpl; [reflexivity|].
  rewrite insert_by_perm. now constructor.
Qed.

Lemma insert_by_sorted x l :
  StronglySorted le l -> StronglySorted le (insert_by leb key x l).
Proof.
  induction 1 as [|y l S IH F]; simpl.
  - repeat constructor.
  - destruct (leb (key x) (key y)) eqn:E.
    + constructor; [now constructor|].
      constructor; [exact E|].
      eapply Forall_impl; [|exact F]. intros z Hz. unfold le in *. eauto.
    + constructor; [exact IH|].
      assert (Hyx : le y x).
      { unfold le. destruct (leb_total (key x) (key y)); congruence. }
      eapply Permutation_Forall; [symmetry; apply insert_by_perm|].
      now constructor.
Qed.

Lemma sorted_by_sorted l : StronglySorted le (sorted_by leb key l).
Proof.
  induction l as [|x l IH]; simpl; [constructor|].
  now apply insert_by_sorted.
Qed.

(** Stability: the elements that satisfy [p] keep their order when all
    elements with one key agree on [p]. *)
Lemma insert_by_filter (p : A -> bool) x l :
  (forall y, In y l -> p y = true -> p x = true ->
             leb (key x) (key y) = false -> False) ->
  filter p (insert_by leb key x l) = filter p (x :: l).
Proof.
  induction l as [|y l IH]; intros H; simpl; [reflexivity|].
  destruct (leb (key x) (key y)) eqn:E; simpl; [reflexivity|].
  destruct (p y) eqn:Py.
  - destruct (p x) eqn:Px.
    + elim (H y); simpl; auto.
    + rewrite IH; [simpl; now rewrite Px|].
      intros z Hz Pz Px'. congruence.
  - rewrite IH; [reflexivity|].
    intros z Hz. apply H. now right.
Qed.

Lemma sorted_by_filter (p : A -> bool) l :
  (forall x y, p x = true -> p y = true -> leb (key x) (key y) = true) ->
  filter p (sorted_by leb key l) = filter p l.
Proof.
  intros R. induction l as [|x l IH]; simpl; [reflexivity|].
  rewrite insert_by_filter.
  - simpl. now rewrite IH.
  - intros y _ Py Px E. rewrite (R x y Px Py) in E. discriminate.
Qed.

End SortFacts.

(** The order of Python on strings is a total preorder. *)
Section StringOrder.

Lemma ascii_compare_refl a : Ascii.compare a a = Eq.
Proof. unfold Ascii.compare. apply N.compare_refl. Qed.

Lemma ascii_compare_lt_trans a b c :
  Ascii.compare a b = Lt -> Ascii.compare b c = Lt -> Ascii.compare a c = Lt.
Proof.
  unfold Ascii.compare. rewrite !N.compare_lt_iff. lia.
Qed.

Lemma string_leb_trans x : forall y z,
  String.leb x y = true -> String.leb y z = true -> String.leb x z = true.
Proof.
  unfold String.leb.
  induction x as [|a x IH]; intros [|b y] [|c z]; simpl; try easy.
  destruct (Ascii.compare a b) eqn:Eab; try easy.
  - apply Ascii.compare_eq_iff in Eab. subst b.
    destruct (Ascii.compare a c) eqn:Eac; try easy. apply IH.
  - destruct (Ascii.compare b c) eqn:Ebc; try easy.
    + apply Ascii.compare_eq_iff in Ebc. subst c. now rewrite Eab.
    + now rewrite (ascii_compare_lt_trans _ _ _ Eab Ebc).
Qed.

End StringOrder.

(* ================================================================== *)
(** * The media sections *)
(* ================================================================== *)

Section MediaFacts.

Lemma prefix_app a : forall b s,
  String.prefix (a ++ b) s = true -> String.prefix a s = true.
Proof.
  induction a as [|c a IH]; intros b s H.
  - destruct s; reflexivity.
  - destruct s as [|d s]; [discriminate H|].
    cbn [append] in H. rewrite prefix_cons in H |- *.
    destruct (Ascii.eqb c d); [eauto | discriminate H].
Qed.

Lemma match_width_here_prefix kw s digits :
  Media.match_width_here kw s = Some digits -> String.prefix kw s = true.
Proof.
  unfold Media.match_width_here, startswith.
  destruct (String.prefix (kw ++ ":") s) eqn:E; [|discriminate].
  intros _. eapply prefix_app; eauto.
Qed.

Lemma search_max_width_contains condition : forall digits,
  Media.search_max_width condition = Some digits ->
  contains condition "max-width" = true.
Proof.
  induction condition as [|c s IH]; intros digits; cbn [Media.search_max_width].
  - destruct (Media.match_width_here "max-width" "") eqn:E; [|discriminate].
    apply match_width_here_prefix in E. discriminate E.
  - destruct (Media.match_width_here "max-width" (String c s)) eqn:E.
    + intros _. apply match_width_here_prefix in E.
      rewrite contains_cons, E. reflexivity.
    + intros H. rewrite contains_cons. erewrite IH by eauto.
      apply orb_true_r.
Qed.

Lemma int_from_nonneg s : forall acc, (0 <= acc -> 0 <= int_from acc s)%Z.
Proof.
  induction s as [|c s IH]; intros acc H; cbn [int_from]; [exact H|].
  apply IH. lia.
Qed.

Lemma int_of_digits_nonneg s : (0 <= int_of_digits s)%Z.
Proof. apply int_from_nonneg. lia. Qed.

Lemma written_order_perm queries :
  Permutation (MediaSpec.written_order queries) (OD.keys queries).
Proof.
  unfold MediaSpec.written_order, Media.sorted_queries, OD.keys.
  rewrite sorted_by_perm, map_map. simpl. reflexivity.
Qed.

Lemma section_of_bucket self s :
  In s (Media.sections self) ->
  exists b, b <> Media.Tablet /\
    forall c, In c (map fst (snd s)) ->
              In c (OD.keys (Media.queries_of b (Media.merged_queries self))).
Proof.
  unfold Media.sections.
  set (merged := Media.merged_queries self).
  assert (Sorted : forall name b,
             In s (Media.sorted_section name (Media.queries_of b merged)) ->
             forall c, In c (map fst (snd s)) ->
                       In c (OD.keys (Media.queries_of b merged))).
  { intros name b H c Hc. unfold Media.sorted_section in H.
    destruct (Media.queries_of b merged) as [|q qs] eqn:Q; [destruct H|].
    destruct H as [<-|[]]. simpl in Hc. rewrite map_map in Hc. simpl in Hc.
    eapply Permutation_in; [apply written_order_perm | exact Hc]. }
  assert (Plain : forall name b,
             In s (Media.plain_section name (Media.queries_of b merged)) ->
             forall c, In c (map fst (snd s)) ->
                       In c (OD.keys (Media.queries_of b merged))).
  { intros name b H c Hc. unfold Media.plain_section in H.
    destruct (Media.queries_of b merged) as [|q qs] eqn:Q; [destruct H|].
    destruct H as [<-|[]]. exact Hc. }
  rewrite !in_app_iff. intros [H|[H|[H|[H|H]]]].
  - exists Media.Desktop. split; [discriminate | eauto].
  - exists Media.Mobile. split; [discriminate | eauto].
  - exists Media.Other. split; [discriminate | eauto].
  - exists Media.Preference. split; [discriminate | eauto].
  - exists Media.Print. split; [discriminate | eauto].
Qed.

Lemma bucket_eqb_eq a b : Media.bucket_eqb a b = true -> a = b.
Proof. destruct a, b; simpl; congruence. Qed.

End MediaFacts.

(** C9, as the code has it.  Take a (normalised) media condition that
    contains neither [print] nor [prefers-] and whose max-width [w] lies in
    768 < w <= 1024.  It is classified as tablet, and it is a condition of
    none of the sections written (desktop, mobile, others, preferences,
    print): no block is written for its rules. *)
Theorem tablet_condition_is_not_written :
  forall self condition w,
    contains condition "print" = false ->
    contains condition "prefers-" = false ->
    MediaSpec.extracted_max_width condition = Some w ->
    (768 < w <= 1024)%Z ->
    Media.classify condition = Media.Tablet
    /\ forall s, In s (Media.sections self) -> ~ In condition (map fst (snd s)).
Proof.
  intros self condition w Hp Hf Hw Hr.
  assert (C : Media.classify condition = Media.Tablet).
  { unfold MediaSpec.extracted_max_width in Hw. unfold Media.classify.
    rewrite Hp, Hf.
    destruct (Media.search_max_width condition) as [digits|] eqn:E; [|discriminate].
    rewrite (search_max_width_contains _ E).
    simpl in Hw. injection Hw as <-.
    destruct (Z.leb_spec (int_of_digits digits) 768); [lia|].
    destruct (Z.leb_spec (int_of_digits digits) 1024); [reflexivity|lia]. }
  split; [exact C|].
  intros s Hs Hin.
  destruct (section_of_bucket _ _ Hs) as (b & Hb & Hq).
  apply Hq in Hin. apply in_keys_select in Hin. destruct Hin as [_ Hc].
  apply bucket_eqb_eq in Hc. congruence.
Qed.

(** A tablet condition in a stylesheet, and the sections written for it. *)
Lemma tablet_condition_is_not_written_witness :
  Media.classify "(max-width:900px)" = Media.Tablet
  /\ forall s,
      In s (Media.sections
              (compiled (new_compiler false true)
                        [MediaSpec.media_block "(max-width: 900px)"])) ->
      ~ In "(max-width:900px)" (map fst (snd s)).
Proof.
  apply (@tablet_condition_is_not_written _ "(max-width:900px)" 900%Z).
  - reflexivity.
  - reflexivity.
  - reflexivity.
  - lia.
Defined.

(** C9 fails as stated: [print and (max-width: 900px)] has a max-width of
    900, yet it belongs to the print section and its block is written. *)
Lemma print_condition_with_tablet_width_is_written :
  let self := compiled (new_compiler false true)
                       [MediaSpec.media_block "print and (max-width: 900px)"] in
  MediaSpec.extracted_max_width (Media.normalize "print and (max-width: 900px)")
  = Some 900%Z
  /\ MediaSpec.section_conditions self
     = [("--- PRINT ---", [Media.normalize "print and (max-width: 900px)"])]
  /\ contains (generate_output self) "@media print and(max-width:900px) {" = true.
Proof. vm_compute. repeat split. Qed.

(* ================================================================== *)
(** * The order inside a sorted media section *)
(* ================================================================== *)

Section SectionOrder.

Lemma strongly_sorted_map (A B : Type) (f : A -> B) (R : B -> B -> Prop) l :
  StronglySorted (fun x y => R (f x) (f y)) l -> StronglySorted R (map f l).
Proof.
  induction 1 as [|x l S IH F]; simpl; constructor; auto.
  rewrite Forall_map. exact F.
Qed.

Lemma strongly_sorted_before (A : Type) (R : A -> A -> Prop) l x y :
  StronglySorted R l -> MediaSpec.before x y l -> R x y.
Proof.
  intros S (l1 & l2 & l3 & ->).
  induction l1 as [|a l1 IH]; simpl in S.
  - inversion S as [|? ? _ F]; subst.
    rewrite Forall_forall in F. apply F.
    rewrite in_app_iff. right. now left.
  - inversion S; subst. auto.
Qed.

Lemma z_leb_total x y : Z.leb x y = true \/ Z.leb y x = true.
Proof. rewrite !Z.leb_le. lia. Qed.

Lemma z_leb_trans x y z : Z.leb x y = true -> Z.leb y z = true -> Z.leb x z = true.
Proof. rewrite !Z.leb_le. lia. Qed.

Lemma strongly_sorted_on (A : Type) (R R' : A -> A -> Prop) (Q : A -> Prop) l :
  (forall x y, Q x -> Q y -> R x y -> R' x y) ->
  Forall Q l -> StronglySorted R l -> StronglySorted R' l.
Proof.
  intros I FQ S. induction S as [|x l S IH F]; constructor.
  - apply IH. now inversion FQ.
  - inversion FQ as [|? ? Qx Ql]; subst.
    rewrite Forall_forall in F, Ql |- *. intros y Hy. auto.
Qed.

Lemma written_order_sorted queries :
  StronglySorted (fun c1 c2 => (Media.sort_key c1 <= Media.sort_key c2)%Z)
                 (MediaSpec.written_order queries).
Proof.
  unfold MediaSpec.written_order, Media.sorted_queries.
  set (triples := map _ queries).
  set (key := fun x : Z * string * OD.t CSSRule.t => fst (fst x)).
  apply strongly_sorted_map.
  apply (@strongly_sorted_on _
           (fun a b => Z.leb (key a) (key b) = true) _
           (fun x => fst (fst x) = Media.sort_key (snd (fst x)))).
  - intros x y Hx Hy H. rewrite <- Hx, <- Hy. now apply Z.leb_le.
  - apply Forall_forall. intros x Hx.
    apply (Permutation_in _ (sorted_by_perm Z.leb key triples)) in Hx.
    apply in_map_iff in Hx. destruct Hx as (cr & <- & _). reflexivity.
  - apply sorted_by_sorted; [apply z_leb_total | apply z_leb_trans].
Qed.

Lemma filter_map_comm (A B : Type) (f : A -> B) (p : B -> bool) l :
  filter p (map f l) = map f (filter (fun x => p (f x)) l).
Proof.
  induction l as [|x l IH]; simpl; [reflexivity|].
  destruct (p (f x)); simpl; now rewrite IH.
Qed.

(** Conditions with one sort key keep the order they had in their group. *)
Lemma written_order_stable queries k :
  filter (fun c => Z.eqb (Media.sort_key c) k) (MediaSpec.written_order queries)
  = filter (fun c => Z.eqb (Media.sort_key c) k) (OD.keys queries).
Proof.
  unfold MediaSpec.written_order, Media.sorted_queries, OD.keys.
  set (triples := map _ queries).
  set (key := fun x : Z * string * OD.t CSSRule.t => fst (fst x)).
  assert (T : forall x, In x triples -> Media.sort_key (snd (fst x)) = key x).
  { intros x Hx. apply in_map_iff in Hx. destruct Hx as (cr & <- & _). reflexivity. }
  rewrite filter_map_comm.
  rewrite (filter_ext_in (fun x => Z.eqb (Media.sort_key (snd (fst x))) k)
                         (fun x => Z.eqb (key x) k)).
  - rewrite sorted_by_filter.
    + unfold triples. rewrite filter_map_comm, !map_map. simpl.
      rewrite filter_map_comm. reflexivity.
    + intros x y Hx Hy. apply Z.eqb_eq in Hx, Hy. apply Z.leb_le. lia.
  - intros x Hx. rewrite T; [reflexivity|].
    eapply Permutation_in; [apply sorted_by_perm | exact Hx].
Qed.

(** The conditions a sorted section writes under a title. *)
Lemma sorted_section_conditions name title queries :
  flat_map (fun s : string * list string =>
              if String.eqb (fst s) title then snd s else [])
           (map (fun s : Media.section => (fst s, map fst (snd s)))
                (Media.sorted_section name queries))
  = if String.eqb name title then MediaSpec.written_order queries else [].
Proof.
  unfold Media.sorted_section, MediaSpec.written_order.
  destruct queries as [|q queries]; [now destruct (String.eqb name title)|].
  cbn [map flat_map fst snd]. rewrite app_nil_r, map_map. reflexivity.
Qed.

Lemma plain_section_conditions name title queries :
  flat_map (fun s : string * list string =>
              if String.eqb (fst s) title then snd s else [])
           (map (fun s : Media.section => (fst s, map fst (snd s)))
                (Media.plain_section name queries))
  = if String.eqb name title then OD.keys queries else [].
Proof.
  unfold Media.plain_section, OD.keys.
  destruct queries as [|q queries]; [now destruct (String.eqb name title)|].
  cbn [map flat_map fst snd]. now rewrite app_nil_r.
Qed.

Lemma conditions_written_by_group self title :
  MediaSpec.conditions_written self title
  = ((if String.eqb "--- DESKTOP ---" title
      then MediaSpec.written_order
             (Media.queries_of Media.Desktop (Media.merged_queries self))
      else [])
     ++ (if String.eqb "--- MOBILE ---" title
         then MediaSpec.written_order
                (Media.queries_of Media.Mobile (Media.merged_queries self))
         else [])
     ++ (if String.eqb "--- AUTRES ---" title
         then MediaSpec.written_order
                (Media.queries_of Media.Other (Media.merged_queries self))
         else [])
     ++ (if String.eqb Media.preference_title title
         then MediaSpec.group_conditions self Media.Preference
         else [])
     ++ (if String.eqb "--- PRINT ---" title
         then MediaSpec.group_conditions self Media.Print
         else []))%list.
Proof.
  unfold MediaSpec.conditions_written, MediaSpec.section_conditions, Media.sections,
    MediaSpec.group_conditions.
  cbv zeta. rewrite !map_app, !flat_map_app.
  now rewrite !sorted_section_conditions, !plain_section_conditions.
Qed.

(** Each of the three sorted sections writes its group sorted; the two
    sections after them write theirs as it is. *)
Lemma conditions_written_sorted self title b :
  In (title, b) MediaSpec.sorted_groups ->
  MediaSpec.conditions_written self title
  = MediaSpec.written_order (Media.queries_of b (Media.merged_queries self)).
Proof.
  intros H. rewrite conditions_written_by_group.
  set (D := MediaSpec.written_order (Media.queries_of Media.Desktop _)).
  set (M := MediaSpec.written_order (Media.queries_of Media.Mobile _)).
  set (O := MediaSpec.written_order (Media.queries_of Media.Other _)).
  set (P := MediaSpec.group_conditions self Media.Preference).
  set (Q := MediaSpec.group_conditions self Media.Print).
  destruct H as [H|[H|[H|[]]]]; injection H as <- <-; vm_compute String.eqb;
    cbn [app]; now rewrite ?app_nil_r.
Qed.

Lemma conditions_written_plain self title b :
  In (title, b) MediaSpec.plain_groups ->
  MediaSpec.conditions_written self title = MediaSpec.group_conditions self b.
Proof.
  intros H. rewrite conditions_written_by_group.
  set (D := MediaSpec.written_order (Media.queries_of Media.Desktop _)).
  set (M := MediaSpec.written_order (Media.queries_of Media.Mobile _)).
  set (O := MediaSpec.written_order (Media.queries_of Media.Other _)).
  set (P := MediaSpec.group_conditions self Media.Preference).
  set (Q := MediaSpec.group_conditions self Media.Print).
  destruct H as [H|[H|[]]]; injection H as <- <-;
    [replace (String.eqb Media.preference_title Media.preference_title) with true
       by (symmetry; apply String.eqb_refl);
     replace (String.eqb "--- DESKTOP ---" Media.preference_title) with false
       by (vm_compute; reflexivity);
     replace (String.eqb "--- MOBILE ---" Media.preference_title) with false
       by (vm_compute; reflexivity);
     replace (String.eqb "--- AUTRES ---" Media.preference_title) with false
       by (vm_compute; reflexivity);
     replace (String.eqb "--- PRINT ---" Media.preference_title) with false
       by (vm_compute; reflexivity)
    |replace (String.eqb Media.preference_title "--- PRINT ---") with false
       by (vm_compute; reflexivity);
     vm_compute String.eqb];
    cbn [app]; now rewrite ?app_nil_r.
Qed.

End SectionOrder.

(** C8, as the code has it.  Each of the sections desktop, mobile and others
    writes the conditions of its group of merged queries in the order of
    their sort keys, conditions with one key in the order they had: minus
    the width for a max-width, the width for a min-width, zero when no
    width is found.  So among max-width conditions the widest comes first,
    among min-width conditions the narrowest comes first, and a condition
    without a width comes after every max-width condition of positive width
    and before every min-width condition of positive width.  The sections
    of the user preferences and of print are not sorted: they write their
    group in the order the merged queries have. *)
Theorem section_conditions_follow_sort_key :
  forall self,
    (forall title b,
        In (title, b) MediaSpec.sorted_groups ->
        let written := MediaSpec.conditions_written self title in
        let group := MediaSpec.group_conditions self b in
        Permutation written group
        /\ (forall k,
               filter (fun c => Z.eqb (Media.sort_key c) k) written
               = filter (fun c => Z.eqb (Media.sort_key c) k) group)
        /\ forall c1 c2,
            MediaSpec.before c1 c2 written ->
            (Media.sort_key c1 <= Media.sort_key c2)%Z
            /\ (forall w1 w2,
                   MediaSpec.extracted_width c1 = Some (true, w1) ->
                   MediaSpec.extracted_width c2 = Some (true, w2) -> (w2 <= w1)%Z)
            /\ (forall w1 w2,
                   MediaSpec.extracted_width c1 = Some (false, w1) ->
                   MediaSpec.extracted_width c2 = Some (false, w2) -> (w1 <= w2)%Z)
            /\ (forall w2,
                   MediaSpec.extracted_width c1 = None ->
                   MediaSpec.extracted_width c2 = Some (true, w2) -> w2 = 0%Z)
            /\ (forall w1,
                   MediaSpec.extracted_width c1 = Some (false, w1) ->
                   MediaSpec.extracted_width c2 = None -> w1 = 0%Z))
    /\ (forall title b,
           In (title, b) MediaSpec.plain_groups ->
           MediaSpec.conditions_written self title
           = MediaSpec.group_conditions self b).
Proof.
  intros self. split; [|intros title b H; now apply conditions_written_plain].
  intros title b H written group.
  unfold written, group, MediaSpec.group_conditions.
  rewrite (conditions_written_sorted self H).
  set (queries := Media.queries_of b (Media.merged_queries self)).
  split; [apply written_order_perm|].
  split; [apply written_order_stable|].
  intros c1 c2 B.
  assert (L : (Media.sort_key c1 <= Media.sort_key c2)%Z).
  { eapply (strongly_sorted_before
              (R := fun c1 c2 => (Media.sort_key c1 <= Media.sort_key c2)%Z));
      [apply written_order_sorted | exact B]. }
  split; [exact L|].
  unfold MediaSpec.extracted_width, Media.sort_key in *.
  assert (N := int_of_digits_nonneg).
  destruct (Media.search_width c1) as [[m1 d1]|];
    destruct (Media.search_width c2) as [[m2 d2]|];
    try pose proof (N d1); try pose proof (N d2);
    repeat split; intros;
    repeat match goal with
           | H : Some _ = Some _ |- _ => injection H as ? ?; subst
           | H : Some _ = None |- _ => discriminate H
           | H : None = Some _ |- _ => discriminate H
           end; simpl in L; lia.
Qed.

(** Two conditions of the section of the others, in the order written. *)
Lemma section_conditions_follow_sort_key_witness :
  In ("--- AUTRES ---", Media.Other) MediaSpec.sorted_groups
  /\ MediaSpec.before "(max-width:1200px)" "screen"
       (MediaSpec.conditions_written
          (compiled (new_compiler false true) MediaSpec.two_others)
          "--- AUTRES ---")
  /\ (Media.sort_key "(max-width:1200px)" <= Media.sort_key "screen")%Z.
Proof.
  assert (G : In ("--- AUTRES ---", Media.Other) MediaSpec.sorted_groups)
    by (simpl; auto).
  assert (B : MediaSpec.before "(max-width:1200px)" "screen"
                (MediaSpec.conditions_written
                   (compiled (new_compiler false true) MediaSpec.two_others)
                   "--- AUTRES ---")).
  { exists [], [], []. vm_compute. reflexivity. }
  split; [exact G|]. split; [exact B|].
  exact (proj1 (proj2 (proj2 (proj1 (section_conditions_follow_sort_key
                                       (compiled (new_compiler false true)
                                                 MediaSpec.two_others))
                                    "--- AUTRES ---" Media.Other G))
                      "(max-width:1200px)" "screen" B)).
Defined.

(** C8 fails as stated: [screen] has no width and [(max-width: 1200px)]
    has one; both belong to the section of the others, and the condition
    without a width is written last, not first. *)
Lemma condition_without_width_is_not_first :
  let self := compiled (new_compiler false true)
                [MediaSpec.media_block "screen";
                 MediaSpec.media_block "(max-width: 1200px)"] in
  MediaSpec.extracted_width "screen" = None
  /\ MediaSpec.extracted_width "(max-width:1200px)" = Some (true, 1200%Z)
  /\ MediaSpec.section_conditions self
     = [("--- AUTRES ---", ["(max-width:1200px)"; "screen"])].
Proof. vm_compute. repeat split. Qed.

(* ================================================================== *)
(** * The scenario of the five media conditions *)
(* ================================================================== *)

(** C2, as the code has it.  When the media conditions stored are
    [(min-width: 1200px)], [(max-width: 480px)], [print],
    [(prefers-color-scheme: dark)] and [(max-width: 900px)], the sections
    written are, in this order: desktop with the 1200px query, mobile with
    the 480px query alone, the preferences with the prefers-color-scheme
    query, and print; these sections end the document, print last.  The
    900px query is a tablet query and no part of the mobile section. *)
Theorem five_conditions_section_order :
  forall self r1 r2 r3 r4 r5,
    media_queries self = combine MediaSpec.five_conditions [r1; r2; r3; r4; r5] ->
    MediaSpec.section_conditions self = MediaSpec.written_sections
    /\ exists front,
        output self = (front ++ flat_map Media.write_section (Media.sections self))%list.
Proof.
  intros self r1 r2 r3 r4 r5 H. split.
  - unfold MediaSpec.section_conditions, Media.sections, Media.merged_queries.
    rewrite H. vm_compute. reflexivity.
  - unfold output, Media.media_section. rewrite H. cbn [combine MediaSpec.five_conditions].
    exists (Output.header ++ Output.at_rules_section self ++ Output.root_section self
            ++ Output.base_section self ++ Output.main_section self
            ++ [("/* ===== MEDIA QUERIES ===== */" ++ nl)%string])%list.
    rewrite <- !app_assoc. reflexivity.
Qed.

(** The scenario compiled from a stylesheet with the five media blocks. *)
Lemma five_conditions_section_order_witness :
  MediaSpec.section_conditions
    (compiled (new_compiler false true) MediaSpec.five_media_blocks)
  = MediaSpec.written_sections.
Proof.
  refine (proj1 (@five_conditions_section_order
                   (compiled (new_compiler false true) MediaSpec.five_media_blocks)
                   _ _ _ _ _ _)).
  vm_compute. reflexivity.
Defined.

(** C2 fails as stated: compiled from the five media blocks, the mobile
    section holds the 480px query only; the order expected has the 900px
    query after it. *)
Lemma mobile_section_lacks_the_900px_query :
  MediaSpec.section_conditions
    (compiled (new_compiler false true) MediaSpec.five_media_blocks)
  <> MediaSpec.expected_order
  /\ contains (compile (new_compiler false true) MediaSpec.five_media_blocks)
              "900px" = false.
Proof. split; [vm_compute; discriminate | vm_compute; reflexivity]. Qed.

(* ================================================================== *)
(** * What processing writes to the store *)
(* ================================================================== *)

Section StoreFacts.

Lemma same_but_stats_refl self : Store.same_but_stats self self.
Proof. repeat split. Qed.

Lemma same_but_stats_trans a b c :
  Store.same_but_stats a b -> Store.same_but_stats b c -> Store.same_but_stats a c.
Proof.
  unfold Store.same_but_stats. intros (?&?&?&?&?) (?&?&?&?&?).
  repeat split; congruence.
Qed.

Lemma bump_same c self : Store.same_but_stats (bump c self) self.
Proof. repeat split. Qed.

Lemma set_set (V : Type) k (v v' : V) d :
  OD.set k v (OD.set k v' d) = OD.set k v d.
Proof.
  induction d as [|[k0 v0] d IH]; simpl.
  - now rewrite String.eqb_refl.
  - destruct (String.eqb k0 k) eqn:E; simpl; rewrite E; [reflexivity|].
    now rewrite IH.
Qed.

Lemma parse_declarations_pure ds : forall props self,
  fst (parse_declarations ds props self) = Store.block_properties_from ds props
  /\ Store.same_but_stats (snd (parse_declarations ds props self)) self.
Proof.
  induction ds as [|[n v i|] ds IH]; intros props self; simpl.
  - split; [reflexivity | apply same_but_stats_refl].
  - apply IH.
  - destruct (IH props (bump ParseErrors self)) as [H1 H2]. split; [exact H1|].
    eapply same_but_stats_trans; [exact H2 | apply bump_same].
Qed.

Lemma add_properties_pure props : forall sel t self r,
  OD.get sel t = Some r ->
  fst (add_properties props sel t self) = OD.set sel (Store.set_properties props r) t
  /\ Store.same_but_stats (snd (add_properties props sel t self)) self.
Proof.
  induction props as [|[p v] props IH]; intros sel t self r H; simpl.
  - split; [|apply same_but_stats_refl].
    clear - H. induction t as [|[k0 v0] t IHt]; simpl in *; [discriminate|].
    destruct (String.eqb k0 sel); [congruence|]. f_equal. now apply IHt.
  - rewrite H.
    destruct (IH sel (OD.set sel (CSSRule.add_property p v r) t)
                 (bump PropertiesMerged self) (CSSRule.add_property p v r))
      as [H1 H2]; [apply get_set_same|].
    rewrite H1, set_set. split; [reflexivity|].
    eapply same_but_stats_trans; [exact H2 | apply bump_same].
Qed.

Lemma store_selectors_pure sels : forall props t self,
  fst (store_selectors sels props t self) = Store.store_rules sels props t
  /\ Store.same_but_stats (snd (store_selectors sels props t self)) self.
Proof.
  induction sels as [|sel sels IH]; intros props t self; simpl.
  - split; [reflexivity | apply same_but_stats_refl].
  - destruct (is_empty (strip sel)) eqn:E; [apply IH|].
    set (sel' := strip sel) in *.
    set (t' := if OD.mem sel' t then t else OD.set sel' (CSSRule.new sel') t).
    assert (G : exists r, OD.get sel' t' = Some r
                          /\ OD.set sel' (Store.set_properties props r) t'
                             = Store.store_one props sel' t).
    { unfold t', Store.store_one, OD.mem.
      destruct (OD.get sel' t) as [r|] eqn:Eg.
      - exists r. now rewrite Eg.
      - exists (CSSRule.new sel'). rewrite get_set_same, set_set. auto. }
    destruct G as (r & Hg & Hs).
    destruct (add_properties_pure props sel' t' (bump SelectorsSplit self) Hg)
      as [H1 H2].
    destruct (add_properties props sel' t' (bump SelectorsSplit self))
      as [t'' self''] eqn:Ea.
    simpl in H1, H2. subst t''.
    destruct (IH props (OD.set sel' (Store.set_properties props r) t') self'')
      as [H3 H4].
    rewrite Hs in H3, H4 |- *. rewrite H3. split; [reflexivity|].
    eapply same_but_stats_trans; [exact H4|].
    eapply same_but_stats_trans; [exact H2 | apply bump_same].
Qed.

Lemma process_qualified_rule_store self prelude content mc :
  let self' := process_qualified_rule self prelude content mc in
  (rules self', media_queries self') = Store.stored_after self prelude content mc
  /\ alphabetical_order self' = alphabetical_order self
  /\ safe_mode self' = safe_mode self
  /\ at_rules self' = at_rules self.
Proof.
  unfold process_qualified_rule, Store.stored_after, parse_declaration_block,
    Store.block_properties.
  destruct (is_empty (strip (serialize_tokens prelude))); [repeat split|].
  destruct (parse_declarations_pure content (OD.empty _) (bump RulesParsed self))
    as [H1 H2].
  destruct (parse_declarations content (OD.empty _) (bump RulesParsed self))
    as [props self1] eqn:Ep.
  simpl in H1, H2. rewrite <- H1.
  assert (S1 : Store.same_but_stats self1 self)
    by (eapply same_but_stats_trans; [exact H2 | apply bump_same]).
  destruct S1 as (A1 & A2 & A3 & A4 & A5).
  destruct props as [|pv props]; [repeat split; congruence|].
  set (sels := split_selectors _).
  destruct (target_scope mc) as [c|].
  - unfold OD.setdefault. rewrite A5.
    destruct (OD.get c (media_queries self)) as [t|] eqn:Eg.
    + destruct (store_selectors_pure sels (pv :: props) t self1) as [H3 H4].
      destruct (store_selectors sels (pv :: props) t self1) as [t' self2].
      simpl in H3, H4. destruct H4 as (B1 & B2 & B3 & B4 & B5).
      simpl. rewrite H3. repeat split; congruence.
    + destruct (store_selectors_pure sels (pv :: props) (OD.empty _) self1)
        as [H3 H4].
      destruct (store_selectors sels (pv :: props) (OD.empty _) self1) as [t' self2].
      simpl in H3, H4. destruct H4 as (B1 & B2 & B3 & B4 & B5).
      simpl. rewrite H3, set_set. repeat split; congruence.
  - destruct (store_selectors_pure sels (pv :: props) (rules self1) self1) as [H3 H4].
    destruct (store_selectors sels (pv :: props) (rules self1) self1) as [t' self2].
    simpl in H3, H4. destruct H4 as (B1 & B2 & B3 & B4 & B5).
    simpl. rewrite H3, A3. repeat split; congruence.
Qed.

End StoreFacts.

(* ================================================================== *)
(** * The store stays well formed *)
(* ================================================================== *)

Section WellFormed.

Lemma nodup_store_rules sels props : forall t,
  NoDup (OD.keys t) -> NoDup (OD.keys (Store.store_rules sels props t)).
Proof.
  unfold Store.store_rules.
  induction sels as [|sel sels IH]; intros t N; simpl; [exact N|].
  apply IH. destruct (is_empty (strip sel)); [exact N|].
  unfold Store.store_one. now apply nodup_set.
Qed.

Lemma forall_set (V : Type) (P : string * V -> Prop) k v (d : OD.t V) :
  (forall k', P (k', v)) -> Forall P d -> Forall P (OD.set k v d).
Proof.
  intros Pv F. induction F as [|[k0 v0] d P0 F IH]; simpl.
  - repeat constructor. apply Pv.
  - destruct (String.eqb k0 k); constructor; auto.
Qed.

Lemma forall_get (V : Type) (P : string * V -> Prop) k v (d : OD.t V) :
  Forall P d -> OD.get k d = Some v -> P (k, v).
Proof.
  intros F H. apply get_some_in in H. rewrite Forall_forall in F. auto.
Qed.

Lemma process_qualified_rule_wf self prelude content mc :
  Store.well_formed self ->
  Store.well_formed (process_qualified_rule self prelude content mc).
Proof.
  intros [N F]. unfold Store.well_formed.
  destruct (process_qualified_rule_store self prelude content mc) as (H & _).
  cbv zeta in H.
  pose proof (f_equal fst H) as Hr. pose proof (f_equal snd H) as Hm.
  cbn [fst snd] in Hr, Hm. rewrite Hr, Hm. clear H Hr Hm.
  unfold Store.stored_after.
  destruct (is_empty (strip (serialize_tokens prelude))); [now split|].
  destruct (Store.block_properties content) as [|pv props]; [now split|].
  destruct (target_scope mc) as [c|]; simpl; split; auto.
  - apply forall_set; [|exact F]. intros k'. simpl.
    apply nodup_store_rules.
    destruct (OD.get c (media_queries self)) as [t|] eqn:E; [|constructor].
    apply (forall_get _ F E).
  - now apply nodup_store_rules.
Qed.

Lemma process_at_rule_wf self kw prelude content text :
  Store.well_formed self ->
  Store.well_formed (process_at_rule self kw prelude content text).
Proof.
  intros W. unfold process_at_rule.
  destruct (String.eqb kw "media").
  - assert (W' : Store.well_formed (bump MediaQueries self)) by exact W.
    revert W'. generalize (bump MediaQueries self).
    induction content as [|n content IH]; intros s Ws; simpl; [exact Ws|].
    apply IH. destruct n; auto. now apply process_qualified_rule_wf.
  - destruct (String.eqb kw "keyframes").
    + destruct (replace_keyframe _ _ _); exact W.
    + exact W.
Qed.

Lemma process_stylesheet_wf ss : forall self,
  Store.well_formed self -> Store.well_formed (process_stylesheet self ss).
Proof.
  unfold process_stylesheet.
  induction ss as [|n ss IH]; intros self W; simpl; [exact W|].
  apply IH. destruct n; simpl.
  - now apply process_qualified_rule_wf.
  - now apply process_at_rule_wf.
  - exact W.
Qed.

Lemma new_compiler_wf a s : Store.well_formed (new_compiler a s).
Proof. split; constructor. Qed.

(** Processing leaves the two flags as they are. *)
Lemma process_at_rule_flags self kw prelude content text :
  alphabetical_order (process_at_rule self kw prelude content text)
  = alphabetical_order self
  /\ safe_mode (process_at_rule self kw prelude content text) = safe_mode self.
Proof.
  unfold process_at_rule. destruct (String.eqb kw "media").
  - change (alphabetical_order self) with (alphabetical_order (bump MediaQueries self)).
    change (safe_mode self) with (safe_mode (bump MediaQueries self)).
    generalize (bump MediaQueries self).
    induction content as [|n content IH]; intros s; simpl; [now split|].
    destruct (IH (match n with
                  | QualifiedRule p c =>
                      process_qualified_rule s p c (Some (strip (serialize_tokens prelude)))
                  | _ => s
                  end)) as [H1 H2].
    rewrite H1, H2. destruct n as [p c| |]; try now split.
    destruct (process_qualified_rule_store s p c
                (Some (strip (serialize_tokens prelude)))) as (_ & A & B & _).
    now split.
  - destruct (String.eqb kw "keyframes"); [|now split].
    destruct (replace_keyframe _ _ _); now split.
Qed.

Lemma process_stylesheet_flags ss : forall self,
  alphabetical_order (process_stylesheet self ss) = alphabetical_order self
  /\ safe_mode (process_stylesheet self ss) = safe_mode self.
Proof.
  unfold process_stylesheet.
  induction ss as [|n ss IH]; intros self; simpl; [now split|].
  destruct (IH (process_node self n)) as [H1 H2]. rewrite H1, H2.
  destruct n as [p c| |]; simpl.
  - destruct (process_qualified_rule_store self p c None)
      as (_ & A & B & _). now split.
  - apply process_at_rule_flags.
  - now split.
Qed.

End WellFormed.

(* ================================================================== *)
(** * Sorting in safe mode *)
(* ================================================================== *)

Section SafeSort.

Lemma filter_partition_perm (A : Type) (p : A -> bool) (l : list A) :
  Permutation (filter p l ++ filter (fun x => negb (p x)) l) l.
Proof.
  induction l as [|x l IH]; simpl; [constructor|].
  destruct (p x); simpl.
  - now constructor.
  - rewrite <- Permutation_middle. now constructor.
Qed.

Lemma filter_all (A : Type) (p : A -> bool) (l : list A) :
  (forall x, In x l -> p x = true) -> filter p l = l.
Proof.
  induction l as [|x l IH]; intros H; simpl; [reflexivity|].
  rewrite (H x) by now left. f_equal. apply IH. intros y Hy. apply H. now right.
Qed.

Lemma filter_none (A : Type) (p : A -> bool) (l : list A) :
  (forall x, In x l -> p x = false) -> filter p l = [].
Proof.
  induction l as [|x l IH]; intros H; simpl; [reflexivity|].
  rewrite (H x) by now left. apply IH. intros y Hy. apply H. now right.
Qed.

Lemma is_dangerous_spec k : is_dangerous k = true <-> SortSpec.dangerous k.
Proof. unfold is_dangerous, SortSpec.dangerous. apply existsb_exists. Qed.

Lemma sort_safely_shape (d : OD.t CSSRule.t) :
  NoDup (OD.keys d) ->
  sort_safely d
  = (filter (fun kv => is_dangerous (fst kv)) d
     ++ sorted_by String.leb (@lower_key _)
          (filter (fun kv => negb (is_dangerous (fst kv))) d))%list.
Proof.
  intros N. unfold sort_safely.
  rewrite !select_nodup by exact N.
  set (dang := filter _ d). set (safe := filter _ d).
  assert (Nd : NoDup (OD.keys dang)).
  { unfold dang. rewrite (keys_filter is_dangerous). now apply nodup_filter. }
  assert (Ps : Permutation (OD.keys (sorted_by String.leb (@lower_key _) safe))
                           (OD.keys safe))
    by (apply Permutation_map, sorted_by_perm).
  assert (Ns : NoDup (OD.keys (sorted_by String.leb (@lower_key _) safe))).
  { eapply Permutation_NoDup; [symmetry; exact Ps|].
    unfold safe. rewrite (keys_filter (fun k => negb (is_dangerous k))).
    now apply nodup_filter. }
  rewrite of_items_nodup by exact Ns.
  fold (OD.of_items dang). rewrite of_items_nodup by exact Nd.
  apply update_disjoint; [exact Ns|].
  intros k Hk Hd.
  apply (Permutation_in _ Ps) in Hk.
  unfold safe in Hk. unfold dang in Hd.
  rewrite (keys_filter (fun k => negb (is_dangerous k))), filter_In in Hk.
  rewrite (keys_filter is_dangerous), filter_In in Hd.
  destruct Hk as [_ Hk], Hd as [_ Hd]. rewrite Hd in Hk. discriminate.
Qed.

Lemma sort_safely_ordered (d : OD.t CSSRule.t) :
  NoDup (OD.keys d) -> SortSpec.ordered d (sort_safely d).
Proof.
  intros N. rewrite sort_safely_shape by exact N.
  set (dang := filter _ d). set (safe := filter _ d).
  set (sorted := sorted_by String.leb (@lower_key _) safe).
  assert (Pm : Permutation sorted safe) by apply sorted_by_perm.
  assert (Ks : forall k, In k (OD.keys sorted) -> is_dangerous k = false).
  { intros k Hk. apply (Permutation_in _ (Permutation_map fst Pm)) in Hk.
    unfold safe in Hk.
    change (In k (OD.keys (filter (fun kv => negb (is_dangerous (fst kv))) d))) in Hk.
    rewrite (keys_filter (fun k => negb (is_dangerous k))), filter_In in Hk.
    destruct Hk as [_ Hk]. now apply negb_true_iff. }
  assert (Kd : OD.keys dang = filter is_dangerous (OD.keys d))
    by apply (keys_filter is_dangerous).
  unfold SortSpec.ordered, OD.keys. rewrite map_app, !filter_app.
  fold (OD.keys dang) (OD.keys sorted) (OD.keys d).
  repeat split.
  - rewrite Pm. apply filter_partition_perm.
  - rewrite (filter_none _ _ Ks), app_nil_r, Kd.
    apply filter_all. intros k Hk. now apply filter_In in Hk.
  - rewrite (filter_none (fun k => negb (is_dangerous k)) (OD.keys dang)).
    + simpl. rewrite filter_all
        by (intros k Hk; apply negb_true_iff; now apply Ks).
      apply strongly_sorted_map.
      apply (sorted_by_sorted String.leb (@lower_key CSSRule.t)
               String.leb_total string_leb_trans).
    + intros k Hk. rewrite Kd in Hk. apply filter_In in Hk.
      destruct Hk as [_ ->]. reflexivity.
Qed.

End SafeSort.

(** C7. With alphabetical ordering and safe mode on, the sort keeps, in the
    top-level scope and in the scope of every media condition, the same
    rules, the selectors that contain one of [:link], [:visited], [:hover],
    [:focus], [:active], [:first-child], [:last-child], [:nth-] in the
    order they had in the store (the order in which the source first
    names them), and the other selectors in case-insensitive order among
    themselves. *)
Theorem safe_sort_keeps_dangerous_selectors_in_order :
  forall stylesheet,
    let before := process_stylesheet (new_compiler true true) stylesheet in
    let after := compiled (new_compiler true true) stylesheet in
    (forall k, is_dangerous k = true <-> SortSpec.dangerous k)
    /\ SortSpec.ordered (rules before) (rules after)
    /\ Forall2 (fun b a => fst a = fst b /\ SortSpec.ordered (snd b) (snd a))
               (media_queries before) (media_queries after).
Proof.
  intros stylesheet before after.
  split; [apply is_dangerous_spec|].
  assert (W : Store.well_formed before)
    by apply process_stylesheet_wf, new_compiler_wf.
  destruct (process_stylesheet_flags stylesheet (new_compiler true true)) as [Fa Fs].
  fold before in Fa, Fs. simpl in Fa, Fs.
  assert (E : after = sort_rules before).
  { unfold after, compiled. fold before. now rewrite Fa. }
  rewrite E. unfold sort_rules. rewrite Fs. simpl.
  destruct W as [N F]. split; [now apply sort_safely_ordered|].
  induction F as [|[c r] mq Hr F IH]; simpl; constructor; auto.
  split; [reflexivity|]. now apply sort_safely_ordered.
Qed.

(* ================================================================== *)
(** * The at-rule collector *)
(* ================================================================== *)

Section Collector.

Import KeyframesSpec.

Lemma media_children_keep_at_rules condition children : forall self,
  at_rules
    (fold_left
       (fun self rule =>
          match rule with
          | QualifiedRule p c => process_qualified_rule self p c (Some condition)
          | _ => self
          end)
       children self)
  = at_rules self.
Proof.
  induction children as [|n children IH]; intros self; simpl; [reflexivity|].
  rewrite IH. destruct n as [p c| |]; try reflexivity.
  now destruct (process_qualified_rule_store self p c (Some condition))
    as (_ & _ & _ & A).
Qed.

Lemma at_rules_process_node self n :
  at_rules (process_node self n) = recorded (at_rules self) n.
Proof.
  destruct n as [p c|kw p c t|l m]; simpl.
  - now destruct (process_qualified_rule_store self p c None) as (_ & _ & _ & A).
  - unfold process_at_rule.
    destruct (String.eqb kw "media");
      [now rewrite media_children_keep_at_rules|].
    destruct (String.eqb kw "keyframes"); [|reflexivity].
    unfold keyframe_name, serialize_node. simpl.
    now destruct (replace_keyframe _ _ _).
  - reflexivity.
Qed.

Lemma at_rules_process_stylesheet ss : forall self,
  at_rules (process_stylesheet self ss) = fold_left recorded ss (at_rules self).
Proof.
  unfold process_stylesheet.
  induction ss as [|n ss IH]; intros self; simpl; [reflexivity|].
  now rewrite IH, at_rules_process_node.
Qed.

(** ** Replacing the content of a keyframes entry *)

Lemma replace_none m c l :
  replace_keyframe m c l = None <-> Forall (fun e => is_keyframe_named m e = false) l.
Proof.
  induction l as [|e l IH]; simpl; [split; auto|].
  destruct (is_keyframe_named m e) eqn:E.
  - split; [discriminate|]. intros H. inversion H; congruence.
  - destruct (replace_keyframe m c l); simpl.
    + split; [discriminate|]. intros H. inversion H; subst.
      apply IH in H3. discriminate.
    + split; [|reflexivity]. intros _. constructor; [exact E | now apply IH].
Qed.

Lemma replace_skip m c front : forall l,
  Forall (fun e => is_keyframe_named m e = false) front ->
  replace_keyframe m c (front ++ l) = option_map (app front) (replace_keyframe m c l).
Proof.
  induction front as [|e front IH]; intros l F; simpl.
  - now destruct (replace_keyframe m c l).
  - inversion F; subst. rewrite H1, IH by assumption.
    now destruct (replace_keyframe m c l).
Qed.

Lemma replace_shape m c l : forall l',
  replace_keyframe m c l = Some l' ->
  Forall2 (fun x y => y = x \/ (is_keyframe_named m x = true
                                /\ y = mkEntry (keyword x) (name x) c)) l l'.
Proof.
  induction l as [|e l IH]; intros l'; simpl; [discriminate|].
  destruct (is_keyframe_named m e) eqn:E.
  - intros H. injection H as <-. constructor; [right; auto|].
    clear. induction l; constructor; auto.
  - destruct (replace_keyframe m c l) as [r|]; [|discriminate].
    intros H. injection H as <-. constructor; [left; reflexivity | now apply IH].
Qed.

Lemma named_iff m e :
  is_keyframe_named m e = true <-> keyword e = "keyframes" /\ name e = Some m.
Proof.
  unfold is_keyframe_named. rewrite andb_true_iff, String.eqb_eq.
  destruct (name e) as [n|].
  - rewrite String.eqb_eq. split; intros [A B]; split; congruence.
  - split; intros [A B]; discriminate.
Qed.

(** ** The entry of one name while the stylesheet is read *)

Lemma forall2_keeps_unnamed n m c l l' :
  Forall2 (fun x y => y = x \/ (is_keyframe_named m x = true
                                /\ y = mkEntry (keyword x) (name x) c)) l l' ->
  Forall (fun e => is_keyframe_named n e = false) l ->
  Forall (fun e => is_keyframe_named n e = false) l'.
Proof.
  induction 1 as [|x y l l' H F2 IH]; intros F; [constructor|].
  inversion F; subst. constructor; [|auto].
  destruct H as [->|[_ ->]]; [assumption|]. exact H2.
Qed.

Lemma single_entry_step n pos c entries node :
  single_entry n pos c entries ->
  single_entry n pos
    (match last_of n (keyframes [node]) with Some c' => c' | None => c end)
    (recorded entries node).
Proof.
  intros (front & back & e & -> & L & Ff & Fb & K & N & C).
  assert (He : is_keyframe_named n e = true) by (apply named_iff; auto).
  destruct node as [p d|kw p d t|l m]; simpl;
    try (exists front, back, e; repeat split; assumption).
  destruct (String.eqb kw "media") eqn:Em.
  { apply String.eqb_eq in Em. subst kw. simpl.
    exists front, back, e; repeat split; assumption. }
  destruct (String.eqb kw "keyframes") eqn:Ek; simpl.
  - destruct (String.eqb_spec (keyframe_name p) n) as [->|Hn].
    + rewrite replace_skip by assumption. simpl. rewrite He. simpl.
      exists front, back, (mkEntry (keyword e) (name e) t).
      repeat split; assumption.
    + destruct (replace_keyframe (keyframe_name p) t (front ++ e :: back))
        as [l'|] eqn:R.
      * apply replace_shape in R.
        apply Forall2_app_inv_l in R. destruct R as (f' & r' & F1 & F2 & ->).
        inversion F2 as [|? e' ? b' He' F3]; subst.
        assert (e' = e) as ->.
        { destruct He' as [->|[A _]]; [reflexivity|].
          apply named_iff in A. destruct A as [_ A]. congruence. }
        exists f', b', e. repeat split; try assumption.
        -- symmetry. apply (Forall2_length F1).
        -- eapply forall2_keeps_unnamed; eauto.
        -- eapply forall2_keeps_unnamed; eauto.
      * exists front, (back ++ [mkEntry kw (Some (keyframe_name p)) t])%list, e.
        repeat split; try assumption.
        -- now rewrite <- app_assoc.
        -- apply Forall_app. split; [assumption|]. constructor; [|constructor].
           unfold is_keyframe_named. simpl.
           apply String.eqb_neq in Hn. rewrite Hn. apply andb_false_r.
  - exists front, (back ++ [mkEntry kw None t])%list, e.
    repeat split; try assumption.
    + now rewrite <- app_assoc.
    + apply Forall_app. split; [assumption|]. constructor; [|constructor].
      unfold is_keyframe_named. simpl. now rewrite Ek.
Qed.

Lemma last_of_app (V : Type) k (l1 l2 : list (string * V)) :
  last_of k (l1 ++ l2)
  = match last_of k l2 with Some v => Some v | None => last_of k l1 end.
Proof.
  induction l1 as [|[k' v] l1 IH]; simpl.
  - now destruct (last_of k l2).
  - rewrite IH. now destruct (last_of k l2).
Qed.

Lemma keyframes_app a b : keyframes (a ++ b) = (keyframes a ++ keyframes b)%list.
Proof. unfold keyframes. apply flat_map_app. Qed.

Lemma keyframes_cons n l : keyframes (n :: l) = (keyframes [n] ++ keyframes l)%list.
Proof. apply (keyframes_app [n] l). Qed.

Lemma single_entry_fold n pos tail : forall c entries,
  single_entry n pos c entries ->
  single_entry n pos
    (match last_of n (keyframes tail) with Some c' => c' | None => c end)
    (fold_left recorded tail entries).
Proof.
  induction tail as [|node tail IH]; intros c entries S; [exact S|].
  cbn [fold_left]. rewrite keyframes_cons, last_of_app.
  apply (single_entry_step node) in S. apply IH in S.
  destruct (last_of n (keyframes tail)); exact S.
Qed.

End Collector.

Section Deduplication.

Import KeyframesSpec.

Lemma entry_names_app a b :
  entry_names (a ++ b) = (entry_names a ++ entry_names b)%list.
Proof. unfold entry_names. apply flat_map_app. Qed.

Lemma dedup_keys_app a b :
  dedup_keys (a ++ b) = (dedup_keys a ++ dedup_keys b)%list.
Proof. unfold dedup_keys. apply flat_map_app. Qed.

Lemma in_entry_names m l :
  In (Some m) (entry_names l) <-> exists e, In e l /\ is_keyframe_named m e = true.
Proof.
  unfold entry_names. rewrite in_flat_map. split.
  - intros (e & He & H). exists e. split; [exact He|].
    destruct (String.eqb (keyword e) "keyframes") eqn:K; [|destruct H].
    destruct H as [H|[]]. apply named_iff. apply String.eqb_eq in K. auto.
  - intros (e & He & H). exists e. split; [exact He|].
    apply named_iff in H. destruct H as [K N]. rewrite K. simpl. now left.
Qed.

Lemma forall2_same_names m c l l' :
  Forall2 (fun x y => y = x \/ (is_keyframe_named m x = true
                                /\ y = mkEntry (keyword x) (name x) c)) l l' ->
  entry_names l' = entry_names l.
Proof.
  induction 1 as [|x y l l' H F IH]; [reflexivity|].
  change (y :: l') with ([y] ++ l')%list. change (x :: l) with ([x] ++ l)%list.
  rewrite !entry_names_app, IH. f_equal. now destruct H as [->|[_ ->]].
Qed.

Lemma recorded_distinct entries node :
  NoDup (entry_names entries) -> NoDup (entry_names (recorded entries node)).
Proof.
  intros N. destruct node as [p d|kw p d t|l m]; simpl; try exact N.
  destruct (String.eqb kw "media"); [exact N|].
  destruct (String.eqb kw "keyframes") eqn:Ek.
  - destruct (replace_keyframe (keyframe_name p) t entries) as [l'|] eqn:R.
    + apply replace_shape in R. now rewrite (@forall2_same_names _ _ _ _ R).
    + rewrite entry_names_app. unfold entry_names at 2. simpl. rewrite Ek. simpl.
      apply NoDup_app; [exact N | repeat constructor; simpl; tauto |].
      intros x Hx [<-|[]]. apply in_entry_names in Hx.
      destruct Hx as (e & He & Hn). apply replace_none in R.
      rewrite Forall_forall in R. rewrite (R e He) in Hn. discriminate.
  - rewrite entry_names_app. unfold entry_names at 2. simpl. rewrite Ek. simpl.
    now rewrite app_nil_r.
Qed.

Lemma recorded_from_known known entries node :
  incl (keyframes [node]) known ->
  from_known known entries -> from_known known (recorded entries node).
Proof.
  intros I F. destruct node as [p d|kw p d t|l m]; simpl; try exact F.
  destruct (String.eqb kw "media"); [exact F|].
  unfold keyframes in I. simpl in I.
  destruct (String.eqb kw "keyframes") eqn:Ek.
  - assert (Hin : In (keyframe_name p, t) known) by (apply I; now left).
    destruct (replace_keyframe (keyframe_name p) t entries) as [l'|] eqn:R.
    + apply replace_shape in R. unfold from_known in *.
      induction R as [|x y l l' H F2 IH]; [constructor|].
      inversion F; subst. constructor; [|auto].
      destruct H as [->|[A ->]]; [assumption|]. simpl. intros _.
      apply named_iff in A. destruct A as [_ A].
      exists (keyframe_name p). auto.
    + apply Forall_app. split; [exact F|]. constructor; [|constructor].
      simpl. intros _. exists (keyframe_name p). auto.
  - apply Forall_app. split; [exact F|]. constructor; [|constructor].
    simpl. intros K. rewrite K in Ek. discriminate.
Qed.

Lemma fold_recorded_invariants known ss : forall entries,
  incl (keyframes ss) known ->
  NoDup (entry_names entries) -> from_known known entries ->
  NoDup (entry_names (fold_left recorded ss entries))
  /\ from_known known (fold_left recorded ss entries).
Proof.
  induction ss as [|node ss IH]; intros entries I N F; [now split|].
  cbn [fold_left]. rewrite keyframes_cons in I.
  apply IH.
  - intros x Hx. apply I. apply in_or_app. now right.
  - now apply recorded_distinct.
  - apply recorded_from_known; [|exact F].
    intros x Hx. apply I. apply in_or_app. now left.
Qed.

(** ** The deduplication of [generate_output] on distinct keys *)

Lemma deduplicate_distinct rest : forall seen acc,
  (forall k, In k (OD.keys seen) -> In k (dedup_keys acc)) ->
  NoDup (dedup_keys (acc ++ rest)) ->
  Output.deduplicate rest seen acc = (acc ++ rest)%list.
Proof.
  induction rest as [|e rest IH]; intros seen acc S N; simpl.
  - now rewrite app_nil_r.
  - change (e :: rest) with ([e] ++ rest)%list in N. rewrite app_assoc in N.
    assert (Plain : forall seen',
               (forall k, In k (OD.keys seen') -> In k (dedup_keys (acc ++ [e]))) ->
               Output.deduplicate rest seen' (acc ++ [e]) = (acc ++ e :: rest)%list).
    { intros seen' S'. rewrite IH by assumption. now rewrite <- app_assoc. }
    assert (Keep : forall k, In k (OD.keys seen) -> In k (dedup_keys (acc ++ [e]))).
    { intros k Hk. rewrite dedup_keys_app. apply in_or_app. left. auto. }
    destruct (String.eqb (keyword e) "keyframes") eqn:K; [|now apply Plain].
    destruct (is_empty (Output.keyframe_key e)) eqn:E; simpl; [now apply Plain|].
    assert (Fresh : ~ In (Output.keyframe_key e) (dedup_keys acc)).
    { rewrite !dedup_keys_app in N. apply NoDup_app_remove_r in N.
      assert (Q : dedup_keys [e] = [Output.keyframe_key e])
        by (unfold dedup_keys; simpl; now rewrite K, E).
      rewrite Q in N. apply NoDup_remove_2 in N. now rewrite app_nil_r in N. }
    destruct (OD.get (Output.keyframe_key e) seen) as [idx|] eqn:G.
    + elim Fresh. apply S. eapply get_in_keys; eauto.
    + apply Plain. intros k Hk. apply in_keys_set in Hk.
      rewrite dedup_keys_app. apply in_or_app.
      destruct Hk as [->|Hk]; [right | left; auto].
      unfold dedup_keys. simpl. rewrite K, E. simpl. now left.
Qed.

Lemma in_dedup_keys k l :
  In k (dedup_keys l) ->
  exists e, In e l /\ keyword e = "keyframes" /\ Output.keyframe_key e = k
            /\ is_empty k = false.
Proof.
  unfold dedup_keys. rewrite in_flat_map. intros (e & He & H).
  destruct (String.eqb (keyword e) "keyframes") eqn:K; [|destruct H].
  destruct (is_empty (Output.keyframe_key e)) eqn:E; [destruct H|].
  destruct H as [<-|[]]. exists e. apply String.eqb_eq in K. auto.
Qed.

(** The key of a keyframes entry: its name, or what the fallback finds. *)
Lemma key_of_named e n :
  name e = Some n -> is_empty (Output.keyframe_key e) = false ->
  (is_empty n = false /\ Output.keyframe_key e = n)
  \/ (n = "" /\ Output.match_keyframes_name (content e) = Some (Output.keyframe_key e)).
Proof.
  unfold Output.keyframe_key. intros -> H.
  destruct n as [|a n]; simpl in *; [right | left; auto].
  split; [reflexivity|].
  destruct (Output.match_keyframes_name (content e)); [reflexivity | discriminate].
Qed.

Lemma fresh_fallback ss n t k :
  fallback_is_fresh ss = true ->
  In (n, t) (keyframes ss) -> n = "" ->
  Output.match_keyframes_name t = Some k ->
  ~ In k (map fst (keyframes ss)).
Proof.
  unfold fallback_is_fresh. rewrite forallb_forall.
  intros F Hin -> M Hk. specialize (F _ Hin). simpl in F. rewrite M in F.
  apply negb_true_iff in F.
  assert (existsb (String.eqb k) (map fst (keyframes ss)) = true).
  { apply existsb_exists. exists k. split; [exact Hk | apply String.eqb_refl]. }
  congruence.
Qed.

Lemma distinct_dedup_keys ss entries :
  fallback_is_fresh ss = true ->
  NoDup (entry_names entries) -> from_known (keyframes ss) entries ->
  NoDup (dedup_keys entries).
Proof.
  intros Fr. induction entries as [|e entries IH]; intros N F; [constructor|].
  change (e :: entries) with ([e] ++ entries)%list in *.
  rewrite entry_names_app in N. rewrite dedup_keys_app.
  inversion F as [|? ? Fe Fl]; subst.
  assert (Nl : NoDup (entry_names entries)) by (eapply NoDup_app_remove_l; eauto).
  specialize (IH Nl Fl).
  unfold dedup_keys at 1. simpl. rewrite app_nil_r.
  destruct (String.eqb (keyword e) "keyframes") eqn:K; [|exact IH].
  destruct (is_empty (Output.keyframe_key e)) eqn:E; [exact IH|]. simpl.
  constructor; [|exact IH].
  intros Hin. apply in_dedup_keys in Hin.
  destruct Hin as (e' & He' & K' & Q & E').
  apply String.eqb_eq in K.
  destruct (Fe K) as (n & Hn & Kn).
  rewrite Forall_forall in Fl. destruct (Fl e' He' K') as (n' & Hn' & Kn').
  assert (Dn : n <> n').
  { intros <-. unfold entry_names at 1 in N. simpl in N.
    rewrite K in N. simpl in N. rewrite Hn in N. inversion N; subst.
    apply H1. apply in_entry_names. exists e'. split; [exact He'|].
    apply named_iff. auto. }
  rewrite <- Q in E'.
  destruct (key_of_named e Hn E) as [[_ A]|[A B]];
    destruct (key_of_named e' Hn' E') as [[_ A']|[A' B']].
  - congruence.
  - rewrite Q in B'. apply (@fresh_fallback ss _ _ _ Fr Kn' A' B').
    rewrite A. apply (in_map fst) in Kn. exact Kn.
  - rewrite <- Q in B. apply (@fresh_fallback ss _ _ _ Fr Kn A B).
    rewrite A'. apply (in_map fst) in Kn'. exact Kn'.
  - congruence.
Qed.

Lemma fallback_is_fresh_head head tail :
  fallback_is_fresh (head ++ tail) = true -> fallback_is_fresh head = true.
Proof.
  unfold fallback_is_fresh. rewrite keyframes_app, forallb_app, andb_true_iff.
  intros [H _]. rewrite forallb_forall in H |- *.
  intros nt Hin. specialize (H nt Hin).
  destruct (is_empty (fst nt)); [|reflexivity].
  destruct (Output.match_keyframes_name (snd nt)) as [k|]; [|reflexivity].
  rewrite map_app, existsb_app in H. apply negb_true_iff in H.
  apply orb_false_iff in H. destruct H as [H _]. now rewrite H.
Qed.

(** With fresh fallback names the deduplication of [generate_output]
    leaves the entries recorded as they are. *)
Lemma deduplicated_is_recorded self0 ss :
  at_rules self0 = [] ->
  fallback_is_fresh ss = true ->
  Output.deduplicated_at_rules (process_stylesheet self0 ss)
  = fold_left recorded ss [].
Proof.
  intros E0 Fr. unfold Output.deduplicated_at_rules.
  rewrite at_rules_process_stylesheet, E0.
  destruct (@fold_recorded_invariants (keyframes ss) ss [])
    as [N F]; [apply incl_refl | constructor | constructor |].
  apply (deduplicate_distinct _ (OD.empty nat) []).
  - intros k [].
  - simpl. eapply distinct_dedup_keys; eauto.
Qed.

End Deduplication.

(** C4, as the code has it.  Take a stylesheet with a keyframes at-rule of
    name [n] at its top level, first met after [head], and let no keyframes
    at-rule without a name have a text from which the fallback pattern
    recovers the name of another one.  Then the at-rules written hold
    exactly one entry of name [n]; it stands where the first occurrence was
    put (after the entries written for [head]), and its content is the text
    of the last keyframes at-rule of that name in the stylesheet. *)
Theorem repeated_keyframes_keep_first_place_and_last_content :
  forall a s head p c t tail,
    let n := KeyframesSpec.keyframe_name p in
    let stylesheet := (head ++ AtRule "keyframes" p c t :: tail)%list in
    ~ In n (map fst (KeyframesSpec.keyframes head)) ->
    KeyframesSpec.fallback_is_fresh stylesheet = true ->
    exists last,
      KeyframesSpec.last_content n stylesheet = Some last
      /\ KeyframesSpec.single_entry n
           (List.length
              (Output.deduplicated_at_rules (process_stylesheet (new_compiler a s) head)))
           last
           (Output.deduplicated_at_rules
              (process_stylesheet (new_compiler a s) stylesheet)).
Proof.
  intros a s head p c t tail n stylesheet First Fresh.
  assert (FreshHead : KeyframesSpec.fallback_is_fresh head = true)
    by (eapply fallback_is_fresh_head; exact Fresh).
  rewrite !deduplicated_is_recorded by (assumption || reflexivity).
  set (E0 := fold_left KeyframesSpec.recorded head []).
  destruct (@fold_recorded_invariants (KeyframesSpec.keyframes head) head [])
    as [_ Known]; [apply incl_refl | constructor | constructor |].
  fold E0 in Known.
  assert (Unnamed : Forall (fun e => is_keyframe_named n e = false) E0).
  { unfold KeyframesSpec.from_known in Known. rewrite Forall_forall in Known |- *.
    intros e He. destruct (is_keyframe_named n e) eqn:Hn; [|reflexivity].
    apply named_iff in Hn. destruct Hn as [K N].
    destruct (Known e He K) as (m & Hm & Hin).
    elim First. apply (in_map fst) in Hin. simpl in Hin. congruence. }
  unfold stylesheet. rewrite fold_left_app. fold E0. cbn [fold_left].
  assert (R : KeyframesSpec.recorded E0 (AtRule "keyframes" p c t)
              = (E0 ++ [mkEntry "keyframes" (Some n) t])%list).
  { simpl. fold n. apply replace_none with (c := t) in Unnamed. now rewrite Unnamed. }
  rewrite R.
  exists (match last_of n (KeyframesSpec.keyframes tail) with
          | Some c' => c'
          | None => t
          end).
  split.
  - unfold KeyframesSpec.last_content.
    rewrite keyframes_app, keyframes_cons, !last_of_app.
    destruct (last_of n (KeyframesSpec.keyframes tail)); [reflexivity|].
    unfold KeyframesSpec.keyframes. simpl. fold n. now rewrite String.eqb_refl.
  - apply single_entry_fold.
    exists E0, [], (mkEntry "keyframes" (Some n) t). repeat split; auto.
Qed.

(** Two keyframes at-rules [a] at the top level with other at-rules around
    them: one entry [a], in the second place, with the second text. *)
Lemma repeated_keyframes_keep_first_place_and_last_content_witness :
  exists last,
    KeyframesSpec.last_content "a" KeyframesSpec.repeated_keyframes = Some last
    /\ KeyframesSpec.single_entry "a" 1 last
         (Output.deduplicated_at_rules
            (process_stylesheet (new_compiler false true)
                                KeyframesSpec.repeated_keyframes)).
Proof.
  apply (@repeated_keyframes_keep_first_place_and_last_content
           false true
           [AtRule "import" " 'x.css'" [] "@import 'x.css';"]
           " a " [] "@keyframes a { from { top: 0 } }"
           [AtRule "font-face" " " [] "@font-face { font-family: f }";
            AtRule "keyframes" " a " [] "@keyframes a { from { top: 1 } }"]).
  - vm_compute. intros H. exact H.
  - vm_compute. reflexivity.
Defined.

(** C4 fails as stated: two keyframes at-rules [a] inside a media block
    leave no entry at all, and the text written holds no keyframes. *)
Lemma nested_keyframes_leave_no_entry :
  KeyframesSpec.fallback_is_fresh KeyframesSpec.nested_keyframes = true
  /\ Output.deduplicated_at_rules
       (process_stylesheet (new_compiler false true) KeyframesSpec.nested_keyframes)
     = []
  /\ contains (compile (new_compiler false true) KeyframesSpec.nested_keyframes)
              "@keyframes" = false.
Proof. vm_compute. repeat split. Qed.

(* ================================================================== *)
(** * Last declaration wins *)
(* ================================================================== *)

Section LastWins.

Import StoreSpec.

Lemma overridden_nil name earlier : overridden name [] earlier = earlier.
Proof. reflexivity. Qed.



Lemma last_of_nodup (V : Type) k (l : list (string * V)) :
  NoDup (OD.keys l) -> last_of k l = OD.get k l.
Proof.
  induction l as [|[k' v] l IH]; intros N; simpl; [reflexivity|].
  inversion N; subst. rewrite IH by assumption.
  destruct (String.eqb_spec k' k); [|now destruct (OD.get k l)].
  subst k'. apply get_none_iff in H1. now rewrite H1.
Qed.

(** ** Texts without the empty comment *)





(** ** The properties of a block *)






(** ** One rule receives the properties of a block *)




End LastWins.

Section StoredDeclarations.

Import StoreSpec.







End StoredDeclarations.




(** X1. Every selector returned by [split_selectors] is non-empty and
    carries no white space at its ends; trimming is idempotent. *)
Theorem split_selectors_yields_trimmed_selectors :
  (forall s, strip (strip s) = strip s)
  /\ forall selector,
      Forall (fun sel => is_empty sel = false /\ strip sel = sel)
             (split_selectors selector).
Proof.
  split; [apply strip_strip|].
  intros selector.
  rewrite split_selectors_kept. apply kept_trimmed.
Qed.

(* ================================================================== *)
(** * Splitting what was split *)
(* ================================================================== *)

Section Resplit.

Import ScanSpec.

Lemma read_prev prev prev' c k :
  unescaped prev = unescaped prev' -> Scanner.read prev c k = Scanner.read prev' c k.
Proof. intros H. unfold Scanner.read, Scanner.toggle. now rewrite H. Qed.

Lemma marks_prev prev prev' k s :
  unescaped prev = unescaped prev' ->
  Scanner.marks prev k s = Scanner.marks prev' k s.
Proof.
  intros H. destruct s as [|c s]; [reflexivity|].
  cbn [Scanner.marks]. now rewrite (read_prev _ _ c k H).
Qed.

Lemma marks_app a : forall prev k b,
  Scanner.marks prev k (a ++ b)
  = (Scanner.marks prev k a
     ++ Scanner.marks (last_char prev a) (state_after prev k a) b)%list.
Proof.
  induction a as [|c a IH]; intros prev k b; [reflexivity|].
  cbn [append Scanner.marks last_char state_after app]. now rewrite IH.
Qed.

Lemma state_after_app a : forall prev k b,
  state_after prev k (a ++ b)
  = state_after (last_char prev a) (state_after prev k a) b.
Proof.
  induction a as [|c a IH]; intros prev k b; [reflexivity|].
  cbn [append last_char state_after]. now rewrite IH.
Qed.

Lemma last_char_app a : forall prev b,
  last_char prev (a ++ b) = last_char (last_char prev a) b.
Proof.
  induction a as [|c a IH]; intros prev b; [reflexivity|].
  cbn [append last_char]. now rewrite IH.
Qed.

Lemma unmarked_app a b : unmarked (a ++ b) = (unmarked a ++ unmarked b)%list.
Proof.
  induction a as [|c a IH]; [reflexivity|].
  cbn [append unmarked app]. now rewrite IH.
Qed.

Lemma unmarked_split a : forall prev k b,
  Scanner.marks prev k (a ++ b) = unmarked (a ++ b) ->
  Scanner.marks prev k a = unmarked a
  /\ Scanner.marks (last_char prev a) (state_after prev k a) b = unmarked b.
Proof.
  induction a as [|c a IH]; intros prev k b H; [now split|].
  cbn [append Scanner.marks unmarked last_char state_after] in *.
  injection H as H1 H2. apply IH in H2. destruct H2 as [H2 H3].
  split; [now rewrite H1, H2 | exact H3].
Qed.

Lemma pieces_unmarked s : forall cur m,
  Scanner.pieces cur (unmarked s ++ m) = Scanner.pieces (cur ++ s) m.
Proof.
  induction s as [|c s IH]; intros cur m.
  - cbn [unmarked app]. f_equal. clear. induction cur; simpl; congruence.
  - cbn [unmarked app Scanner.pieces]. rewrite IH. f_equal.
    clear. induction cur; simpl; congruence.
Qed.

(** White space leaves the scanner as it is. *)
Lemma space_is_plain c :
  is_space c = true ->
  is_quote c = false /\ is_opener c = false /\ is_closer c = false
  /\ is_comma c = false /\ Ascii.eqb c backslash = false.
Proof.
  destruct c as [[] [] [] [] [] [] [] []]; intros H;
    try discriminate H; repeat split.
Qed.

Lemma read_space prev c k :
  is_space c = true -> Scanner.read prev c k = k /\ Scanner.split_point c k = false.
Proof.
  intros H. destruct (@space_is_plain c H) as (Q & O & C & M & _).
  unfold Scanner.read, Scanner.toggle, Scanner.nest, Scanner.split_point.
  rewrite Q, O, C, M. simpl. split; [now destruct (Scanner.in_string k) | reflexivity].
Qed.

Lemma blank_scan w : forall prev k,
  blank w = true ->
  unescaped prev = true ->
  Scanner.marks prev k w = unmarked w
  /\ state_after prev k w = k
  /\ unescaped (last_char prev w) = true.
Proof.
  induction w as [|c w IH]; intros prev k B U; [now repeat split|].
  cbn [blank] in B. apply andb_true_iff in B. destruct B as [Hc B].
  destruct (@read_space prev c k Hc) as [R S].
  cbn [Scanner.marks unmarked state_after last_char]. rewrite R, S.
  destruct (IH (Some c) k B) as (M & A & L).
  - simpl. destruct (@space_is_plain c Hc) as (_ & _ & _ & _ & E). now rewrite E.
  - now rewrite M.
Qed.

Lemma lstrip_prefix s : exists w, blank w = true /\ s = w ++ lstrip s.
Proof.
  induction s as [|c s (w & B & E)]; [now exists ""|].
  cbn [lstrip]. destruct (is_space c) eqn:Hc.
  - exists (String c w). cbn [blank append]. rewrite Hc, B. split; [reflexivity|].
    now rewrite <- E.
  - now exists "".
Qed.

Lemma blank_rstrip s : blank s = true -> rstrip s = "".
Proof.
  induction s as [|c s IH]; [reflexivity|].
  cbn [blank rstrip]. intros B. apply andb_true_iff in B. destruct B as [Hc B].
  now rewrite Hc, IH.
Qed.

Lemma rstrip_suffix s : exists w, blank w = true /\ s = rstrip s ++ w.
Proof.
  induction s as [|c s (w & B & E)]; [now exists ""|].
  cbn [rstrip]. destruct (is_space c && is_empty (rstrip s)) eqn:Hc.
  - apply andb_true_iff in Hc. destruct Hc as [Hc He].
    apply is_empty_true in He. rewrite He in E. cbn [append] in E.
    exists (String c s). cbn [blank append]. rewrite Hc. split; [|reflexivity].
    cbn [andb]. now rewrite E.
  - exists w. cbn [append]. split; [exact B | now rewrite <- E].
Qed.

Lemma read_settled prev c k : settled k -> settled (Scanner.read prev c k).
Proof.
  destruct k as [d i q].
  unfold settled, Scanner.read, Scanner.toggle, Scanner.nest. simpl.
  intros S.
  destruct (is_quote c && unescaped prev); destruct i; simpl;
    try destruct (same_quote q c); simpl;
    try destruct (is_opener c); simpl;
    try destruct (is_closer c); simpl;
    intros H; try discriminate H; auto.
Qed.

Lemma split_point_start c k :
  settled k -> Scanner.split_point c k = true ->
  k = Scanner.start /\ (forall prev, Scanner.read prev c k = k)
  /\ unescaped (Some c) = true.
Proof.
  unfold Scanner.split_point. intros S H.
  apply andb_true_iff in H. destruct H as [H I].
  apply andb_true_iff in H. destruct H as [M D].
  apply negb_true_iff in I. apply Z.eqb_eq in D.
  unfold is_comma in M. apply Ascii.eqb_eq in M. subst c.
  destruct k as [d i q]. unfold settled in S. simpl in *. subst d i.
  specialize (S eq_refl). subst q.
  repeat split.
Qed.

Lemma pieces_are_whole s : forall cur prev k,
  settled k ->
  Scanner.marks None Scanner.start cur = unmarked cur ->
  state_after None Scanner.start cur = k ->
  unescaped prev = unescaped (last_char None cur) ->
  Forall (fun p => Scanner.marks None Scanner.start p = unmarked p)
         (Scanner.pieces cur (Scanner.marks prev k s)).
Proof.
  induction s as [|c s IH]; intros cur prev k S M A U.
  - repeat constructor. exact M.
  - cbn [Scanner.marks Scanner.pieces].
    destruct (Scanner.split_point c k) eqn:P.
    + constructor; [exact M|].
      destruct (@split_point_start c k S P) as (K & R & Uc).
      rewrite R, K. apply IH; try reflexivity.
      * unfold settled. reflexivity.
      * exact Uc.
    + apply IH.
      * now apply read_settled.
      * rewrite marks_app, M. rewrite unmarked_app. f_equal.
        unfold chr. cbn [Scanner.marks unmarked]. rewrite A, P. reflexivity.
      * rewrite state_after_app, A. unfold chr. cbn [state_after].
        apply read_prev. now rewrite U.
      * rewrite last_char_app. reflexivity.
Qed.

End Resplit.

Section ResplitResult.

Import ScanSpec.

Lemma strip_is_whole p :
  Scanner.marks None Scanner.start p = unmarked p ->
  Scanner.marks None Scanner.start (strip p) = unmarked (strip p).
Proof.
  intros H.
  destruct (rstrip_suffix p) as (w2 & B2 & E2).
  rewrite E2 in H. apply unmarked_split in H. destruct H as [H _].
  destruct (lstrip_prefix (rstrip p)) as (w1 & B1 & E1).
  fold (strip p) in E1. rewrite E1 in H.
  apply unmarked_split in H. destruct H as [_ H].
  destruct (@blank_scan w1 None Scanner.start B1 eq_refl) as (_ & A & U).
  rewrite A in H. rewrite <- H. apply marks_prev. now rewrite U.
Qed.

Lemma split_whole sel :
  is_empty sel = false -> strip sel = sel ->
  Scanner.marks None Scanner.start sel = unmarked sel ->
  split_selectors sel = [sel].
Proof.
  intros E T M. rewrite split_selectors_kept, M.
  rewrite <- (app_nil_r (unmarked sel)), pieces_unmarked.
  cbn [append Scanner.pieces]. unfold Scanner.kept. cbn [map filter].
  now rewrite T, E.
Qed.

End ResplitResult.

(** X2. Splitting is idempotent on what it returns: each selector returned
    by [split_selectors] is returned alone, as it is, when it is split
    again. *)
Theorem split_selectors_is_idempotent_on_its_results :
  forall selector,
    Forall (fun sel => split_selectors sel = [sel]) (split_selectors selector).
Proof.
  intros selector. rewrite split_selectors_kept.
  assert (W := @pieces_are_whole selector "" None Scanner.start).
  specialize (W (fun _ => eq_refl) eq_refl eq_refl eq_refl).
  rewrite Forall_forall in W |- *. intros sel H.
  unfold Scanner.kept in H. apply filter_In in H. destruct H as [H E].
  apply in_map_iff in H. destruct H as (p & <- & Hp).
  apply split_whole.
  - now apply negb_true_iff.
  - apply strip_strip.
  - apply strip_is_whole. now apply W.
Qed.

(* ================================================================== *)
(** * The shape of the store *)
(* ================================================================== *)

Section StoreShapeFacts.

Import StoreShape.

Lemma forall_set_key (V : Type) (P : string * V -> Prop) k v (d : OD.t V) :
  P (k, v) -> Forall P d -> Forall P (OD.set k v d).
Proof.
  intros Pv F. induction F as [|[k0 v0] d P0 F IH]; simpl.
  - repeat constructor. exact Pv.
  - destruct (String.eqb_spec k0 k); constructor; auto. now subst k0.
Qed.

Lemma set_not_nil (V : Type) k (v : V) d : OD.set k v d <> [].
Proof. destruct d as [|[k0 v0] d]; simpl; [|destruct (String.eqb k0 k)]; discriminate. Qed.

Lemma set_properties_shape props : forall r,
  NoDup (OD.keys (CSSRule.properties r)) ->
  Forall sound_property (CSSRule.properties r) ->
  let r' := Store.set_properties props r in
  CSSRule.selector r' = CSSRule.selector r
  /\ (props <> [] \/ CSSRule.properties r <> [] -> CSSRule.properties r' <> [])
  /\ NoDup (OD.keys (CSSRule.properties r'))
  /\ Forall sound_property (CSSRule.properties r').
Proof.
  unfold Store.set_properties.
  induction props as [|[p v] props IH]; intros r N F; cbn [fold_left].
  - repeat split; auto. intros [H|H]; [now elim H | exact H].
  - destruct (IH (CSSRule.add_property p v r)) as (S & E & N' & F').
    + simpl. now apply nodup_set.
    + simpl. apply forall_set_key; [|exact F].
      split; apply strip_strip.
    + repeat split; auto. intros _. apply E. right. simpl. apply set_not_nil.
Qed.

Lemma store_one_shape props sel t :
  props <> [] -> is_empty sel = false -> strip sel = sel ->
  sound_scope t -> sound_scope (Store.store_one props sel t).
Proof.
  intros Hp He Hs [N F]. unfold Store.store_one. split; [now apply nodup_set|].
  apply forall_set_key; [|exact F].
  set (r := match OD.get sel t with Some r => r | None => CSSRule.new sel end).
  assert (R : CSSRule.selector r = sel
              /\ NoDup (OD.keys (CSSRule.properties r))
              /\ Forall sound_property (CSSRule.properties r)).
  { unfold r. destruct (OD.get sel t) as [r0|] eqn:G.
    - apply get_some_in in G. rewrite Forall_forall in F.
      destruct (F _ G) as (A & _ & _ & _ & B & C). auto.
    - simpl. repeat split; [exact Hs | constructor | constructor]. }
  destruct R as (A & B & C).
  destruct (set_properties_shape props r B C) as (S & E & N' & F').
  unfold sound_rule. simpl. repeat split; auto; try congruence.
Qed.

Lemma store_rules_shape props sels : forall t,
  props <> [] -> sound_scope t -> sound_scope (Store.store_rules sels props t).
Proof.
  unfold Store.store_rules.
  induction sels as [|sel sels IH]; intros t Hp S; [exact S|].
  cbn [fold_left]. apply IH; [exact Hp|].
  destruct (is_empty (strip sel)) eqn:E; [exact S|].
  apply store_one_shape; auto. apply strip_strip.
Qed.

Lemma process_qualified_rule_shape self p c mc :
  (forall cond, mc = Some cond -> strip cond = cond) ->
  sound_store self -> sound_store (process_qualified_rule self p c mc).
Proof.
  intros T (R & N & M).
  destruct (process_qualified_rule_store self p c mc) as (H & _).
  cbv zeta in H.
  pose proof (f_equal fst H) as Hr. pose proof (f_equal snd H) as Hm.
  cbn [fst snd] in Hr, Hm. clear H.
  unfold sound_store. rewrite Hr, Hm. clear Hr Hm.
  unfold Store.stored_after.
  destruct (is_empty (strip (serialize_tokens p)));
    [cbn [fst snd]; exact (conj R (conj N M))|].
  destruct (Store.block_properties c) as [|pv props] eqn:Ep;
    [cbn [fst snd]; exact (conj R (conj N M))|].
  assert (Hp : pv :: props <> []) by discriminate.
  destruct (target_scope mc) as [c0|] eqn:Et; cbn [fst snd].
  - assert (Hc : is_empty c0 = false /\ strip c0 = c0).
    { unfold target_scope in Et. destruct mc as [cond|]; [|discriminate].
      destruct (is_empty cond) eqn:E; [discriminate|].
      injection Et as <-. split; [exact E | now apply T]. }
    destruct Hc as [Hc1 Hc2].
    split; [exact R|]. split; [now apply nodup_set|].
    apply forall_set_key; [|exact M].
    unfold sound_media. cbn [fst snd].
    split; [exact Hc1|]. split; [exact Hc2|].
    apply store_rules_shape; [exact Hp|].
    destruct (OD.get c0 (media_queries self)) as [t|] eqn:G.
    + apply get_some_in in G. rewrite Forall_forall in M.
      now destruct (M _ G) as (_ & _ & S).
    + split; constructor.
  - split; [|exact (conj N M)].
    apply store_rules_shape; [exact Hp | exact R].
Qed.

Lemma process_node_shape self n : sound_store self -> sound_store (process_node self n).
Proof.
  intros S. destruct n as [p c|kw p children t|l m]; cbn [process_node].
  - apply process_qualified_rule_shape; [discriminate | exact S].
  - unfold process_at_rule. destruct (String.eqb kw "media").
    + assert (S' : sound_store (bump MediaQueries self)) by exact S.
      revert S'. generalize (bump MediaQueries self).
      induction children as [|child children IH]; intros s Ss; [exact Ss|].
      cbn [fold_left]. apply IH. destruct child as [p' c'| |]; auto.
      apply process_qualified_rule_shape; [|exact Ss].
      intros cond H. injection H as <-. apply strip_strip.
    + destruct (String.eqb kw "keyframes"); [|exact S].
      destruct (replace_keyframe _ _ _); exact S.
  - exact S.
Qed.

Lemma process_stylesheet_shape a s stylesheet :
  sound_store (process_stylesheet (new_compiler a s) stylesheet).
Proof.
  unfold process_stylesheet.
  assert (S : sound_store (new_compiler a s)) by (repeat split; constructor).
  revert S. generalize (new_compiler a s).
  induction stylesheet as [|n ss IH]; intros self S; [exact S|].
  cbn [fold_left]. apply IH. now apply process_node_shape.
Qed.

End StoreShapeFacts.

(** X3. Whatever the stylesheet, the store is well shaped after processing:
    in every scope each selector is stored once, as a non-empty, trimmed
    key naming its own rule; every stored rule has at least one property,
    no property twice, names and values trimmed; every media condition is
    stored once, non-empty and trimmed. *)
Theorem processed_store_is_well_shaped :
  forall a s stylesheet,
    StoreShape.sound_store (process_stylesheet (new_compiler a s) stylesheet).
Proof. exact process_stylesheet_shape. Qed.

(* ================================================================== *)
(** * Merging one rule into another *)
(* ================================================================== *)

Section Merging.

Lemma get_update (V : Type) k (items : list (string * V)) : forall d,
  OD.get k (OD.update d items)
  = match last_of k items with
    | Some v => Some v
    | None => OD.get k d
    end.
Proof.
  unfold OD.update.
  induction items as [|[k' v] items IH]; intros d; [reflexivity|].
  cbn [fold_left fst snd last_of]. rewrite IH, get_set.
  destruct (last_of k items); [reflexivity|].
  now destruct (String.eqb k' k).
Qed.

Lemma mem_set (V : Type) k k' (v : V) d :
  OD.mem k (OD.set k' v d) = String.eqb k' k || OD.mem k d.
Proof.
  unfold OD.mem. rewrite get_set. now destruct (String.eqb k' k).
Qed.

Lemma keys_update (V : Type) (items : list (string * V)) : forall d,
  NoDup (OD.keys items) ->
  OD.keys (OD.update d items)
  = (OD.keys d ++ filter (fun k => negb (OD.mem k d)) (OD.keys items))%list.
Proof.
  unfold OD.update.
  induction items as [|[k v] items IH]; intros d N.
  - simpl. now rewrite app_nil_r.
  - inversion N as [|? ? Hk N']; subst.
    cbn [fold_left fst snd]. rewrite IH by exact N'.
    rewrite keys_set. cbn [OD.keys map fst filter].
    fold (OD.keys items).
    assert (F : filter (fun k0 => negb (OD.mem k0 (OD.set k v d))) (OD.keys items)
                = filter (fun k0 => negb (OD.mem k0 d)) (OD.keys items)).
    { apply filter_ext_in. intros k0 H0. rewrite mem_set.
      destruct (String.eqb_spec k k0); [subst; contradiction | reflexivity]. }
    rewrite F. destruct (OD.mem k d); cbn [negb]; [reflexivity|].
    now rewrite <- app_assoc.
Qed.

End Merging.

(** X4. [merge_with] lets the other rule overwrite: afterwards a property
    has the value of the other rule if the other rule has it, and its own
    value otherwise; the properties keep their places and the new ones
    follow in the order of the other rule; the selector stays. *)
Theorem merge_with_lets_the_other_rule_overwrite :
  forall other r,
    NoDup (OD.keys (CSSRule.properties other)) ->
    let merged := CSSRule.merge_with other r in
    CSSRule.selector merged = CSSRule.selector r
    /\ (forall k,
           OD.get k (CSSRule.properties merged)
           = match OD.get k (CSSRule.properties other) with
             | Some v => Some v
             | None => OD.get k (CSSRule.properties r)
             end)
    /\ OD.keys (CSSRule.properties merged)
       = (OD.keys (CSSRule.properties r)
          ++ filter (fun k => negb (OD.mem k (CSSRule.properties r)))
                    (OD.keys (CSSRule.properties other)))%list.
Proof.
  intros other r N merged. unfold merged, CSSRule.merge_with. simpl.
  split; [reflexivity|]. split.
  - intros k. rewrite get_update. now rewrite last_of_nodup by exact N.
  - now apply keys_update.
Qed.

(** A rule with two properties merged with one that sets one of them anew
    and adds a third. *)
Lemma merge_with_lets_the_other_rule_overwrite_witness :
  CSSRule.properties (CSSRule.merge_with MergeSpec.other_rule MergeSpec.base_rule)
  = [("color", "blue"); ("margin", "0"); ("padding", "1px")]
  /\ OD.keys (CSSRule.properties
                (CSSRule.merge_with MergeSpec.other_rule MergeSpec.base_rule))
     = (OD.keys (CSSRule.properties MergeSpec.base_rule)
        ++ filter (fun k => negb (OD.mem k (CSSRule.properties MergeSpec.base_rule)))
                  (OD.keys (CSSRule.properties MergeSpec.other_rule)))%list.
Proof.
  split; [reflexivity|].
  apply (@merge_with_lets_the_other_rule_overwrite
           MergeSpec.other_rule MergeSpec.base_rule).
  repeat constructor; simpl; intuition discriminate.
Defined.

(* ================================================================== *)
(** * Sorting outside safe mode *)
(* ================================================================== *)

Section PlainSort.

Lemma string_leb_refl x : String.leb x x = true.
Proof. destruct (String.leb_total x x); assumption. Qed.

Lemma sort_plainly_ordered (d : OD.t CSSRule.t) :
  NoDup (OD.keys d) -> PlainSortSpec.ordered d (sort_plainly d).
Proof.
  intros N. unfold sort_plainly.
  set (sorted := sorted_by String.leb (@lower_key _) d).
  assert (Pm : Permutation sorted d) by apply sorted_by_perm.
  assert (Ns : NoDup (OD.keys sorted)).
  { eapply Permutation_NoDup; [|exact N]. symmetry. now apply Permutation_map. }
  rewrite of_items_nodup by exact Ns.
  split; [exact Pm|]. split.
  - apply strongly_sorted_map.
    apply (sorted_by_sorted String.leb (@lower_key CSSRule.t)
             String.leb_total string_leb_trans).
  - intros k. unfold OD.keys, sorted. rewrite !filter_map_comm. f_equal.
    apply sorted_by_filter.
    intros x y Hx Hy. apply String.eqb_eq in Hx, Hy.
    unfold lower_key. rewrite Hx, Hy. apply string_leb_refl.
Qed.

End PlainSort.

(** X5. With alphabetical ordering on and safe mode off, the sort keeps the
    rules of every scope and puts all their selectors, the dangerous ones
    too, in case-insensitive order; selectors that differ in case only keep
    the order they had. *)
Theorem plain_sort_orders_every_scope :
  forall stylesheet,
    let before := process_stylesheet (new_compiler true false) stylesheet in
    let after := compiled (new_compiler true false) stylesheet in
    PlainSortSpec.ordered (rules before) (rules after)
    /\ Forall2 (fun b a => fst a = fst b /\ PlainSortSpec.ordered (snd b) (snd a))
               (media_queries before) (media_queries after).
Proof.
  intros stylesheet before after.
  assert (W : Store.well_formed before)
    by apply process_stylesheet_wf, new_compiler_wf.
  destruct (process_stylesheet_flags stylesheet (new_compiler true false)) as [Fa Fs].
  fold before in Fa, Fs. simpl in Fa, Fs.
  assert (E : after = sort_rules before).
  { unfold after, compiled. fold before. now rewrite Fa. }
  rewrite E. unfold sort_rules. rewrite Fs. simpl.
  destruct W as [N F]. split; [now apply sort_plainly_ordered|].
  induction F as [|[c r] mq Hr F IH]; simpl; constructor; auto.
  split; [reflexivity|]. now apply sort_plainly_ordered.
Qed.

(* ================================================================== *)
(** * Counters and errors *)
(* ================================================================== *)

Section Counters.

Lemma same_but_stats_sym a b : Store.same_but_stats a b -> Store.same_but_stats b a.
Proof. unfold Store.same_but_stats. intros (?&?&?&?&?). repeat split; congruence. Qed.

Lemma stored_after_same a b p c mc :
  Store.same_but_stats a b ->
  Store.stored_after a p c mc = Store.stored_after b p c mc.
Proof.
  intros (_ & _ & R & _ & M). unfold Store.stored_after. now rewrite R, M.
Qed.

Lemma process_qualified_rule_same a b p c mc :
  Store.same_but_stats a b ->
  Store.same_but_stats (process_qualified_rule a p c mc)
                       (process_qualified_rule b p c mc).
Proof.
  intros S.
  destruct (process_qualified_rule_store a p c mc) as (Ha & A1 & A2 & A3).
  destruct (process_qualified_rule_store b p c mc) as (Hb & B1 & B2 & B3).
  cbv zeta in Ha, Hb. rewrite (stored_after_same p c mc S) in Ha.
  rewrite <- Hb in Ha. injection Ha as Hr Hm.
  destruct S as (S1 & S2 & _ & S4 & _).
  repeat split; congruence.
Qed.

Lemma media_children_same condition children : forall a b,
  Store.same_but_stats a b ->
  Store.same_but_stats
    (fold_left
       (fun self rule =>
          match rule with
          | QualifiedRule p c => process_qualified_rule self p c (Some condition)
          | _ => self
          end)
       children a)
    (fold_left
       (fun self rule =>
          match rule with
          | QualifiedRule p c => process_qualified_rule self p c (Some condition)
          | _ => self
          end)
       children b).
Proof.
  induction children as [|n children IH]; intros a b S; [exact S|].
  cbn [fold_left]. apply IH. destruct n as [p c| |]; auto.
  now apply process_qualified_rule_same.
Qed.

Lemma process_node_same a b n :
  Store.same_but_stats a b ->
  Store.same_but_stats (process_node a n) (process_node b n).
Proof.
  intros S. destruct n as [p c|kw p children t|l m]; cbn [process_node].
  - now apply process_qualified_rule_same.
  - unfold process_at_rule. destruct (String.eqb kw "media").
    + apply media_children_same. exact S.
    + destruct S as (S1 & S2 & S3 & S4 & S5).
      destruct (String.eqb kw "keyframes").
      * simpl. rewrite S4. destruct (replace_keyframe _ _ _); repeat split; assumption.
      * repeat split; simpl; congruence.
  - exact S.
Qed.

Lemma process_stylesheet_same ss : forall a b,
  Store.same_but_stats a b ->
  Store.same_but_stats (process_stylesheet a ss) (process_stylesheet b ss).
Proof.
  unfold process_stylesheet.
  induction ss as [|n ss IH]; intros a b S; [exact S|].
  cbn [fold_left]. apply IH. now apply process_node_same.
Qed.

Lemma generate_output_same a b :
  Store.same_but_stats a b -> generate_output a = generate_output b.
Proof.
  intros (_ & _ & R & A & M).
  unfold generate_output, output, Output.at_rules_section,
    Output.deduplicated_at_rules, Output.root_section, Output.root_rules,
    Output.base_section, Output.base_rules, Output.main_section, Output.main_rules,
    Output.root_rules, Output.base_rules,
    Media.media_section, Media.sections, Media.merged_queries.
  now rewrite R, A, M.
Qed.

Lemma compile_same a b ss :
  Store.same_but_stats a b -> compile a ss = compile b ss.
Proof.
  intros S. unfold compile, compiled.
  pose proof (process_stylesheet_same ss S) as P.
  destruct P as (P1 & P2 & P3 & P4 & P5).
  rewrite P1. destruct (alphabetical_order (process_stylesheet b ss)) eqn:Eb.
  - apply generate_output_same. unfold sort_rules. rewrite P2, P3, P5.
    repeat split; simpl; congruence.
  - apply generate_output_same. repeat split; congruence.
Qed.

Lemma compile_from_same self n n' head tail :
  Store.same_but_stats (process_node (process_stylesheet self head) n)
                       (process_stylesheet (process_stylesheet self head) n') ->
  compile self (head ++ n :: tail) = compile self (head ++ n' ++ tail).
Proof.
  intros S. unfold compile, compiled.
  assert (P : Store.same_but_stats (process_stylesheet self (head ++ n :: tail))
                                   (process_stylesheet self (head ++ n' ++ tail))).
  { unfold process_stylesheet in *. rewrite !fold_left_app. cbn [fold_left].
    apply (process_stylesheet_same tail). exact S. }
  destruct P as (P1 & P2 & P3 & P4 & P5).
  rewrite P1.
  destruct (alphabetical_order (process_stylesheet self (head ++ n' ++ tail))) eqn:Eb.
  - apply generate_output_same. unfold sort_rules. rewrite P2, P3, P5.
    repeat split; simpl; congruence.
  - apply generate_output_same. repeat split; congruence.
Qed.

Lemma block_properties_skip_error before after :
  Store.block_properties (before ++ DeclarationError :: after)
  = Store.block_properties (before ++ after).
Proof.
  unfold Store.block_properties, Store.block_properties_from.
  now rewrite !fold_left_app.
Qed.

Lemma process_qualified_rule_skip_error s0 p before after mc :
  Store.same_but_stats
    (process_qualified_rule s0 p (before ++ DeclarationError :: after) mc)
    (process_qualified_rule s0 p (before ++ after) mc).
Proof.
  destruct (process_qualified_rule_store s0 p (before ++ DeclarationError :: after) mc)
    as (Ha & A1 & A2 & A3).
  destruct (process_qualified_rule_store s0 p (before ++ after) mc)
    as (Hb & B1 & B2 & B3).
  cbv zeta in Ha, Hb.
  assert (E : Store.stored_after s0 p (before ++ DeclarationError :: after) mc
              = Store.stored_after s0 p (before ++ after) mc).
  { unfold Store.stored_after. now rewrite block_properties_skip_error. }
  rewrite E, <- Hb in Ha. injection Ha as Hr Hm.
  repeat split; congruence.
Qed.

End Counters.

(** X6. The text written does not depend on the counters; a parse error
    among the nodes and an error among the declarations of a rule, at the
    top level or in a media block, change nothing of what is written (they
    only count). *)
Theorem errors_and_counters_leave_the_text :
  (forall self s stylesheet,
      compile (with_stats s self) stylesheet = compile self stylesheet)
  /\ (forall self head tail l m,
         compile self (head ++ ParseError l m :: tail) = compile self (head ++ tail))
  /\ (forall self head tail p before after,
         compile self
           (head ++ QualifiedRule p (before ++ DeclarationError :: after) :: tail)
         = compile self (head ++ QualifiedRule p (before ++ after) :: tail))
  /\ (forall self head tail condition text first rest p before after,
         compile self
           (head
            ++ AtRule "media" condition
                 (first ++ QualifiedRule p (before ++ DeclarationError :: after)
                        :: rest) text
            :: tail)
         = compile self
             (head
              ++ AtRule "media" condition
                   (first ++ QualifiedRule p (before ++ after) :: rest) text
              :: tail)).
Proof.
  split; [|split; [|split]].
  - intros self s stylesheet. apply compile_same. repeat split.
  - intros self head tail l m.
    apply (@compile_from_same self (ParseError l m) [] head tail).
    repeat split.
  - intros self head tail p before after.
    apply (@compile_from_same self
             (QualifiedRule p (before ++ DeclarationError :: after))
             [QualifiedRule p (before ++ after)] head tail).
    unfold process_stylesheet. cbn [fold_left process_node].
    apply process_qualified_rule_skip_error.
  - intros self head tail condition text first rest p before after.
    apply (@compile_from_same self
             (AtRule "media" condition
                (first ++ QualifiedRule p (before ++ DeclarationError :: after)
                       :: rest) text)
             [AtRule "media" condition
                (first ++ QualifiedRule p (before ++ after) :: rest) text]
             head tail).
    unfold process_stylesheet. cbn [fold_left process_node].
    unfold process_at_rule. cbn [String.eqb Ascii.eqb Bool.eqb].
    rewrite !fold_left_app. cbn [fold_left].
    apply media_children_same, process_qualified_rule_skip_error.
Qed.

(* ================================================================== *)
(** * Partitions of a dictionary *)
(* ================================================================== *)

Section Partitions.

Lemma filter_disjoint_perm (A : Type) (p q : A -> bool) (l : list A) :
  (forall x, In x l -> p x = true -> q x = false) ->
  Permutation (filter p l ++ filter q l) (filter (fun x => p x || q x) l).
Proof.
  induction l as [|x l IH]; intros D; [constructor|].
  assert (IH' : Permutation (filter p l ++ filter q l) (filter (fun x => p x || q x) l))
    by (apply IH; intros y Hy; apply D; now right).
  cbn [filter]. destruct (p x) eqn:Px.
  - rewrite (D x) by (auto; now left). cbn [orb app]. now constructor.
  - cbn [orb]. destruct (q x).
    + rewrite <- Permutation_middle. now constructor.
    + exact IH'.
Qed.

Lemma bucket_partition (A B : Type) (f : A -> B) (eqb : B -> B -> bool)
      (bs : list B) (l : list A) :
  (forall x y, eqb x y = true <-> x = y) -> NoDup bs ->
  Permutation (flat_map (fun b => filter (fun x => eqb (f x) b) l) bs)
              (filter (fun x => existsb (eqb (f x)) bs) l).
Proof.
  intros E N. induction N as [|b bs Hb N IH]; cbn [flat_map existsb].
  - rewrite filter_none by reflexivity. constructor.
  - rewrite IH. apply filter_disjoint_perm.
    intros x _ Hx. apply E in Hx. subst b.
    destruct (existsb (eqb (f x)) bs) eqn:X; [|reflexivity].
    apply existsb_exists in X. destruct X as (y & Hy & Hxy).
    apply E in Hxy. subst y. contradiction.
Qed.

Lemma filter_key_get (V : Type) (d : OD.t V) s :
  NoDup (OD.keys d) ->
  filter (fun kv => String.eqb (fst kv) s) d
  = match OD.get s d with
    | Some r => [(s, r)]
    | None => []
    end.
Proof.
  induction d as [|[k v] d IH]; intros N; [reflexivity|].
  inversion N as [|? ? Hk N']; subst. cbn [filter fst OD.get].
  destruct (String.eqb_spec k s) as [->|Hs].
  - f_equal. apply filter_none.
    intros [k' v'] H'. simpl. apply String.eqb_neq. intros ->.
    apply Hk. now apply (in_map fst) in H'.
  - now apply IH.
Qed.

Lemma select_select (V : Type) (p : string -> bool) (d : OD.t V) :
  NoDup (OD.keys d) ->
  select p d = filter (fun kv => p (fst kv)) d
  /\ NoDup (OD.keys (select p d))
  /\ forall k, OD.mem k (select p d) = OD.mem k d && p k.
Proof.
  intros N. rewrite select_nodup by exact N.
  split; [reflexivity|]. split.
  - rewrite (keys_filter p). now apply nodup_filter.
  - intros k. unfold OD.mem.
    destruct (OD.get k (filter (fun kv => p (fst kv)) d)) as [v|] eqn:G.
    + apply get_some_in in G. apply filter_In in G. destruct G as [G Pk].
      simpl in Pk. rewrite Pk. now rewrite (in_get _ _ _ N G).
    + destruct (OD.get k d) as [v|] eqn:G'; [|reflexivity].
      destruct (p k) eqn:Pk; [|reflexivity].
      apply get_some_in in G'.
      apply get_none_iff in G. elim G. rewrite (keys_filter p).
      apply filter_In. split; [now apply (in_map fst) in G' | exact Pk].
Qed.

End Partitions.

(* ================================================================== *)
(** * The top-level sections *)
(* ================================================================== *)

Section TopLevel.

Import LayoutSpec.

Lemma sort_rules_wf self : Store.well_formed self -> Store.well_formed (sort_rules self).
Proof.
  intros [N F]. unfold sort_rules.
  assert (S : forall d, NoDup (OD.keys d) ->
                        NoDup (OD.keys ((if safe_mode self then sort_safely
                                         else sort_plainly) d))).
  { intros d Nd. destruct (safe_mode self).
    - destruct (@sort_safely_ordered d Nd) as [P _].
      eapply Permutation_NoDup; [|exact Nd]. symmetry. now apply Permutation_map.
    - destruct (@sort_plainly_ordered d Nd) as [P _].
      eapply Permutation_NoDup; [|exact Nd]. symmetry. now apply Permutation_map. }
  split; simpl; [now apply S|].
  induction F as [|[c r] mq Hr F IH]; simpl; constructor; auto.
  simpl. now apply S.
Qed.

Lemma compiled_wf a s ss : Store.well_formed (compiled (new_compiler a s) ss).
Proof.
  unfold compiled.
  assert (W : Store.well_formed (process_stylesheet (new_compiler a s) ss))
    by apply process_stylesheet_wf, new_compiler_wf.
  destruct (alphabetical_order _); [now apply sort_rules_wf | exact W].
Qed.

Lemma root_is_not_base k :
  startswith k ":root" = true ->
  Output.in_list k Output.base_selectors || startswith k "::" = false.
Proof.
  unfold startswith. intros H.
  destruct k as [|c1 k]; [discriminate H|].
  rewrite prefix_cons in H. destruct (Ascii.eqb_spec ":"%char c1); [subst c1|discriminate H].
  destruct k as [|c2 k]; [discriminate H|].
  rewrite prefix_cons in H. destruct (Ascii.eqb_spec "r"%char c2); [subst c2|discriminate H].
  rewrite !prefix_cons. reflexivity.
Qed.

Lemma group_eqb_eq x y : Output.group_eqb x y = true <-> x = y.
Proof. destruct x, y; simpl; split; congruence. Qed.

Lemma flat_map_if_filter (A B : Type) (p : A -> bool) (f : A -> B) l :
  flat_map (fun x => if p x then [] else [f x]) l
  = map f (filter (fun x => negb (p x)) l).
Proof.
  induction l as [|x l IH]; [reflexivity|].
  cbn [flat_map filter]. destruct (p x); cbn [negb map app]; now rewrite IH.
Qed.

Lemma top_level_partition self :
  NoDup (OD.keys (rules self)) ->
  Permutation (top_level_written self) (rules self).
Proof.
  intros N. unfold top_level_written.
  set (pr := fun k => startswith k ":root").
  set (pb := fun k => Output.in_list k Output.base_selectors || startswith k "::").
  destruct (@select_select _ pr (rules self) N) as (Er & Nr & Mr).
  destruct (@select_select _ pb (rules self) N) as (Eb & Nb & Mb).
  change (select pr (rules self)) with (Output.root_rules self) in Er, Nr, Mr.
  change (select pb (rules self)) with (Output.base_rules self) in Eb, Nb, Mb.
  assert (Em : Output.main_rules self
               = filter (fun kv => negb (pr (fst kv)) && negb (pb (fst kv))) (rules self)).
  { unfold Output.main_rules. rewrite select_nodup by exact N.
    apply filter_ext_in. intros [k v] H. cbn [fst].
    rewrite Mr, Mb.
    assert (OD.mem k (rules self) = true) as ->
        by (apply mem_true_iff; now apply (in_map fst) in H).
    reflexivity. }
  assert (Nm : NoDup (OD.keys (Output.main_rules self))).
  { rewrite Em. rewrite (keys_filter (fun k => negb (pr k) && negb (pb k))).
    now apply nodup_filter. }
  (* the base rules *)
  assert (Pb : Permutation (base_written (Output.base_rules self))
                           (Output.base_rules self)).
  { unfold base_written.
    rewrite (flat_map_ext _ (fun s => filter (fun kv => String.eqb (fst kv) s)
                                             (Output.base_rules self)))
      by (intros s; symmetry; now apply filter_key_get).
    rewrite (@bucket_partition _ _ (fun kv : string * CSSRule.t => fst kv) String.eqb);
      [|apply String.eqb_eq
       |repeat constructor; simpl; intuition discriminate].
    apply (filter_partition_perm
             (fun kv => Output.in_list (fst kv) Output.ordered_base)). }
  (* the main rules *)
  assert (Pm : Permutation (main_written (Output.main_rules self))
                           (Output.main_rules self)).
  { unfold main_written, Output.rules_group.
    rewrite (flat_map_ext _ (fun g => filter (fun kv => Output.group_eqb
                                                          (Output.group_of (fst kv)) g)
                                             (Output.main_rules self)))
      by (intros g; now apply select_nodup).
    rewrite (@bucket_partition _ _ (fun kv : string * CSSRule.t =>
                                      Output.group_of (fst kv)) Output.group_eqb);
      [|apply group_eqb_eq
       |unfold main_groups; repeat constructor; simpl; intuition discriminate].
    rewrite filter_all; [reflexivity|].
    intros [k v] _. cbn [fst]. unfold main_groups.
    destruct (Output.group_of k); reflexivity. }
  rewrite Pb, Pm, Er, Eb, Em.
  rewrite (@filter_disjoint_perm _ (fun kv => pb (fst kv))
             (fun kv => negb (pr (fst kv)) && negb (pb (fst kv)))).
  - rewrite filter_disjoint_perm.
    + rewrite filter_all; [reflexivity|].
      intros [k v] _. cbn [fst]. destruct (pr k), (pb k); reflexivity.
    + intros [k v] _ H. cbn [fst] in *. unfold pr, pb in *.
      rewrite (root_is_not_base k H), H. reflexivity.
  - intros [k v] _ H. cbn [fst] in *. rewrite H. apply andb_false_r.
Qed.

Lemma sections_text self :
  (Output.root_section self ++ Output.base_section self ++ Output.main_section self)%list
  = (section_text "/* ===== VARIABLES CSS ===== */" Output.write_rule
       (Output.root_rules self) (Output.root_rules self)
     ++ section_text "/* ===== RESET ET BASE ===== */" Output.write_rule
          (Output.base_rules self) (base_written (Output.base_rules self))
     ++ section_text ("/* ===== R" ++ Output.E_grave ++ "GLES PRINCIPALES ===== */")
          Output.write_main_rule
          (Output.main_rules self) (main_written (Output.main_rules self)))%list.
Proof.
  f_equal; [|f_equal].
  - unfold Output.root_section, section_text. now destruct (Output.root_rules self).
  - unfold Output.base_section, section_text, base_written.
    destruct (Output.base_rules self) as [|kv base] eqn:E; [reflexivity|].
    f_equal. rewrite map_app. f_equal.
    + unfold Output.ordered_base. cbn [flat_map]. rewrite !app_nil_r, !map_app.
      repeat (f_equal; [now destruct (OD.get _ _)|]).
      now destruct (OD.get _ _).
    + apply (flat_map_if_filter
               (fun kv => Output.in_list (fst kv) Output.ordered_base)
               (fun kv => Output.write_rule (snd kv))).
  - unfold Output.main_section, section_text, main_written.
    destruct (Output.main_rules self) as [|kv main] eqn:E; [reflexivity|].
    f_equal. unfold main_groups. cbn [flat_map]. now rewrite !app_nil_r, !map_app.
Qed.

End TopLevel.

(** X7. Every top-level rule of the store is written exactly once: the
    rules written under the root variables, the base rules (those of the
    fixed list first, in its order) and the main rules (headings, elements,
    classes, ids, pseudo-selectors) are, together, the rules of the store
    in another order, and the three sections are the text of these rules
    under their titles. *)
Theorem every_top_level_rule_is_written_once :
  forall a s stylesheet,
    let self := compiled (new_compiler a s) stylesheet in
    Permutation (LayoutSpec.top_level_written self) (rules self)
    /\ NoDup (map fst (LayoutSpec.top_level_written self))
    /\ (Output.root_section self ++ Output.base_section self
        ++ Output.main_section self)%list
       = (LayoutSpec.section_text "/* ===== VARIABLES CSS ===== */" Output.write_rule
            (Output.root_rules self) (Output.root_rules self)
          ++ LayoutSpec.section_text "/* ===== RESET ET BASE ===== */" Output.write_rule
               (Output.base_rules self)
               (LayoutSpec.base_written (Output.base_rules self))
          ++ LayoutSpec.section_text
               ("/* ===== R" ++ Output.E_grave ++ "GLES PRINCIPALES ===== */")
               Output.write_main_rule
               (Output.main_rules self)
               (LayoutSpec.main_written (Output.main_rules self)))%list.
Proof.
  intros a s stylesheet self.
  destruct (compiled_wf a s stylesheet) as [N _]. fold self in N.
  pose proof (top_level_partition self N) as P.
  split; [exact P|]. split; [|apply sections_text].
  eapply Permutation_NoDup; [|exact N]. symmetry. now apply Permutation_map.
Qed.

(* ================================================================== *)
(** * Merging the media queries *)
(* ================================================================== *)

Section MergedQueries.

Import MergedSpec.

Lemma merged_queries_fold self :
  Media.merged_queries self = fold_left merge_step (media_queries self) (OD.empty _).
Proof.
  unfold Media.merged_queries. generalize (OD.empty (OD.t CSSRule.t)).
  induction (media_queries self) as [|cr mq IH]; intros merged; [reflexivity|].
  cbn [fold_left]. rewrite <- IH. f_equal.
  unfold merge_step, merged_scope, OD.setdefault.
  destruct (OD.get (Media.normalize (fst cr)) merged); [reflexivity|].
  apply set_set.
Qed.

Lemma in_list_mem (V : Type) k (d : OD.t V) : Output.in_list k (OD.keys d) = OD.mem k d.
Proof.
  unfold Output.in_list. destruct (OD.mem k d) eqn:M.
  - apply mem_true_iff in M. apply existsb_exists. exists k.
    split; [exact M | apply String.eqb_refl].
  - destruct (existsb (String.eqb k) (OD.keys d)) eqn:X; [|reflexivity].
    apply existsb_exists in X. destruct X as (y & Hy & E).
    apply String.eqb_eq in E. subst y. apply mem_true_iff in Hy. congruence.
Qed.

Lemma keys_merge_fold mq : forall merged,
  OD.keys (fold_left merge_step mq merged)
  = first_occurrences_from (OD.keys merged) (map (fun cr => Media.normalize (fst cr)) mq).
Proof.
  induction mq as [|cr mq IH]; intros merged; [reflexivity|].
  cbn [fold_left map first_occurrences_from]. rewrite IH. f_equal.
  unfold merge_step. now rewrite keys_set, in_list_mem.
Qed.

Lemma nodup_merge_fold mq : forall merged,
  NoDup (OD.keys merged) -> NoDup (OD.keys (fold_left merge_step mq merged)).
Proof.
  induction mq as [|cr mq IH]; intros merged N; [exact N|].
  cbn [fold_left]. apply IH. unfold merge_step. now apply nodup_set.
Qed.

Lemma nodup_merged self : NoDup (OD.keys (Media.merged_queries self)).
Proof. rewrite merged_queries_fold. apply nodup_merge_fold. constructor. Qed.

(** ** The rules of one merged scope *)

Lemma get_merge_rules sel rules : forall scope,
  NoDup (OD.keys rules) ->
  OD.get sel (Media.merge_rules rules scope)
  = match OD.get sel rules with
    | Some r => Some (match OD.get sel scope with
                      | Some existing => CSSRule.merge_with r existing
                      | None => r
                      end)
    | None => OD.get sel scope
    end.
Proof.
  unfold Media.merge_rules.
  induction rules as [|[s r] rules IH]; intros scope N; [reflexivity|].
  inversion N as [|? ? Hs N']; subst.
  cbn [fold_left fst snd OD.get]. rewrite IH by exact N'.
  destruct (String.eqb_spec s sel) as [->|Hn].
  - apply get_none_iff in Hs. rewrite Hs.
    destruct (OD.get sel scope); now rewrite get_set_same.
  - destruct (OD.get sel rules); [|destruct (OD.get s scope); now rewrite get_set_other].
    destruct (OD.get s scope); now rewrite get_set_other.
Qed.

Lemma property_of_merge_rules k sel rules scope :
  StoreShape.sound_scope rules ->
  StoreSpec.property_of k (OD.get sel (Media.merge_rules rules scope))
  = match StoreSpec.property_of k (OD.get sel rules) with
    | Some v => Some v
    | None => StoreSpec.property_of k (OD.get sel scope)
    end.
Proof.
  intros [N F]. rewrite get_merge_rules by exact N.
  destruct (OD.get sel rules) as [r|] eqn:G; [|reflexivity].
  apply get_some_in in G. rewrite Forall_forall in F.
  destruct (F _ G) as (_ & _ & _ & _ & Np & _). cbn [snd] in Np.
  destruct (OD.get sel scope) as [e|]; cbn [StoreSpec.property_of].
  - unfold CSSRule.merge_with. cbn [CSSRule.properties].
    rewrite get_update, last_of_nodup by exact Np. reflexivity.
  - now destruct (OD.get k (CSSRule.properties r)).
Qed.

Lemma merged_property_fold n sel k mq : forall merged,
  Forall StoreShape.sound_media mq ->
  StoreSpec.property_of k (OD.get sel (merged_scope (fold_left merge_step mq merged) n))
  = last_stored_from n sel k mq
      (StoreSpec.property_of k (OD.get sel (merged_scope merged n))).
Proof.
  unfold last_stored_from.
  induction mq as [|cr mq IH]; intros merged F; [reflexivity|].
  inversion F as [|? ? Hcr F']; subst.
  cbn [fold_left]. rewrite IH by exact F'. f_equal.
  unfold merge_step, merged_scope at 1. rewrite get_set.
  destruct (String.eqb_spec (Media.normalize (fst cr)) n) as [->|Hn]; [|reflexivity].
  apply property_of_merge_rules. apply Hcr.
Qed.

Lemma sort_rules_shape self :
  StoreShape.sound_store self -> StoreShape.sound_store (sort_rules self).
Proof.
  intros (R & N & M). unfold sort_rules.
  assert (S : forall d, StoreShape.sound_scope d ->
                        StoreShape.sound_scope
                          ((if safe_mode self then sort_safely else sort_plainly) d)).
  { intros d [Nd Fd].
    assert (P : Permutation ((if safe_mode self then sort_safely else sort_plainly) d) d).
    { destruct (safe_mode self).
      - now destruct (@sort_safely_ordered d Nd).
      - now destruct (@sort_plainly_ordered d Nd). }
    split.
    - eapply Permutation_NoDup; [|exact Nd]. symmetry. now apply Permutation_map.
    - eapply Permutation_Forall; [symmetry; exact P | exact Fd]. }
  split; [now apply S|]. cbn [media_queries with_media_queries with_rules].
  split.
  - unfold OD.keys in *. rewrite map_map. exact N.
  - clear N. induction M as [|[c r] mq Hc M IH]; simpl; constructor; auto.
    destruct Hc as (A & B & C). repeat split; auto; now apply S.
Qed.

Lemma compiled_shape a s ss : StoreShape.sound_store (compiled (new_compiler a s) ss).
Proof.
  unfold compiled.
  assert (W : StoreShape.sound_store (process_stylesheet (new_compiler a s) ss))
    by apply process_stylesheet_shape.
  destruct (alphabetical_order _); [now apply sort_rules_shape | exact W].
Qed.

End MergedQueries.

(** X8. Before the media queries are written they are merged by their
    normalised condition: the merged conditions are the normalised
    conditions of the store, each once, in the order they first occur; and
    under a merged condition a property of a selector has the value of the
    last media scope of the store, among those of that normalised condition,
    that sets it. *)
Theorem media_queries_merge_by_normalised_condition :
  forall a s stylesheet,
    let self := compiled (new_compiler a s) stylesheet in
    OD.keys (Media.merged_queries self)
    = MergedSpec.first_occurrences (map Media.normalize (OD.keys (media_queries self)))
    /\ NoDup (OD.keys (Media.merged_queries self))
    /\ forall n sel k,
        MergedSpec.merged_property self n sel k = MergedSpec.last_stored self n sel k.
Proof.
  intros a s stylesheet self. split; [|split].
  - rewrite merged_queries_fold, keys_merge_fold.
    unfold MergedSpec.first_occurrences, OD.keys. now rewrite map_map.
  - apply nodup_merged.
  - intros n sel k. unfold MergedSpec.merged_property, MergedSpec.last_stored.
    rewrite merged_queries_fold. rewrite merged_property_fold; [reflexivity|].
    apply (compiled_shape a s stylesheet).
Qed.

(* ================================================================== *)
(** * The media queries written *)
(* ================================================================== *)

Section WrittenQueries.

Import MergedSpec.

Lemma sorted_section_queries name (q : OD.t (OD.t CSSRule.t)) :
  Permutation (flat_map snd (Media.sorted_section name q)) q.
Proof.
  unfold Media.sorted_section. destruct q as [|cr q]; [constructor|].
  cbn [flat_map snd]. rewrite app_nil_r.
  unfold Media.sorted_queries. rewrite sorted_by_perm, map_map.
  rewrite (map_ext _ (fun cr => cr)) by (now intros [c r]).
  now rewrite map_id.
Qed.

Lemma plain_section_queries name (q : OD.t (OD.t CSSRule.t)) :
  flat_map snd (Media.plain_section name q) = q.
Proof.
  unfold Media.plain_section. destruct q as [|cr q]; [reflexivity|].
  cbn [flat_map snd]. now rewrite app_nil_r.
Qed.

Lemma bucket_eqb_iff x y : Media.bucket_eqb x y = true <-> x = y.
Proof. destruct x, y; simpl; split; congruence. Qed.

Lemma written_queries_partition self :
  Permutation (written_queries self)
              (filter (fun cr => negb (is_tablet (fst cr))) (Media.merged_queries self)).
Proof.
  unfold written_queries, Media.sections.
  set (merged := Media.merged_queries self).
  assert (N : NoDup (OD.keys merged)) by apply nodup_merged.
  rewrite !flat_map_app, !sorted_section_queries, !plain_section_queries.
  unfold Media.queries_of. rewrite !select_nodup by exact N.
  pose proof (@bucket_partition _ _
                (fun cr : string * OD.t CSSRule.t => Media.classify (fst cr))
                Media.bucket_eqb
                [Media.Desktop; Media.Mobile; Media.Other; Media.Preference; Media.Print]
                merged bucket_eqb_iff) as P.
  cbn [flat_map] in P. rewrite app_nil_r in P. rewrite P.
  - rewrite (filter_ext _ (fun cr => negb (is_tablet (fst cr)))); [reflexivity|].
    intros [c r]. unfold is_tablet. cbn [fst]. now destruct (Media.classify c).
  - repeat constructor; simpl; intuition discriminate.
Qed.

End WrittenQueries.

(** X9. The media queries written, over all sections, are the merged
    queries that are not classified as tablet, each exactly once: no
    condition is written twice, none but the tablet ones is left out, and
    the media part of the text is the title followed by these sections. *)
Theorem media_queries_written_once_except_tablet :
  forall self,
    Permutation (MergedSpec.written_queries self)
                (filter (fun cr => negb (MergedSpec.is_tablet (fst cr)))
                        (Media.merged_queries self))
    /\ NoDup (map fst (MergedSpec.written_queries self))
    /\ Media.media_section self
       = match media_queries self with
         | [] => []
         | _ => ("/* ===== MEDIA QUERIES ===== */" ++ nl)
                  :: flat_map Media.write_section (Media.sections self)
         end.
Proof.
  intros self. pose proof (written_queries_partition self) as P.
  split; [exact P|]. split; [|reflexivity].
  eapply Permutation_NoDup; [symmetry; apply Permutation_map; exact P|].
  fold (OD.keys (filter (fun cr => negb (MergedSpec.is_tablet (fst cr)))
                        (Media.merged_queries self))).
  rewrite (keys_filter (fun c => negb (MergedSpec.is_tablet c))).
  apply nodup_filter, nodup_merged.
Qed.

(* ================================================================== *)
(** * The final clean-up *)
(* ================================================================== *)

Section CleanUp.

Import CleanSpec.

Lemma append_empty s : s ++ "" = s.
Proof. induction s as [|c s IH]; simpl; congruence. Qed.

Lemma without_newlines_app a b :
  without_newlines (a ++ b) = without_newlines a ++ without_newlines b.
Proof.
  induction a as [|c a IH]; [reflexivity|].
  cbn [append without_newlines]. destruct (Ascii.eqb c newline); simpl; now rewrite IH.
Qed.

Lemma without_newlines_line_feeds run : without_newlines (line_feeds run) = "".
Proof. destruct run as [|[|run]]; reflexivity. Qed.

Lemma without_newlines_collapse s : forall run,
  without_newlines (collapse_from run s) = without_newlines s.
Proof.
  induction s as [|c s IH]; intros run; cbn [collapse_from].
  - apply without_newlines_line_feeds.
  - cbn [without_newlines]. destruct (Ascii.eqb c newline) eqn:E; [apply IH|].
    rewrite without_newlines_app, without_newlines_line_feeds.
    cbn [append without_newlines]. now rewrite E, IH.
Qed.

Lemma contains_suffix a : forall b p,
  contains (a ++ b) p = false -> contains b p = false.
Proof.
  induction a as [|c a IH]; intros b p H; [exact H|].
  cbn [append] in H. rewrite contains_cons in H.
  apply orb_false_iff in H. destruct H as [_ H]. eauto.
Qed.

Lemma collapse_unchanged s : forall run,
  (run <= 2)%nat ->
  TextSpec.has_blank_run (line_feeds run ++ s) = false ->
  collapse_from run s = line_feeds run ++ s.
Proof.
  unfold TextSpec.has_blank_run.
  induction s as [|c s IH]; intros run L H; cbn [collapse_from].
  - now rewrite append_empty.
  - destruct (Ascii.eqb_spec c newline) as [->|Hc].
    + destruct run as [|[|[|run]]]; try lia.
      * apply (IH 1%nat); [lia | exact H].
      * apply (IH 2%nat); [lia | exact H].
      * exfalso. clear - H. unfold nl, chr in H. cbn [line_feeds append] in H.
        unfold nl, chr in H. cbn [append] in H.
        rewrite contains_cons, !prefix_nl_nl in H. destruct s; discriminate H.
    + f_equal. f_equal. apply (IH 0%nat); [lia|].
      apply contains_suffix in H. rewrite contains_cons in H.
      apply orb_false_iff in H. apply H.
Qed.

End CleanUp.

(** X10. The final clean-up touches line feeds only: without its line
    feeds the text returned by [generate_output] is the assembled output
    without its line feeds; collapsing is idempotent, and a text without a
    run of three line feeds is left as it is. *)
Theorem clean_up_touches_line_feeds_only :
  (forall self,
      CleanSpec.without_newlines (generate_output self)
      = CleanSpec.without_newlines (concat_all (output self)))
  /\ (forall s, collapse_blank_lines (collapse_blank_lines s) = collapse_blank_lines s)
  /\ (forall s, TextSpec.has_blank_run s = false -> collapse_blank_lines s = s).
Proof.
  assert (U : forall s, TextSpec.has_blank_run s = false -> collapse_blank_lines s = s).
  { intros s H. unfold collapse_blank_lines.
    now rewrite collapse_unchanged by (lia || exact H). }
  split; [|split].
  - intros self. unfold generate_output.
    set (result := collapse_blank_lines (concat_all (output self))).
    assert (R : CleanSpec.without_newlines result
                = CleanSpec.without_newlines (concat_all (output self)))
      by apply without_newlines_collapse.
    destruct (ends_with_char result newline); [exact R|].
    rewrite without_newlines_app, R. apply append_empty.
  - intros s. apply U. apply collapse_no_blank_run.
  - exact U.
Qed.

(** A text whose rules are one blank line apart stays as it is. *)
Lemma clean_up_touches_line_feeds_only_witness :
  collapse_blank_lines CleanSpec.spaced_text = CleanSpec.spaced_text.
Proof.
  apply (proj2 (proj2 clean_up_touches_line_feeds_only)).
  vm_compute. reflexivity.
Defined.

(* ================================================================== *)
(** * The at-rules that are not keyframes *)
(* ================================================================== *)

Section OtherAtRules.

Import CollectorSpec KeyframesSpec.

Lemma named_is_keyframes m e : is_keyframe_named m e = true -> is_keyframes e = true.
Proof. intros H. apply named_iff in H. unfold is_keyframes. now rewrite (proj1 H). Qed.

Lemma forall2_same_others m c l l' :
  Forall2 (fun x y => y = x \/ (is_keyframe_named m x = true
                                /\ y = mkEntry (keyword x) (name x) c)) l l' ->
  filter (fun e => negb (is_keyframes e)) l' = filter (fun e => negb (is_keyframes e)) l.
Proof.
  induction 1 as [|x y l l' H F IH]; [reflexivity|].
  cbn [filter]. rewrite IH. destruct H as [->|[N ->]]; [reflexivity|].
  apply named_is_keyframes in N. unfold is_keyframes in *. simpl. now rewrite N.
Qed.

Lemma recorded_others entries n :
  filter (fun e => negb (is_keyframes e)) (recorded entries n)
  = (filter (fun e => negb (is_keyframes e)) entries ++ other_at_rules [n])%list.
Proof.
  unfold other_at_rules. cbn [flat_map]. rewrite app_nil_r.
  destruct n as [p c|kw p c t|l m]; cbn [recorded]; try now rewrite app_nil_r.
  destruct (String.eqb kw "media"); [now rewrite app_nil_r|].
  destruct (String.eqb kw "keyframes") eqn:K.
  - rewrite app_nil_r.
    destruct (replace_keyframe (keyframe_name p) t entries) as [l'|] eqn:R.
    + apply replace_shape in R. apply (@forall2_same_others _ _ _ _ R).
    + rewrite filter_app. cbn [filter]. unfold is_keyframes at 2. simpl.
      rewrite K. simpl. apply app_nil_r.
  - rewrite filter_app. cbn [filter]. unfold is_keyframes at 2. simpl.
    now rewrite K.
Qed.

Lemma fold_recorded_others ss : forall entries,
  filter (fun e => negb (is_keyframes e)) (fold_left recorded ss entries)
  = (filter (fun e => negb (is_keyframes e)) entries ++ other_at_rules ss)%list.
Proof.
  induction ss as [|n ss IH]; intros entries.
  - simpl. now rewrite app_nil_r.
  - cbn [fold_left]. rewrite IH, recorded_others, <- app_assoc. f_equal.
    unfold other_at_rules. now rewrite <- flat_map_app.
Qed.

(** ** The deduplication leaves them alone *)

Lemma filter_assign_keyframes idx x : forall acc e,
  nth_error acc idx = Some e -> is_keyframes e = true -> is_keyframes x = true ->
  filter (fun e => negb (is_keyframes e)) (Output.assign idx x acc)
  = filter (fun e => negb (is_keyframes e)) acc.
Proof.
  induction idx as [|idx IH]; intros [|y acc] e H He Hx; try discriminate H.
  - injection H as ->. cbn [Output.assign filter]. now rewrite He, Hx.
  - cbn [Output.assign filter]. now rewrite (IH acc e H He Hx).
Qed.

Lemma nth_error_assign (A : Type) idx (x : A) : forall acc i,
  nth_error (Output.assign idx x acc) i
  = if (i =? idx)%nat then option_map (fun _ => x) (nth_error acc i)
    else nth_error acc i.
Proof.
  induction idx as [|idx IH]; intros [|y acc] [|i]; simpl; try reflexivity;
    try (now destruct (i =? idx)%nat); apply IH.
Qed.

Lemma seen_ok_assign seen acc idx x :
  seen_keyframes_ok seen acc -> is_keyframes x = true ->
  seen_keyframes_ok seen (Output.assign idx x acc).
Proof.
  intros S Hx k i G. destruct (S k i G) as (e & N & K).
  rewrite nth_error_assign. destruct (Nat.eqb i idx).
  - exists x. rewrite N. auto.
  - exists e. auto.
Qed.

Lemma seen_ok_append seen acc x :
  seen_keyframes_ok seen acc -> seen_keyframes_ok seen (acc ++ [x]).
Proof.
  intros S k i G. destruct (S k i G) as (e & N & K).
  exists e. split; [|exact K].
  rewrite nth_error_app1; [exact N|]. apply nth_error_Some. congruence.
Qed.

Lemma seen_ok_record seen acc k x :
  seen_keyframes_ok seen acc -> is_keyframes x = true ->
  seen_keyframes_ok (OD.set k (List.length acc) seen) (acc ++ [x]).
Proof.
  intros S Hx k' i G. rewrite get_set in G.
  destruct (String.eqb k k').
  - injection G as <-. exists x. split; [|exact Hx].
    rewrite nth_error_app2 by lia. now rewrite Nat.sub_diag.
  - now apply (@seen_ok_append seen acc x S k' i).
Qed.

Lemma deduplicate_others rest : forall seen acc,
  seen_keyframes_ok seen acc ->
  filter (fun e => negb (is_keyframes e)) (Output.deduplicate rest seen acc)
  = (filter (fun e => negb (is_keyframes e)) acc
     ++ filter (fun e => negb (is_keyframes e)) rest)%list.
Proof.
  induction rest as [|x rest IH]; intros seen acc S; cbn [Output.deduplicate].
  - now rewrite app_nil_r.
  - assert (Plain : forall seen',
               seen_keyframes_ok seen' (acc ++ [x]) ->
               filter (fun e => negb (is_keyframes e))
                      (Output.deduplicate rest seen' (acc ++ [x]))
               = (filter (fun e => negb (is_keyframes e)) acc
                  ++ filter (fun e => negb (is_keyframes e)) (x :: rest))%list).
    { intros seen' S'. rewrite IH by exact S'.
      rewrite filter_app, <- app_assoc. f_equal.
      cbn [filter]. now destruct (negb (is_keyframes x)). }
    fold (is_keyframes x). cbn [filter].
    destruct (is_keyframes x) eqn:K; cbn [negb].
    + destruct (negb (is_empty (Output.keyframe_key x))).
      * destruct (OD.get (Output.keyframe_key x) seen) as [idx|] eqn:G.
        -- rewrite IH by (now apply seen_ok_assign).
           destruct (S _ _ G) as (e & N & Ke).
           now rewrite (@filter_assign_keyframes idx x acc e N Ke K).
        -- rewrite (Plain _ (@seen_ok_record seen acc _ x S K)). cbn [filter]. now rewrite K.
      * rewrite (Plain _ (@seen_ok_append seen acc x S)). cbn [filter]. now rewrite K.
    + rewrite (Plain _ (@seen_ok_append seen acc x S)). cbn [filter]. now rewrite K.
Qed.

End OtherAtRules.

(** X11. The at-rules at the top level that are neither [@media] nor
    [@keyframes] are never deduplicated: the entries written that are not
    keyframes are exactly their entries, keyword and text, in source order,
    repeated ones as often as they occur. *)
Theorem other_at_rules_are_all_written :
  forall a s stylesheet,
    filter (fun e => negb (CollectorSpec.is_keyframes e))
           (Output.deduplicated_at_rules
              (process_stylesheet (new_compiler a s) stylesheet))
    = CollectorSpec.other_at_rules stylesheet.
Proof.
  intros a s stylesheet. unfold Output.deduplicated_at_rules.
  rewrite deduplicate_others by (intros k idx G; discriminate G).
  rewrite at_rules_process_stylesheet. cbn [at_rules new_compiler filter app].
  now rewrite fold_recorded_others.
Qed.

(* ================================================================== *)
(** * The keyframes entries *)
(* ================================================================== *)

Section KeyframesEntries.

Import CollectorSpec KeyframesSpec MergedSpec.

Lemma in_list_in k l : Output.in_list k l = true <-> In k l.
Proof.
  unfold Output.in_list. rewrite existsb_exists. split.
  - intros (y & Hy & E). apply String.eqb_eq in E. now subst y.
  - intros H. exists k. split; [exact H | apply String.eqb_refl].
Qed.

Lemma recorded_names entries ks node :
  entry_names entries = map Some ks ->
  entry_names (recorded entries node)
  = map Some (first_occurrences_from ks (map fst (keyframes [node]))).
Proof.
  intros E. unfold keyframes. cbn [flat_map]. rewrite app_nil_r.
  destruct node as [p c|kw p c t|l m]; cbn [recorded map first_occurrences_from];
    try exact E.
  destruct (String.eqb kw "media") eqn:M.
  { apply String.eqb_eq in M. subst kw. exact E. }
  destruct (String.eqb kw "keyframes") eqn:K;
    cbn [map fst first_occurrences_from].
  - destruct (replace_keyframe (keyframe_name p) t entries) as [l'|] eqn:R.
    + assert (In (Some (keyframe_name p)) (entry_names entries)).
      { destruct (Forall_Exists_dec (fun e => is_keyframe_named (keyframe_name p) e = false)
                    (fun e => bool_dec _ _) entries) as [F|X].
        - apply replace_none with (c := t) in F. congruence.
        - apply Exists_exists in X. destruct X as (e & He & Hn).
          apply in_entry_names. exists e. split; [exact He|].
          now destruct (is_keyframe_named (keyframe_name p) e). }
      rewrite E in H. apply in_map_iff in H. destruct H as (k & Hk & Hin).
      injection Hk as ->. apply in_list_in in Hin. rewrite Hin.
      apply replace_shape in R. now rewrite (@forall2_same_names _ _ _ _ R).
    + apply replace_none in R.
      assert (Output.in_list (keyframe_name p) ks = false) as ->.
      { destruct (Output.in_list (keyframe_name p) ks) eqn:I; [|reflexivity].
        apply in_list_in in I. apply (in_map Some) in I. rewrite <- E in I.
        apply in_entry_names in I. destruct I as (e & He & Hn).
        rewrite Forall_forall in R. rewrite (R e He) in Hn. discriminate. }
      rewrite entry_names_app, map_app, E. f_equal.
      unfold entry_names. simpl. now rewrite K.
  - rewrite entry_names_app, E. unfold entry_names at 1. simpl. rewrite K.
    apply app_nil_r.
Qed.

Lemma first_occurrences_from_app a : forall seen b,
  first_occurrences_from seen (a ++ b)
  = first_occurrences_from (first_occurrences_from seen a) b.
Proof.
  induction a as [|x a IH]; intros seen b; [reflexivity|].
  cbn [app first_occurrences_from]. apply IH.
Qed.

Lemma fold_recorded_names ss : forall entries ks,
  entry_names entries = map Some ks ->
  entry_names (fold_left recorded ss entries)
  = map Some (first_occurrences_from ks (map fst (keyframes ss))).
Proof.
  induction ss as [|node ss IH]; intros entries ks E; [exact E|].
  cbn [fold_left]. rewrite keyframes_cons, map_app, first_occurrences_from_app.
  apply IH. now apply recorded_names.
Qed.

(** The first keyframes at-rule of a name. *)
Lemma first_occurrence n ss :
  In n (map fst (keyframes ss)) ->
  exists head p c t tail,
    ss = (head ++ AtRule "keyframes" p c t :: tail)%list
    /\ keyframe_name p = n
    /\ ~ In n (map fst (keyframes head)).
Proof.
  induction ss as [|node ss IH]; intros H; [destruct H|].
  rewrite keyframes_cons, map_app, in_app_iff in H.
  destruct (in_dec string_dec n (map fst (keyframes [node]))) as [Hn|Hn].
  - clear H IH. unfold keyframes in Hn. cbn [flat_map] in Hn. rewrite app_nil_r in Hn.
    destruct node as [p c|kw p c t|l m]; try destruct Hn.
    destruct (String.eqb_spec kw "keyframes") as [->|]; [|destruct Hn].
    destruct Hn as [Hn|[]]. simpl in Hn.
    exists [], p, c, t, ss. repeat split; auto.
  - destruct H as [H|H]; [contradiction|].
    destruct (IH H) as (head & p & c & t & tail & -> & Ep & Hh).
    exists (node :: head), p, c, t, tail. repeat split; auto.
    rewrite keyframes_cons, map_app, in_app_iff. tauto.
Qed.

(** The entry of a name from its first occurrence on. *)
Lemma entry_of_first_occurrence head p c t tail :
  ~ In (keyframe_name p) (map fst (keyframes head)) ->
  let n := keyframe_name p in
  let ss := (head ++ AtRule "keyframes" p c t :: tail)%list in
  exists last,
    last_content n ss = Some last
    /\ single_entry n (List.length (fold_left recorded head [])) last
                    (fold_left recorded ss []).
Proof.
  intros First n ss.
  set (E0 := fold_left recorded head []).
  destruct (@fold_recorded_invariants (keyframes head) head [])
    as [_ Known]; [apply incl_refl | constructor | constructor |].
  fold E0 in Known.
  assert (Unnamed : Forall (fun e => is_keyframe_named n e = false) E0).
  { unfold from_known in Known. rewrite Forall_forall in Known |- *.
    intros e He. destruct (is_keyframe_named n e) eqn:Hn; [|reflexivity].
    apply named_iff in Hn. destruct Hn as [K N].
    destruct (Known e He K) as (m & Hm & Hin).
    elim First. apply (in_map fst) in Hin. simpl in Hin.
    rewrite Hm in N. injection N as ->. exact Hin. }
  unfold ss. rewrite fold_left_app. fold E0. cbn [fold_left].
  assert (R : recorded E0 (AtRule "keyframes" p c t)
              = (E0 ++ [mkEntry "keyframes" (Some n) t])%list).
  { simpl. fold n. apply replace_none with (c := t) in Unnamed. now rewrite Unnamed. }
  rewrite R.
  exists (match last_of n (keyframes tail) with Some c' => c' | None => t end).
  split.
  - unfold last_content. rewrite keyframes_app, keyframes_cons, !last_of_app.
    destruct (last_of n (keyframes tail)); [reflexivity|].
    unfold keyframes. simpl. fold n. now rewrite String.eqb_refl.
  - apply single_entry_fold.
    exists E0, [], (mkEntry "keyframes" (Some n) t). repeat split; auto.
Qed.

Lemma keyframes_entries_hold_last_content ss :
  Forall (fun e => is_keyframes e = true ->
                   exists n, name e = Some n /\ last_content n ss = Some (content e))
         (fold_left recorded ss []).
Proof.
  destruct (@fold_recorded_invariants (keyframes ss) ss [])
    as [_ Known]; [apply incl_refl | constructor | constructor |].
  unfold from_known in Known. rewrite Forall_forall in Known |- *.
  intros e He K. unfold is_keyframes in K. apply String.eqb_eq in K.
  destruct (Known e He K) as (n & Hn & Hin).
  exists n. split; [exact Hn|].
  apply (in_map fst) in Hin. cbn [fst] in Hin.
  destruct (first_occurrence n ss Hin) as (head & p & c & t & tail & E & Ep & Hh).
  subst n. subst ss.
  destruct (@entry_of_first_occurrence head p c t tail Hh) as (last & L & S).
  cbv zeta in L, S. rewrite L. f_equal.
  destruct S as (front & back & e0 & Eq & _ & Ff & Fb & K0 & N0 & C0).
  rewrite Eq in He. apply in_app_or in He.
  assert (Named : is_keyframe_named (keyframe_name p) e = true)
    by (apply named_iff; auto).
  rewrite Forall_forall in Ff, Fb.
  destruct He as [He|[He|He]].
  - rewrite (Ff e He) in Named. discriminate.
  - subst e0. now symmetry.
  - rewrite (Fb e He) in Named. discriminate.
Qed.

End KeyframesEntries.

(** X12. The keyframes at-rules at the top level are collected by name:
    [self.at_rules] holds one keyframes entry for each name, in the order
    in which the names first occur, and each entry holds the text of the
    last keyframes at-rule of its name. *)
Theorem keyframes_are_collected_by_name :
  forall a s stylesheet,
    let entries := at_rules (process_stylesheet (new_compiler a s) stylesheet) in
    KeyframesSpec.entry_names entries
    = map Some (MergedSpec.first_occurrences
                  (map fst (KeyframesSpec.keyframes stylesheet)))
    /\ Forall (fun e => CollectorSpec.is_keyframes e = true ->
                        exists n, name e = Some n
                                  /\ KeyframesSpec.last_content n stylesheet
                                     = Some (content e))
              entries.
Proof.
  intros a s stylesheet entries. unfold entries.
  rewrite at_rules_process_stylesheet. cbn [at_rules new_compiler].
  split.
  - now apply (fold_recorded_names stylesheet [] []).
  - apply keyframes_entries_hold_last_content.
Qed.

(* ================================================================== *)
(** * The counters *)
(* ================================================================== *)

Section CounterFacts.

Import StatsSpec.

Ltac stats_eq :=
  unfold add_stats, zero_stats; simpl;
  repeat match goal with s : statistics |- _ => destruct s end;
  simpl; f_equal; lia.

Ltac stats_fields :=
  unfold add_stats;
  cbn [rules_parsed selectors_split properties_merged st_at_rules
       st_media_queries parse_errors List.length filter];
  f_equal; lia.

Lemma add_stats_assoc a b c : add_stats (add_stats a b) c = add_stats a (add_stats b c).
Proof. stats_eq. Qed.

Lemma add_stats_zero a : add_stats a zero_stats = a.
Proof. stats_eq. Qed.

Lemma stats_bump c self :
  stats (bump c self)
  = add_stats (stats self)
      match c with
      | RulesParsed => mkStats 1 0 0 0 0 0
      | SelectorsSplit => mkStats 0 1 0 0 0 0
      | PropertiesMerged => mkStats 0 0 1 0 0 0
      | AtRules => mkStats 0 0 0 1 0 0
      | MediaQueries => mkStats 0 0 0 0 1 0
      | ParseErrors => mkStats 0 0 0 0 0 1
      end.
Proof.
  destruct self as [a s r ar mq st]. destruct st, c; unfold add_stats; simpl;
    f_equal; lia.
Qed.

Lemma stats_parse_declarations ds : forall props self,
  stats (snd (parse_declarations ds props self))
  = add_stats (stats self) (mkStats 0 0 0 0 0 (count_errors ds)).
Proof.
  unfold count_errors.
  induction ds as [|[n v i|] ds IH]; intros props self; cbn [parse_declarations filter].
  - symmetry. apply add_stats_zero.
  - apply IH.
  - rewrite IH, stats_bump, add_stats_assoc. f_equal.
    stats_fields.
Qed.

Lemma stats_add_properties props : forall sel t self,
  stats (snd (add_properties props sel t self))
  = add_stats (stats self) (mkStats 0 0 (Z.of_nat (List.length props)) 0 0 0).
Proof.
  induction props as [|[p v] props IH]; intros sel t self; cbn [add_properties].
  - symmetry. apply add_stats_zero.
  - rewrite IH, stats_bump, add_stats_assoc. f_equal.
    stats_fields.
Qed.

Lemma stats_store_selectors sels : forall props t self,
  stats (snd (store_selectors sels props t self))
  = let n := Z.of_nat (List.length (Scanner.kept sels)) in
    add_stats (stats self)
              (mkStats 0 n (n * Z.of_nat (List.length props)) 0 0 0).
Proof.
  induction sels as [|sel sels IH]; intros props t self; cbn [store_selectors].
  - symmetry. apply add_stats_zero.
  - unfold Scanner.kept. cbn [map filter]. fold (Scanner.kept sels).
    destruct (is_empty (strip sel)); cbn [negb]; [apply IH|].
    set (t' := if OD.mem (strip sel) t then t
               else OD.set (strip sel) (CSSRule.new (strip sel)) t).
    pose proof (stats_add_properties props (strip sel) t' (bump SelectorsSplit self)) as A.
    destruct (add_properties props (strip sel) t' (bump SelectorsSplit self))
      as [t'' self''].
    cbn [snd] in A. rewrite IH, A, stats_bump, !add_stats_assoc. f_equal.
    stats_fields.
Qed.

Lemma stats_process_qualified_rule self p c mc :
  stats (process_qualified_rule self p c mc)
  = add_stats (stats self) (rule_counts p c).
Proof.
  unfold process_qualified_rule, rule_counts, parse_declaration_block.
  destruct (is_empty (strip (serialize_tokens p))); [apply stats_bump|].
  pose proof (stats_parse_declarations c (OD.empty _) (bump RulesParsed self)) as P.
  destruct (parse_declarations_pure c (OD.empty _) (bump RulesParsed self)) as [F _].
  destruct (parse_declarations c (OD.empty _) (bump RulesParsed self))
    as [props self1].
  cbn [fst snd] in P, F. fold (Store.block_properties c) in F. rewrite <- F.
  assert (S1 : stats self1
               = add_stats (stats self) (mkStats 1 0 0 0 0 (count_errors c))).
  { rewrite P, stats_bump, add_stats_assoc. f_equal. }
  destruct props as [|pv props]; [exact S1|].
  set (sels := split_selectors _).
  assert (Fin : forall t self2,
             stats self2 = stats (snd (store_selectors sels (pv :: props) t self1)) ->
             stats self2
             = add_stats (stats self)
                 (mkStats 1 (Z.of_nat (List.length (Scanner.kept sels)))
                          (Z.of_nat (List.length (Scanner.kept sels))
                           * Z.of_nat (List.length (pv :: props)))
                          0 0 (count_errors c))).
  { intros t self2 ->. rewrite stats_store_selectors, S1. cbv zeta.
    rewrite add_stats_assoc. f_equal. stats_fields. }
  destruct (target_scope mc) as [c0|].
  - destruct (OD.setdefault c0 (OD.empty _) (media_queries self1)) as [media t].
    apply (Fin t).
    destruct (store_selectors sels (pv :: props) t self1) as [t' self2].
    reflexivity.
  - apply (Fin (rules self1)).
    destruct (store_selectors sels (pv :: props) (rules self1) self1) as [t' self2].
    reflexivity.
Qed.

Lemma stats_media_children condition children : forall self,
  stats
    (fold_left
       (fun self rule =>
          match rule with
          | QualifiedRule p c => process_qualified_rule self p c (Some condition)
          | _ => self
          end)
       children self)
  = add_stats (stats self) (children_counts children).
Proof.
  induction children as [|child children IH]; intros self;
    cbn [fold_left children_counts fold_right].
  - now rewrite add_stats_zero.
  - rewrite IH. destruct child as [p c| |]; try reflexivity.
    now rewrite stats_process_qualified_rule, add_stats_assoc.
Qed.

Lemma stats_process_node self n :
  stats (process_node self n) = add_stats (stats self) (node_counts n).
Proof.
  destruct n as [p c|kw p children t|l m]; cbn [process_node node_counts].
  - apply stats_process_qualified_rule.
  - unfold process_at_rule. destruct (String.eqb kw "media").
    + now rewrite stats_media_children, stats_bump, add_stats_assoc.
    + destruct (String.eqb kw "keyframes").
      * destruct (replace_keyframe _ _ _); apply (stats_bump AtRules self).
      * apply (stats_bump AtRules self).
  - apply (stats_bump ParseErrors self).
Qed.

Lemma stats_process_stylesheet ss : forall self,
  stats (process_stylesheet self ss) = add_stats (stats self) (stylesheet_counts ss).
Proof.
  unfold process_stylesheet.
  induction ss as [|n ss IH]; intros self; cbn [fold_left stylesheet_counts fold_right].
  - now rewrite add_stats_zero.
  - now rewrite IH, stats_process_node, add_stats_assoc.
Qed.

(** The entries kept are never more than the at-rules counted. *)
Lemma length_recorded entries n :
  (Z.of_nat (List.length (KeyframesSpec.recorded entries n))
   <= Z.of_nat (List.length entries) + st_at_rules (node_counts n))%Z.
Proof.
  destruct n as [p c|kw p children t|l m]; cbn [KeyframesSpec.recorded node_counts].
  - unfold rule_counts. destruct (is_empty _); [simpl; lia|].
    destruct (Store.block_properties c); simpl; lia.
  - destruct (String.eqb kw "media").
    { assert (0 <= st_at_rules (children_counts children))%Z.
      { induction children as [|[p' c'| |] children IH]; cbn [children_counts fold_right];
          try exact IH; [simpl; lia|].
        fold (children_counts children). unfold rule_counts.
        destruct (is_empty _); [simpl; lia|].
        destruct (Store.block_properties c'); simpl; lia. }
      simpl. lia. }
    destruct (String.eqb kw "keyframes").
    + destruct (replace_keyframe _ _ _) as [l'|] eqn:R.
      * apply replace_shape in R. apply Forall2_length in R. simpl. lia.
      * rewrite length_app. simpl. lia.
    + rewrite length_app. simpl. lia.
  - simpl. lia.
Qed.

Lemma length_fold_recorded ss : forall entries,
  (Z.of_nat (List.length (fold_left KeyframesSpec.recorded ss entries))
   <= Z.of_nat (List.length entries) + st_at_rules (stylesheet_counts ss))%Z.
Proof.
  induction ss as [|n ss IH]; intros entries;
    cbn [fold_left stylesheet_counts fold_right]; [simpl; lia|].
  specialize (IH (KeyframesSpec.recorded entries n)).
  pose proof (length_recorded entries n).
  fold (stylesheet_counts ss). unfold add_stats. cbn [st_at_rules]. lia.
Qed.

End CounterFacts.

(** X13. The counters reported after processing can be read off the
    stylesheet: each qualified rule at the top level or in a media block is
    counted as parsed; a rule with a selector has its error declarations
    counted, and, when it has properties, its selectors counted and each
    property once for each selector; each media block, each other at-rule
    and each error node is counted once.  The at-rules kept are never more
    than the at-rules counted (a repeated keyframes at-rule is counted
    again, not kept again). *)
Theorem counters_follow_the_stylesheet :
  forall a s stylesheet,
    let self := process_stylesheet (new_compiler a s) stylesheet in
    stats self = StatsSpec.stylesheet_counts stylesheet
    /\ (Z.of_nat (List.length (at_rules self)) <= st_at_rules (stats self))%Z.
Proof.
  intros a s stylesheet self.
  assert (E : stats self = StatsSpec.stylesheet_counts stylesheet).
  { unfold self. rewrite stats_process_stylesheet. cbn [stats new_compiler].
    unfold StatsSpec.add_stats, zero_stats. simpl.
    now destruct (StatsSpec.stylesheet_counts stylesheet). }
  split; [exact E|]. rewrite E. unfold self.
  rewrite at_rules_process_stylesheet. cbn [at_rules new_compiler].
  pose proof (length_fold_recorded stylesheet []) as L. simpl in L. lia.
Qed.

(* ================================================================== *)
(** * The flags *)
(* ================================================================== *)

Section Flags.

Import FlagSpec.

Lemma stored_after_store a b p c mc :
  same_store a b ->
  Store.stored_after a p c mc = Store.stored_after b p c mc.
Proof.
  intros (R & _ & M). unfold Store.stored_after. now rewrite R, M.
Qed.

Lemma process_qualified_rule_flags a b p c mc :
  same_store a b ->
  same_store (process_qualified_rule a p c mc) (process_qualified_rule b p c mc).
Proof.
  intros S.
  destruct (process_qualified_rule_store a p c mc) as (Ha & _ & _ & A3).
  destruct (process_qualified_rule_store b p c mc) as (Hb & _ & _ & B3).
  cbv zeta in Ha, Hb. rewrite (stored_after_store p c mc S) in Ha.
  rewrite <- Hb in Ha. injection Ha as Hr Hm.
  destruct S as (_ & S2 & _).
  repeat split; congruence.
Qed.

Lemma media_children_flags condition children : forall a b,
  same_store a b ->
  same_store
    (fold_left
       (fun self rule =>
          match rule with
          | QualifiedRule p c => process_qualified_rule self p c (Some condition)
          | _ => self
          end)
       children a)
    (fold_left
       (fun self rule =>
          match rule with
          | QualifiedRule p c => process_qualified_rule self p c (Some condition)
          | _ => self
          end)
       children b).
Proof.
  induction children as [|n children IH]; intros a b S; [exact S|].
  cbn [fold_left]. apply IH. destruct n as [p c| |]; auto.
  now apply process_qualified_rule_flags.
Qed.

Lemma process_node_flags a b n :
  same_store a b -> same_store (process_node a n) (process_node b n).
Proof.
  intros S. destruct n as [p c|kw p children t|l m]; cbn [process_node].
  - now apply process_qualified_rule_flags.
  - unfold process_at_rule. destruct (String.eqb kw "media").
    + apply media_children_flags. exact S.
    + destruct S as (S1 & S2 & S3).
      destruct (String.eqb kw "keyframes").
      * simpl. rewrite S2. destruct (replace_keyframe _ _ _); repeat split; assumption.
      * repeat split; simpl; congruence.
  - exact S.
Qed.

Lemma process_stylesheet_store ss : forall a b,
  same_store a b -> same_store (process_stylesheet a ss) (process_stylesheet b ss).
Proof.
  unfold process_stylesheet.
  induction ss as [|n ss IH]; intros a b S; [exact S|].
  cbn [fold_left]. apply IH. now apply process_node_flags.
Qed.

Lemma generate_output_store a b :
  same_store a b -> generate_output a = generate_output b.
Proof.
  intros (R & A & M).
  unfold generate_output, output, Output.at_rules_section,
    Output.deduplicated_at_rules, Output.root_section, Output.root_rules,
    Output.base_section, Output.base_rules, Output.main_section, Output.main_rules,
    Output.root_rules, Output.base_rules,
    Media.media_section, Media.sections, Media.merged_queries.
  now rewrite R, A, M.
Qed.

(** Without a dangerous selector the two sorts of a scope agree. *)
Lemma sort_safely_harmless (t : OD.t CSSRule.t) :
  NoDup (OD.keys t) ->
  Forall (fun k => is_dangerous k = false) (OD.keys t) ->
  sort_safely t = sort_plainly t.
Proof.
  intros N H. rewrite Forall_forall in H.
  unfold sort_safely, sort_plainly, select.
  rewrite (@filter_none _ (fun kv : string * CSSRule.t => is_dangerous (fst kv)) t).
  2:{ intros [k v] Hin. apply H. now apply (in_map fst) in Hin. }
  rewrite (@filter_all _ (fun kv : string * CSSRule.t => negb (is_dangerous (fst kv))) t).
  2:{ intros [k v] Hin. simpl. rewrite H; [reflexivity|]. now apply (in_map fst) in Hin. }
  rewrite (of_items_nodup t N).
  change (OD.update (OD.empty CSSRule.t) (OD.of_items [])) with (OD.empty CSSRule.t).
  fold (OD.of_items (OD.of_items (sorted_by String.leb (@lower_key _) t))).
  assert (N' : NoDup (OD.keys (sorted_by String.leb (@lower_key CSSRule.t) t))).
  { unfold OD.keys. eapply Permutation_NoDup; [|exact N].
    apply Permutation_map, Permutation_sym, sorted_by_perm. }
  now rewrite (of_items_nodup _ N'), (of_items_nodup _ N').
Qed.

End Flags.

(** X14. The flags play no part in what is stored: whatever the flags, the
    same rules, at-rules and media queries are stored.  Without the
    alphabetical flag the store is written as it is, so the text is the same
    with and without safe mode. *)
Theorem unsafe_flag_is_inert_without_alphabetical :
  forall stylesheet,
    (forall a s a' s',
        FlagSpec.same_store (process_stylesheet (new_compiler a s) stylesheet)
                            (process_stylesheet (new_compiler a' s') stylesheet))
    /\ (forall s,
           FlagSpec.same_store (compiled (new_compiler false s) stylesheet)
                               (process_stylesheet (new_compiler false s) stylesheet))
    /\ (forall s s',
           compile (new_compiler false s) stylesheet
           = compile (new_compiler false s') stylesheet).
Proof.
  intros stylesheet.
  assert (P : forall a s a' s',
             FlagSpec.same_store (process_stylesheet (new_compiler a s) stylesheet)
                                 (process_stylesheet (new_compiler a' s') stylesheet)).
  { intros a s a' s'. apply process_stylesheet_store. repeat split. }
  assert (C : forall s, compiled (new_compiler false s) stylesheet
                        = process_stylesheet (new_compiler false s) stylesheet).
  { intros s. unfold compiled.
    destruct (process_stylesheet_flags stylesheet (new_compiler false s)) as [Fa _].
    now rewrite Fa. }
  split; [exact P|]. split.
  - intros s. rewrite C. repeat split.
  - intros s s'. unfold compile. rewrite !C. apply generate_output_store, P.
Qed.

(** X15. Safe mode matters for dangerous selectors only: when no stored
    selector contains one of the dangerous patterns, the alphabetical text is
    the same with and without safe mode. *)
Theorem safe_mode_matters_for_dangerous_selectors_only :
  forall stylesheet,
    FlagSpec.harmless (process_stylesheet (new_compiler true true) stylesheet) ->
    compile (new_compiler true true) stylesheet
    = compile (new_compiler true false) stylesheet.
Proof.
  intros stylesheet [Hr Hm].
  set (safe := process_stylesheet (new_compiler true true) stylesheet) in *.
  set (plain := process_stylesheet (new_compiler true false) stylesheet).
  assert (S : FlagSpec.same_store safe plain)
    by (apply process_stylesheet_store; repeat split).
  assert (W : Store.well_formed safe)
    by apply process_stylesheet_wf, new_compiler_wf.
  destruct (process_stylesheet_flags stylesheet (new_compiler true true)) as [Fa Fs].
  destruct (process_stylesheet_flags stylesheet (new_compiler true false)) as [Ga Gs].
  fold safe in Fa, Fs. fold plain in Ga, Gs. simpl in Fa, Fs, Ga, Gs.
  unfold compile, compiled. fold safe. fold plain. rewrite Fa, Ga.
  apply generate_output_store.
  destruct S as (R & A & M). destruct W as [N F].
  unfold sort_rules. rewrite Fs, Gs. unfold FlagSpec.same_store. simpl.
  rewrite <- R, <- M. split; [now apply sort_safely_harmless|].
  split; [exact A|].
  clear -F Hm. induction F as [|[c r] mq Hrn F IH]; [reflexivity|].
  inversion Hm; subst. simpl in *. f_equal; [|now apply IH].
  f_equal. now apply sort_safely_harmless.
Qed.

Lemma safe_mode_matters_for_dangerous_selectors_only_witness :
  FlagSpec.harmless (process_stylesheet (new_compiler true true) FlagSpec.plain_sheet)
  /\ compile (new_compiler true true) FlagSpec.plain_sheet
     = compile (new_compiler true false) FlagSpec.plain_sheet.
Proof.
  assert (H : FlagSpec.harmless
                (process_stylesheet (new_compiler true true) FlagSpec.plain_sheet)).
  { vm_compute. split; repeat constructor. }
  split; [exact H|].
  exact (safe_mode_matters_for_dangerous_selectors_only FlagSpec.plain_sheet H).
Defined.

(* ================================================================== *)
(** * At-rules inside a media block *)
(* ================================================================== *)

Section NestedAtRules.

Lemma media_children_qualified condition children : forall self,
  fold_left
    (fun self rule =>
       match rule with
       | QualifiedRule p c => process_qualified_rule self p c (Some condition)
       | _ => self
       end)
    children self
  = fold_left
      (fun self rule =>
         match rule with
         | QualifiedRule p c => process_qualified_rule self p c (Some condition)
         | _ => self
         end)
      (NestedSpec.qualified_rules children) self.
Proof.
  unfold NestedSpec.qualified_rules.
  induction children as [|child children IH]; intros self; [reflexivity|].
  destruct child as [p c|kw p c t|l m]; cbn [fold_left filter NestedSpec.is_qualified_rule];
    apply IH.
Qed.

Lemma qualified_rules_skip before nested after :
  NestedSpec.is_qualified_rule nested = false ->
  NestedSpec.qualified_rules (before ++ nested :: after)
  = NestedSpec.qualified_rules (before ++ after).
Proof.
  intros N. unfold NestedSpec.qualified_rules.
  rewrite !filter_app. cbn [filter]. now rewrite N.
Qed.

(** A media block is processed from its condition and the qualified rules
    among its children; its own text plays no part. *)
Lemma process_media_block self prelude children text text' :
  process_node self (AtRule "media" prelude children text)
  = process_node self
      (AtRule "media" prelude (NestedSpec.qualified_rules children) text').
Proof.
  cbn [process_node]. unfold process_at_rule. cbn [String.eqb Ascii.eqb Bool.eqb].
  now rewrite media_children_qualified.
Qed.

End NestedAtRules.

(** C10. An at-rule among the children of a [@media] block is passed over.
    Processing the block with it gives the very compiler state (rules,
    at-rules, media queries and every counter) that processing the block
    without it gives, whatever the text of the block (which, in a real
    stylesheet, holds the text of the nested at-rule) is replaced with: the
    state depends on the condition of the block and on the qualified rules
    among its children only.  The list of at-rules kept is the one before
    the block.  So the text compiled from a stylesheet is the same with and
    without the nested at-rule. *)
Theorem nested_at_rule_is_discarded :
  forall self prelude text text' before after kw p c t,
    let nested := AtRule kw p c t in
    let block := AtRule "media" prelude (before ++ nested :: after) text in
    let block' := AtRule "media" prelude (before ++ after) text' in
    process_node self block = process_node self block'
    /\ process_node self block
       = process_node self
           (AtRule "media" prelude
                   (NestedSpec.qualified_rules (before ++ after)) text')
    /\ at_rules (process_node self block) = at_rules self
    /\ forall head tail,
        compile self (head ++ block :: tail) = compile self (head ++ block' :: tail).
Proof.
  intros self prelude text text' before after kw p c t nested block block'.
  assert (E : forall s, process_node s block = process_node s block').
  { intros s. unfold block, block'.
    rewrite (process_media_block s prelude (before ++ nested :: after) text text').
    rewrite (process_media_block s prelude (before ++ after) text' text').
    now rewrite qualified_rules_skip. }
  split; [apply E|]. split.
  - rewrite E. apply process_media_block.
  - split.
    + unfold block. cbn [process_node]. unfold process_at_rule.
      cbn [String.eqb Ascii.eqb Bool.eqb].
      now rewrite media_children_keep_at_rules.
    + intros head tail. unfold compile, compiled, process_stylesheet.
      rewrite !fold_left_app. cbn [fold_left]. now rewrite E.
Qed.
